(** * AttachmentCrypto (ts/AttachmentCrypto.ts): a shallow embedding

    Byte arrays ([Uint8Array], [Buffer]) are lists of integers, a stream is
    the list of chunks it delivers, Node's hash and HMAC objects are records
    holding what was fed to them, and the file system and the log are an
    explicit [World] that every asynchronous function threads through. *)

From Stdlib Require Import ZArith List Lia Bool Ascii String.
From stdpp Require Import gmap strings list fin_maps.

Import ListNotations.
Local Open Scope nat_scope.

(** ** Bytes and constants (ts/types/Crypto.ts) *)

Definition byte := Z.
Definition Bytes := list byte.

Definition IV_LENGTH : nat := 16.
Definition KEY_LENGTH : nat := 32.
Definition MAC_LENGTH : nat := 32.

Definition DIGEST_LENGTH : nat := MAC_LENGTH.
Definition HEX_DIGEST_LENGTH : nat := DIGEST_LENGTH * 2.
Definition ATTACHMENT_MAC_LENGTH : nat := MAC_LENGTH.
Definition KEY_SET_LENGTH : nat := KEY_LENGTH + MAC_LENGTH.

Definition bytesOfString (s : string) : Bytes :=
  map (fun c => Z.of_N (N_of_ascii c)) (list_ascii_of_string s).

(** ** SHA-256 (Node's [createHash('sha256')], FIPS 180-4) *)

Module Sha256.

Definition w32 (x : Z) : Z := Z.land x 0xFFFFFFFF.
Definition add32 (x y : Z) : Z := w32 (x + y).
Definition rotr (n x : Z) : Z :=
  Z.lor (Z.shiftr x n) (w32 (Z.shiftl x (32 - n))).
Definition not32 (x : Z) : Z := Z.lxor x 0xFFFFFFFF.

Definition Ch (x y z : Z) : Z := Z.lxor (Z.land x y) (Z.land (not32 x) z).
Definition Maj (x y z : Z) : Z :=
  Z.lxor (Z.lxor (Z.land x y) (Z.land x z)) (Z.land y z).
Definition bigSigma0 (x : Z) : Z :=
  Z.lxor (Z.lxor (rotr 2 x) (rotr 13 x)) (rotr 22 x).
Definition bigSigma1 (x : Z) : Z :=
  Z.lxor (Z.lxor (rotr 6 x) (rotr 11 x)) (rotr 25 x).
Definition smallSigma0 (x : Z) : Z :=
  Z.lxor (Z.lxor (rotr 7 x) (rotr 18 x)) (Z.shiftr x 3).
Definition smallSigma1 (x : Z) : Z :=
  Z.lxor (Z.lxor (rotr 17 x) (rotr 19 x)) (Z.shiftr x 10).

(** The first 64 primes, from which the standard derives its constants. *)
Definition isPrime (n : nat) : bool :=
  forallb (fun d => negb (n mod d =? 0)) (seq 2 (n - 2)).

Definition primes : list Z :=
  Eval vm_compute in map Z.of_nat (List.filter isPrime (seq 2 310)).

(** The integer cube root of a number below 2^105, bit by bit. *)
Definition cubeRoot (n : Z) : Z :=
  fold_left
    (fun r b =>
       let r' := (r + Z.shiftl 1 (Z.of_nat b))%Z in
       if (r' * r' * r' <=? n)%Z then r' else r)
    (rev (seq 0 35)) 0%Z.

(** The round constants: the first 32 bits of the fractional parts of the
    cube roots of the primes. *)
Definition K : list Z :=
  Eval vm_compute in map (fun p => w32 (cubeRoot (Z.shiftl p 96))) primes.

(** The eight working variables, also the chaining value. *)
Record state := State {
  ha : Z; hb : Z; hc : Z; hd : Z; he : Z; hf : Z; hg : Z; hh : Z }.

(** The initial hash value: the first 32 bits of the fractional parts of the
    square roots of the first eight primes. *)
Definition H0 : state :=
  Eval vm_compute in
    let h i := w32 (Z.sqrt (Z.shiftl (nth i primes 0%Z) 64)) in
    State (h 0) (h 1) (h 2) (h 3) (h 4) (h 5) (h 6) (h 7).

Definition be32 (x : Z) : Bytes :=
  [ Z.land (Z.shiftr x 24) 0xFF; Z.land (Z.shiftr x 16) 0xFF;
    Z.land (Z.shiftr x 8) 0xFF; Z.land x 0xFF ]%Z.

Definition be64 (x : Z) : Bytes := be32 (Z.shiftr x 32) ++ be32 x.

(** Padding: a 1 bit, zeros up to 56 mod 64, then the bit length. *)
Definition pad (m : Bytes) : Bytes :=
  let n := length m in
  m ++ [0x80%Z] ++ repeat 0%Z ((119 - n mod 64) mod 64)
    ++ be64 (8 * Z.of_nat n).

Fixpoint wordsOf (fuel : nat) (b : Bytes) : list Z :=
  match fuel, b with
  | S fuel', b0 :: b1 :: b2 :: b3 :: rest =>
      Z.lor (Z.shiftl b0 24) (Z.lor (Z.shiftl b1 16) (Z.lor (Z.shiftl b2 8) b3))
        :: wordsOf fuel' rest
  | _, _ => []
  end.

(** Message schedule: [w] holds W_0 .. W_(t-1); [n] more words are added. *)
Fixpoint schedule (n : nat) (w : list Z) : list Z :=
  match n with
  | O => w
  | S n' =>
      let t := length w in
      let at_ i := nth (t - i) w 0%Z in
      schedule n'
        (w ++ [add32 (add32 (smallSigma1 (at_ 2)) (at_ 7))
                     (add32 (smallSigma0 (at_ 15)) (at_ 16))])
  end.

Definition round (s : state) (kw : Z * Z) : state :=
  let '(k, w) := kw in
  let t1 := add32 (add32 (add32 (hh s) (bigSigma1 (he s)))
                         (add32 (Ch (he s) (hf s) (hg s)) k)) w in
  let t2 := add32 (bigSigma0 (ha s)) (Maj (ha s) (hb s) (hc s)) in
  State (add32 t1 t2) (ha s) (hb s) (hc s) (add32 (hd s) t1)
        (he s) (hf s) (hg s).

Definition compress (h : state) (block : Bytes) : state :=
  let w := schedule 48 (wordsOf 16 block) in
  let s := fold_left round (combine K w) h in
  State (add32 (ha h) (ha s)) (add32 (hb h) (hb s)) (add32 (hc h) (hc s))
        (add32 (hd h) (hd s)) (add32 (he h) (he s)) (add32 (hf h) (hf s))
        (add32 (hg h) (hg s)) (add32 (hh h) (hh s)).

Fixpoint blocks (fuel : nat) (h : state) (b : Bytes) : state :=
  match fuel, b with
  | S fuel', _ :: _ => blocks fuel' (compress h (firstn 64 b)) (skipn 64 b)
  | _, _ => h
  end.

Definition output (s : state) : Bytes :=
  be32 (ha s) ++ be32 (hb s) ++ be32 (hc s) ++ be32 (hd s) ++
  be32 (he s) ++ be32 (hf s) ++ be32 (hg s) ++ be32 (hh s).

Definition sha256 (m : Bytes) : Bytes :=
  let p := pad m in output (blocks (length p) H0 p).

End Sha256.

(** ** Hex encoding ([digest('hex')]) *)

Definition hexDigit (n : Z) : ascii :=
  nth (Z.to_nat n)
      (list_ascii_of_string "0123456789abcdef") "0"%char.

Fixpoint toHex (b : Bytes) : string :=
  match b with
  | [] => EmptyString
  | x :: rest =>
      String (hexDigit (Z.land (Z.shiftr x 4) 0xF))
        (String (hexDigit (Z.land x 0xF)) (toHex rest))
  end.

Definition sha256hex (m : Bytes) : string := toHex (Sha256.sha256 m).

(** ** HMAC-SHA-256 (Node's [createHmac('sha256', key)], RFC 2104) *)

Definition HMAC_BLOCK : nat := 64.

Definition hmacKeyBlock (key : Bytes) : Bytes :=
  let k := if HMAC_BLOCK <? length key then Sha256.sha256 key else key in
  k ++ repeat 0%Z (HMAC_BLOCK - length k).

Definition hmacSha256 (key msg : Bytes) : Bytes :=
  let k := hmacKeyBlock key in
  Sha256.sha256 (map (Z.lxor 0x5c) k
                 ++ Sha256.sha256 (map (Z.lxor 0x36) k ++ msg)).

(** A hash object is what was fed to it so far; [digest] hashes it. *)
Record Hash := { hashed : Bytes }.
Definition createHash : Hash := {| hashed := [] |}.
Definition Hash_update (h : Hash) (chunk : Bytes) : Hash :=
  {| hashed := hashed h ++ chunk |}.
Definition Hash_digest (h : Hash) : Bytes := Sha256.sha256 (hashed h).
Definition Hash_digest_hex (h : Hash) : string := toHex (Hash_digest h).

Record Hmac := { hmacKey : Bytes; hmacked : Bytes }.
Definition createHmac (key : Bytes) : Hmac := {| hmacKey := key; hmacked := [] |}.
Definition Hmac_update (h : Hmac) (chunk : Bytes) : Hmac :=
  {| hmacKey := hmacKey h; hmacked := hmacked h ++ chunk |}.
Definition Hmac_digest (h : Hmac) : Bytes := hmacSha256 (hmacKey h) (hmacked h).

(** ** Errors, results and promises *)

(** The thrown values, named after the spec's error kinds.  [name] and [code]
    are the two properties the code inspects. *)
Inductive Error :=
  | InvalidKeyLength (got : nat)        (* strictAssert of splitKeys *)
  | TestOnlyFeatureUsed (option_ : string)
  | InvalidDigestLength                 (* strictAssert on digestToMatch *)
  | InvalidIvLength (got : nat)         (* strictAssert of prependIv *)
  | ReencryptedDigestMismatch           (* ReencryptedDigestMismatchError *)
  | BadMac
  | BadDigest
  | BadOuterMac
  | TruncatedFrame
  | Internal (message : string)         (* a strictAssert guard *)
  | CryptoError (message : string)      (* thrown by Node's crypto *)
  | ReadPathMissing (cause : string)    (* "Read path doesn't exist" *)
  | WritePathFailed (cause : string)    (* "Failed to create write path" *)
  | SystemError (code : string)         (* fs errors: ENOENT, EPERM, ... *)
  | AbortError.

Definition Error_name (e : Error) : string :=
  match e with
  | AbortError => "AbortError"
  | _ => "Error"
  end.

Definition Error_code (e : Error) : option string :=
  match e with
  | SystemError c => Some c
  | _ => None
  end.

Definition isAbortError (e : Error) : bool :=
  String.eqb (Error_name e) "AbortError".

(** What a synchronous call does: return or throw. *)
Inductive Result (A : Type) :=
  | Ok (a : A)
  | Err (e : Error).
Arguments Ok {A} a.
Arguments Err {A} e.

(** What an awaited promise does: resolve, reject, or never settle. *)
Inductive Promise (A : Type) :=
  | Resolved (a : A)
  | Rejected (e : Error)
  | Pending.
Arguments Resolved {A} a.
Arguments Rejected {A} e.
Arguments Pending {A}.

(** Modelled from the spec: [strictAssert] of ts/util/assert.ts, which throws
    when its condition does not hold; the error stands for the message. *)
Definition strictAssert (condition : bool) (e : Error) : Result unit :=
  if condition then Ok tt else Err e.

(** ** The world: files, faults, the environment and the log *)

(** The values of [getEnvironment()] (ts/environment.ts).  The code only asks
    whether the environment is [Test]; the others count as "not a test". *)
Inductive Environment := Development | Production | Staging | Test.

Definition Environment_eqb (a b : Environment) : bool :=
  match a, b with
  | Development, Development | Production, Production
  | Staging, Staging | Test, Test => true
  | _, _ => false
  end.

(** The ways [unlink] fails other than for a missing file: the path cannot be
    reached or written (EACCES, ENOTDIR, EROFS), or what is at the path may
    not be unlinked (EPERM, EBUSY, EISDIR). *)
Inductive UnlinkErrno := EPERM | EACCES | EBUSY | EISDIR | EROFS | ENOTDIR.

Definition UnlinkErrno_code (errno : UnlinkErrno) : string :=
  match errno with
  | EPERM => "EPERM"
  | EACCES => "EACCES"
  | EBUSY => "EBUSY"
  | EISDIR => "EISDIR"
  | EROFS => "EROFS"
  | ENOTDIR => "ENOTDIR"
  end.

Inductive LogEntry :=
  | LogInfo (message : string)
  | LogError (message : string) (detail : Error).

Record World := {
  files : gmap string Bytes;        (* path -> content *)
  openFault : gmap string string;   (* creating or opening the path fails *)
  streamFault : gmap string Error;  (* a stream on the path fails while piped *)
  unlinkFault : gmap string UnlinkErrno; (* unlink of the path fails *)
  openFds : nat;                    (* file handles currently open *)
  environment : Environment;        (* getEnvironment() *)
  entropy : nat -> byte;            (* what randomBytes draws from *)
  logged : list LogEntry            (* oldest first *)
}.

Definition setFiles (f : gmap string Bytes) (w : World) : World :=
  {| files := f; openFault := openFault w; streamFault := streamFault w;
     unlinkFault := unlinkFault w; openFds := openFds w;
     environment := environment w; entropy := entropy w; logged := logged w |}.

Definition setOpenFds (n : nat) (w : World) : World :=
  {| files := files w; openFault := openFault w; streamFault := streamFault w;
     unlinkFault := unlinkFault w; openFds := n;
     environment := environment w; entropy := entropy w; logged := logged w |}.

Definition setEntropy (r : nat -> byte) (w : World) : World :=
  {| files := files w; openFault := openFault w; streamFault := streamFault w;
     unlinkFault := unlinkFault w; openFds := openFds w;
     environment := environment w; entropy := r; logged := logged w |}.

Definition log (entry : LogEntry) (w : World) : World :=
  {| files := files w; openFault := openFault w; streamFault := streamFault w;
     unlinkFault := unlinkFault w; openFds := openFds w;
     environment := environment w; entropy := entropy w;
     logged := logged w ++ [entry] |}.

Definition log_info (message : string) : World -> World := log (LogInfo message).
Definition log_error (message : string) (e : Error) : World -> World :=
  log (LogError message e).

Definition getEnvironment (w : World) : Environment := environment w.

(** [randomBytes(n)]: the next [n] bytes of the entropy source. *)
Definition randomBytes (n : nat) (w : World) : Result Bytes * World :=
  (Ok (map (entropy w) (seq 0 n)), setEntropy (fun i => entropy w (n + i)) w).

Definition _generateAttachmentIv := randomBytes IV_LENGTH.
Definition generateAttachmentKeys := randomBytes KEY_SET_LENGTH.
Definition generateKeys := randomBytes KEY_SET_LENGTH.

(** ** Synchronous code: a state and exception monad over the world *)

Definition M (A : Type) : Type := World -> Result A * World.

Definition ret {A} (a : A) : M A := fun w => (Ok a, w).
Definition throw {A} (e : Error) : M A := fun w => (Err e, w).
Definition bind {A B} (m : M A) (k : A -> M B) : M B :=
  fun w => match m w with
           | (Ok a, w') => k a w'
           | (Err e, w') => (Err e, w')
           end.
Definition tryCatch {A} (body : M A) (handler : Error -> M A) : M A :=
  fun w => match body w with
           | (Ok a, w') => (Ok a, w')
           | (Err e, w') => handler e w'
           end.
Definition modify (f : World -> World) : M unit := fun w => (Ok tt, f w).
Definition liftResult {A} (r : Result A) : M A := fun w => (r, w).

Notation "x <- m ;; k" := (bind m (fun x => k))
  (at level 100, m at next level, right associativity).
Notation "m ;;; k" := (bind m (fun _ => k))
  (at level 100, right associativity).

(** fs-extra's [ensureFile]: create the file when it is absent. *)
Definition ensureFile (path : string) : M unit :=
  fun w =>
    match openFault w !! path with
    | Some code => (Err (SystemError code), w)
    | None =>
        match files w !! path with
        | Some _ => (Ok tt, w)
        | None => (Ok tt, setFiles (<[path := []]> (files w)) w)
        end
    end.

(** [open(path, 'w')]: create or truncate, and hold a handle. *)
Definition openWrite (path : string) : M unit :=
  fun w =>
    match openFault w !! path with
    | Some code => (Err (SystemError code), w)
    | None =>
        (Ok tt, setOpenFds (S (openFds w)) (setFiles (<[path := []]> (files w)) w))
    end.

(** [open(path, 'r')]: the content, and a handle. *)
Definition openRead (path : string) : M Bytes :=
  fun w =>
    match openFault w !! path with
    | Some code => (Err (SystemError code), w)
    | None =>
        match files w !! path with
        | Some content => (Ok content, setOpenFds (S (openFds w)) w)
        | None => (Err (SystemError "ENOENT"), w)
        end
    end.

Definition close (w : World) : World := setOpenFds (pred (openFds w)) w.

(** [unlinkSync(path)]: it fails where the path cannot be unlinked, whether
    or not a file is there, and with ENOENT where nothing else is in the way
    and no file is there. *)
Definition unlinkSync (path : string) : M unit :=
  fun w =>
    match unlinkFault w !! path with
    | Some errno => (Err (SystemError (UnlinkErrno_code errno)), w)
    | None =>
        match files w !! path with
        | None => (Err (SystemError "ENOENT"), w)
        | Some _ => (Ok tt, setFiles (delete path (files w)) w)
        end
    end.

(** Unlinks a file without throwing an error if it doesn't exist.
    Throws an error if it fails to unlink for any other reason. *)
Definition safeUnlinkSync (filePath : string) : M unit :=
  tryCatch (unlinkSync filePath)
    (fun error =>
       (* Ignore if file doesn't exist *)
       if negb (bool_decide (Error_code error = Some "ENOENT"%string))
       then modify (log_error "Failed to unlink" error) ;;; throw error
       else ret tt).

(** ** Streams *)

Definition Chunk := Bytes.
Definition Stream := list Chunk.
Definition flat (s : Stream) : Bytes := concat s.

(** How a readable stream finishes: it ends, it is destroyed with an error,
    or nothing ever ends it. *)
Inductive Ending :=
  | Ends
  | Fails (e : Error)
  | Stalls.

Record Readable := { chunks : Stream; ending : Ending }.

(** The sinks the callers pass: a write stream on a file, or an in-memory
    stream (a [PassThrough], a response body) that its consumer may destroy
    with an error. *)
Inductive Writable :=
  | FileSink (path : string)
  | MemorySink (fault : option Error).

(** What an asynchronous call leaves behind: how its promise settled, what an
    in-memory sink saw, and the world. *)
Record Run (A : Type) := {
  outcome : Promise A;
  sinkView : Readable;
  after : World
}.
Arguments outcome {A} r.
Arguments sinkView {A} r.
Arguments after {A} r.

Definition untouched : Readable := {| chunks := []; ending := Stalls |}.

(** Updates a hash of the stream without modifying it. *)
Definition peekAndUpdateHash (hash : Hash) (s : Stream) : Hash * Stream :=
  (fold_left Hash_update s hash, s).

(** Passes the stream through, adding up the lengths of its chunks; the
    total is handed to [onComplete] when the stream ends. *)
Definition measureSize (s : Stream) : option nat * Stream :=
  (Some (fold_left (fun totalBytes chunk => totalBytes + length chunk) s 0), s).

(** Modelled from the spec: [constantTimeEqual] of ts/Crypto.ts, a comparison
    in constant time: the lengths are compared, then the bytewise differences
    are accumulated and tested once. *)
Definition constantTimeEqual (left right : Bytes) : bool :=
  if negb (length left =? length right) then false
  else Z.eqb (fold_left Z.lor (zip_with Z.lxor left right) 0%Z) 0%Z.

(** ** Key utilities *)

Record AttachmentEncryptionKeysType := { aesKey : Bytes; macKey : Bytes }.

(** Splits the keys into aes and mac keys. *)
Definition splitKeys (keys : Bytes) : Result AttachmentEncryptionKeysType :=
  match strictAssert (length keys =? KEY_SET_LENGTH)
                     (InvalidKeyLength (length keys)) with
  | Err e => Err e
  | Ok _ =>
      Ok {| aesKey := firstn KEY_LENGTH keys;
            macKey := skipn KEY_LENGTH (firstn KEY_SET_LENGTH keys) |}
  end.

(** ** Ciphertext length *)

Definition getAesCbcCiphertextLength (plaintextLength : nat) : nat :=
  let AES_CBC_BLOCK_SIZE := 16 in
  (1 + plaintextLength / AES_CBC_BLOCK_SIZE) * AES_CBC_BLOCK_SIZE.

(** ** AES-256-CBC with PKCS#7 (Node's [createCipheriv], [createDecipheriv]) *)

Definition AES_BLOCK : nat := 16.

Definition xorBytes (a b : Bytes) : Bytes := zip_with Z.lxor a b.

Definition pkcs7Pad (p : Bytes) : Bytes :=
  let k := AES_BLOCK - length p mod AES_BLOCK in
  p ++ repeat (Z.of_nat k) k.

(** The plaintext without its PKCS#7 block, or nothing when the last byte
    does not name a well-formed padding. *)
Definition pkcs7Unpad (p : Bytes) : option Bytes :=
  match last p with
  | None => None
  | Some b =>
      let k := Z.to_nat b in
      if (1 <=? k) && (k <=? AES_BLOCK) && (k <=? length p)
         && bool_decide (skipn (length p - k) p = repeat b k)
      then Some (firstn (length p - k) p)
      else None
  end.

(** ** The data the entry points take and return *)

Module EncryptedAttachmentV2.
Record t := {
  digest : Bytes;
  iv : Bytes;
  plaintextHash : string;
  ciphertextSize : nat
}.
End EncryptedAttachmentV2.

Module DecryptedAttachmentV2.
(** [path] is absent from what [decryptAttachmentV2ToSink] returns. *)
Record t := {
  path : option string;
  iv : Bytes;
  plaintextHash : string
}.
End DecryptedAttachmentV2.

Module ReencryptedAttachmentV2.
Record t := {
  path : string;
  iv : string;
  plaintextHash : string;
  localKey : string;
  version : nat
}.
End ReencryptedAttachmentV2.

Inductive PlaintextSourceType :=
  | PlainData (data : Bytes)
  | PlainStream (stream : Readable)
  | PlainPath (absolutePath : string).

Inductive HardcodedIVForEncryptionType :=
  | IvTest (iv : Bytes)
  | IvReencryptingForBackup (iv : Bytes) (digestToMatch : Bytes).

Definition HardcodedIV_iv (d : HardcodedIVForEncryptionType) : Bytes :=
  match d with
  | IvTest iv => iv
  | IvReencryptingForBackup iv _ => iv
  end.

Module EncryptProps.
Record t := {
  plaintext : PlaintextSourceType;
  keys : Bytes;
  dangerousIv : option HardcodedIVForEncryptionType;
  dangerousTestOnlySkipPadding : bool;
  getAbsoluteAttachmentPath : string -> string
}.
End EncryptProps.

(** The integrity mode: [type] with [theirDigest] where it has one. *)
Inductive IntegrityType :=
  | TypeStandard (theirDigest : Bytes)
  | TypeLocal
  | TypeBackupThumbnail.

Definition IntegrityType_name (type_ : IntegrityType) : string :=
  match type_ with
  | TypeStandard _ => "standard"
  | TypeLocal => "local"
  | TypeBackupThumbnail => "backupThumbnail"
  end.

Inductive KeyMaterial :=
  | KeysDirect (aesKey macKey : Bytes)
  | KeysBase64 (keysBase64 : string).

Module DecryptOptions.
Record t := {
  ciphertextPath : string;
  idForLogging : string;
  size : nat;
  outerEncryption : option AttachmentEncryptionKeysType;
  integrity : IntegrityType;
  keyMaterial : KeyMaterial;
  getAbsoluteAttachmentPath : string -> string
}.
End DecryptOptions.

(** What the taps of the two pipelines hold once the stream has ended. *)
Record EncryptTaps := {
  tapPlaintextHash : Hash;
  tapDigest : Hash;
  tapCiphertextSize : option nat;
  tapMac : option Bytes
}.

Record DecryptTaps := {
  seenIv : option Bytes;
  seenPlaintextHash : Hash
}.

Definition rejected {A} (e : Error) (w : World) : Run A :=
  {| outcome := Rejected e; sinkView := untouched; after := w |}.

(** ** [pipeline] of stream/promises *)

(** The error with which the sink fails once it is piped into, if any, and
    the world after the sink was opened. *)
Definition openSink (sink : option Writable) (w : World) : option Error * World :=
  match sink with
  | None => (None, w)
  | Some (MemorySink fault) => (fault, w)
  | Some (FileSink path) =>
      match openFault w !! path with
      | Some code => (Some (SystemError code), w)
      | None =>
          (streamFault w !! path, setFiles (<[path := []]> (files w)) w)
      end
  end.

Definition writeSink (sink : option Writable) (out : Stream) (w : World) : World :=
  match sink with
  | Some (FileSink path) => setFiles (<[path := flat out]> (files w)) w
  | _ => w
  end.

(** The chain of transforms between source and sink maps what the source
    delivers to what reaches the sink and to the taps, or to the error of the
    first stage that fails.  A source that never ends leaves the promise
    pending; an error of the source or of the sink rejects it, and is taken
    to come before anything was passed on; what a chain passed on before one
    of its stages failed reaches the sink, which is then destroyed. *)
Definition pipeline {S : Type} (source : Readable)
    (chain : Stream -> World -> Stream * Result S * World)
    (sink : option Writable) (w : World) : Run S :=
  let '(fault, w0) := openSink sink w in
  match ending source with
  | Stalls => {| outcome := Pending; sinkView := untouched; after := w0 |}
  | Fails e =>
      {| outcome := Rejected e;
         sinkView := {| chunks := []; ending := Fails e |}; after := w0 |}
  | Ends =>
      match fault with
      | Some e =>
          {| outcome := Rejected e;
             sinkView := {| chunks := []; ending := Fails e |}; after := w0 |}
      | None =>
          let '(passed, verdict, w1) := chain (chunks source) w0 in
          let w2 := writeSink sink passed w1 in
          match verdict with
          | Err e =>
              {| outcome := Rejected e;
                 sinkView := {| chunks := passed; ending := Fails e |};
                 after := w2 |}
          | Ok taps =>
              {| outcome := Resolved taps;
                 sinkView := {| chunks := passed; ending := Ends |};
                 after := w2 |}
          end
      end
  end.

(** ** What the module takes from outside

    The AES-256 block cipher of Node's crypto, the pad target of
    ts/util/logPadding.ts (the spec's injected [padTarget]), the chunking of a
    file read stream, the base64 codec of ts/Bytes.ts and the naming of fresh
    attachment paths of ts/util/attachmentPath.ts.  [autoPadding] says
    whether the decipher inside [getIvAndDecipher] removes the PKCS#7 block
    itself or leaves it to [trimPadding]: the spec says both. *)
Class Externals := {
  aesEncryptBlock : Bytes -> Bytes -> Bytes;
  aesDecryptBlock : Bytes -> Bytes -> Bytes;
  logPadSize : nat -> nat;
  autoPadding : bool;
  readChunks : Bytes -> Stream;
  fromBase64 : string -> Bytes;
  toBase64 : Bytes -> string;
  freshRelativePath : World -> string
}.

Section Engine.

Context {externals : Externals}.

Fixpoint cbcEncrypt (fuel : nat) (key prev data : Bytes) : Bytes :=
  match fuel, data with
  | S fuel', _ :: _ =>
      let c := aesEncryptBlock key (xorBytes (firstn AES_BLOCK data) prev) in
      c ++ cbcEncrypt fuel' key c (skipn AES_BLOCK data)
  | _, _ => []
  end.

Fixpoint cbcDecrypt (fuel : nat) (key prev data : Bytes) : Bytes :=
  match fuel, data with
  | S fuel', _ :: _ =>
      let c := firstn AES_BLOCK data in
      xorBytes (aesDecryptBlock key c) prev
        ++ cbcDecrypt fuel' key c (skipn AES_BLOCK data)
  | _, _ => []
  end.

(** The cipher as a stage: everything written, padded and encrypted. *)
Definition createCipheriv (key iv : Bytes) : Result (Stream -> Stream) :=
  if negb (length key =? KEY_LENGTH) then Err (CryptoError "Invalid key length")
  else if negb (length iv =? IV_LENGTH)
  then Err (CryptoError "Invalid initialization vector")
  else Ok (fun s =>
             let p := pkcs7Pad (flat s) in [cbcEncrypt (length p) key iv p]).

(** The decipher: [update] over the whole ciphertext, then [final]. *)
Definition createDecipheriv (key iv : Bytes) : Result (Bytes -> Result Bytes) :=
  if negb (length key =? KEY_LENGTH) then Err (CryptoError "Invalid key length")
  else if negb (length iv =? IV_LENGTH)
  then Err (CryptoError "Invalid initialization vector")
  else Ok (fun c =>
             if negb (length c mod AES_BLOCK =? 0)
             then Err (CryptoError "wrong final block length")
             else
               let p := cbcDecrypt (length c) key iv c in
               if autoPadding then
                 match pkcs7Unpad p with
                 | Some plain => Ok plain
                 | None => Err (CryptoError "bad decrypt")
                 end
               else Ok p).

(** What the decipher's [update] has emitted of a ciphertext by the time
    [final] is called: the plaintext of its whole blocks, less the last one
    where the decipher holds that back to take the padding off. *)
Definition decipherUpdated (key iv c : Bytes) : Bytes :=
  let whole := firstn (length c / AES_BLOCK * AES_BLOCK) c in
  let p := cbcDecrypt (length whole) key iv whole in
  if autoPadding && (length c mod AES_BLOCK =? 0)
  then firstn (length p - AES_BLOCK) p
  else p.

(** ** Stream primitives of ts/util *)

(** Modelled from the spec: [appendPaddingStream] of ts/util/logPadding.ts.
    It counts the plaintext bytes seen and, on end, emits zero bytes up to the
    pad target. *)
Definition appendPaddingStream (s : Stream) : Stream :=
  let n := length (flat s) in
  s ++ [repeat 0%Z (logPadSize n - n)].

(** Modelled from the spec: [prependStream] of ts/util/prependStream.ts. On
    the first chunk it emits the data followed by the chunk, then passes
    chunks through. *)
Definition prependStream (data : Bytes) (s : Stream) : Stream :=
  match s with
  | [] => []
  | chunk :: rest => (data ++ chunk) :: rest
  end.

(** Prepends the iv to the stream. *)
Definition prependIv (iv : Bytes) : Result (Stream -> Stream) :=
  match strictAssert (length iv =? IV_LENGTH) (InvalidIvLength (length iv)) with
  | Err e => Err e
  | Ok _ => Ok (prependStream iv)
  end.

(** Modelled from the spec: [appendMacStream] of ts/util/appendMacStream.ts.
    It feeds an HMAC with everything passing through, re-emits it unchanged,
    and on end emits the 32-byte MAC and hands it to the callback. *)
Definition appendMacStream (macKey_ : Bytes) (s : Stream) : option Bytes * Stream :=
  let mac := Hmac_digest (fold_left Hmac_update s (createHmac macKey_)) in
  (Some mac, s ++ [mac]).

(** Modelled from the spec: [getMacAndUpdateHmac] of
    ts/util/getMacAndUpdateHmac.ts. It holds back the last 32 bytes, emits and
    feeds into the HMAC the bytes before them, and on end hands the retained
    bytes to the callback; a stream shorter than 32 bytes fails. *)
Definition getMacAndUpdateHmac (hmac : Hmac) (s : Stream)
  : Result (Hmac * option Bytes * Stream) :=
  let b := flat s in
  if length b <? MAC_LENGTH then Err TruncatedFrame
  else
    let body := firstn (length b - MAC_LENGTH) b in
    Ok (Hmac_update hmac body, Some (skipn (length b - MAC_LENGTH) b), [body]).

(** Modelled from the spec: what [getMacAndUpdateHmac] has passed on of a
    stream before its end, all but the last 32 bytes. *)
Definition getMacAndUpdateHmacPassed (s : Stream) : Stream :=
  let b := flat s in [firstn (length b - MAC_LENGTH) b].

(** Modelled from the spec: [getIvAndDecipher] of ts/util/getIvAndDecipher.ts.
    It buffers until 16 bytes are available, takes them as the IV, hands it to
    the callback, and streams the rest through the decipher. *)
Definition getIvAndDecipher (aesKey_ : Bytes) (s : Stream)
  : Result (option Bytes * Stream) :=
  let b := flat s in
  if length b <? IV_LENGTH then Ok (None, [])
  else
    let iv := firstn IV_LENGTH b in
    match createDecipheriv aesKey_ iv with
    | Err e => Err e
    | Ok decipher =>
        match decipher (skipn IV_LENGTH b) with
        | Err e => Err e
        | Ok plain => Ok (Some iv, [plain])
        end
    end.

(** Modelled from the spec: what [getIvAndDecipher] has passed on of a stream
    before its end, nothing until the IV is complete and the decipher
    created, then what the decipher's [update] emits. *)
Definition getIvAndDecipherPassed (aesKey_ : Bytes) (s : Stream) : Stream :=
  let b := flat s in
  if length b <? IV_LENGTH then []
  else
    let iv := firstn IV_LENGTH b in
    match createDecipheriv aesKey_ iv with
    | Err _ => []
    | Ok _ => [decipherUpdated aesKey_ iv (skipn IV_LENGTH b)]
    end.

(** Modelled from the spec: [trimPadding] of ts/util/trimPadding.ts. It emits
    only the first [size] bytes of its input and discards the remainder. *)
Fixpoint trimPadding (size : nat) (s : Stream) : Stream :=
  match s with
  | [] => []
  | chunk :: rest => firstn size chunk :: trimPadding (size - length chunk) rest
  end.

(** [createReadStream(path)]: the file as a stream; a missing file is an
    error of the stream. *)
Definition createReadStream (path : string) (w : World) : Readable :=
  match openFault w !! path, files w !! path with
  | Some code, _ => {| chunks := []; ending := Fails (SystemError code) |}
  | None, None => {| chunks := []; ending := Fails (SystemError "ENOENT") |}
  | None, Some content =>
      match streamFault w !! path with
      | Some e => {| chunks := []; ending := Fails e |}
      | None => {| chunks := readChunks content; ending := Ends |}
      end
  end.

(** ** Encryptor *)

(** The readable the encryptor pipes from, by kind of plaintext. *)
Definition plaintextSource (plaintext : PlaintextSourceType) (w : World) : Readable :=
  match plaintext with
  | PlainData data => {| chunks := [data]; ending := Ends |}
  | PlainStream stream => stream
  | PlainPath absolutePath => createReadStream absolutePath w
  end.

Definition getEnvironmentM : M Environment := fun w => (Ok (getEnvironment w), w).

Definition encryptChain (cipher prepend : Stream -> Stream) (macKey_ : Bytes)
    (dangerousTestOnlySkipPadding : bool) (source : Stream) (w : World)
  : Stream * Result EncryptTaps * World :=
  let '(plaintextHash, s1) := peekAndUpdateHash createHash source in
  let s2 := if dangerousTestOnlySkipPadding then s1 else appendPaddingStream s1 in
  let s3 := cipher s2 in
  let s4 := prepend s3 in
  let '(mac, s5) := appendMacStream macKey_ s4 in
  let '(digest, s6) := peekAndUpdateHash createHash s5 in
  let '(ciphertextSize, s7) := measureSize s6 in
  (s7,
   Ok {| tapPlaintextHash := plaintextHash; tapDigest := digest;
         tapCiphertextSize := ciphertextSize; tapMac := mac |},
   w).

(** The checks of the options, up to the choice of the IV. *)
Definition encryptPrologue (logId : string) (props : EncryptProps.t)
  : M (AttachmentEncryptionKeysType * Bytes) :=
  ks <- liftResult (splitKeys (EncryptProps.keys props)) ;;
  match EncryptProps.dangerousIv props with
  | Some (IvTest _) =>
      env <- getEnvironmentM ;;
      if negb (Environment_eqb env Test)
      then throw (TestOnlyFeatureUsed "dangerousIv")
      else ret tt
  | Some (IvReencryptingForBackup _ digestToMatch) =>
      liftResult (strictAssert (length digestToMatch =? DIGEST_LENGTH)
                               InvalidDigestLength) ;;;
      modify (log_info (logId +:+
        ": using hardcoded iv because we are re-encrypting for backup"))
  | None => ret tt
  end ;;;
  env <- getEnvironmentM ;;
  (if EncryptProps.dangerousTestOnlySkipPadding props
      && negb (Environment_eqb env Test)
   then throw (TestOnlyFeatureUsed "dangerousTestOnlySkipPadding")
   else ret tt) ;;;
  iv <- match EncryptProps.dangerousIv props with
        | Some d => ret (HardcodedIV_iv d)
        | None => _generateAttachmentIv
        end ;;
  ret (ks, iv).

(** What follows the pipeline: the guards and the digest to match. *)
Definition encryptEpilogue (logId : string) (props : EncryptProps.t)
    (iv : Bytes) (taps : EncryptTaps) : Result EncryptedAttachmentV2.t :=
  let ourPlaintextHash := Hash_digest_hex (tapPlaintextHash taps) in
  let ourDigest := Hash_digest (tapDigest taps) in
  match strictAssert (String.length ourPlaintextHash =? HEX_DIGEST_LENGTH)
                     (Internal "Failed to generate plaintext hash!") with
  | Err e => Err e
  | Ok _ =>
  match strictAssert (length ourDigest =? DIGEST_LENGTH)
                     (Internal "Failed to generate ourDigest!") with
  | Err e => Err e
  | Ok _ =>
  match tapCiphertextSize taps with
  | None => Err (Internal "Failed to measure ciphertext size!")
  | Some ciphertextSize =>
  match tapMac taps with
  | None => Err (Internal "Failed to compute mac!")
  | Some _ =>
      let matches :=
        match EncryptProps.dangerousIv props with
        | Some (IvReencryptingForBackup _ digestToMatch) =>
            constantTimeEqual ourDigest digestToMatch
        | _ => true
        end in
      if negb matches then Err ReencryptedDigestMismatch
      else Ok {| EncryptedAttachmentV2.digest := ourDigest;
                 EncryptedAttachmentV2.iv := iv;
                 EncryptedAttachmentV2.plaintextHash := ourPlaintextHash;
                 EncryptedAttachmentV2.ciphertextSize := ciphertextSize |}
  end end end end.

(** The [missingCaseError] branch on [dangerousIv.reason] has no counterpart:
    [HardcodedIVForEncryptionType] has the two reasons only. *)
Definition encryptAttachmentV2 (props : EncryptProps.t) (sink : option Writable)
    (w : World) : Run EncryptedAttachmentV2.t :=
  let logId := "encryptAttachmentV2"%string in
  match encryptPrologue logId props w with
  | (Err e, w0) => rejected e w0
  | (Ok (ks, iv), w0) =>
      let failed error w' :=
        log_error (logId +:+ ": Failed to encrypt attachment") error w' in
      let source := plaintextSource (EncryptProps.plaintext props) w0 in
      match createCipheriv (aesKey ks) iv with
      | Err error => rejected error (failed error w0)
      | Ok cipher =>
      match prependIv iv with
      | Err error => rejected error (failed error w0)
      | Ok prepend =>
          let run :=
            pipeline source
              (encryptChain cipher prepend (macKey ks)
                 (EncryptProps.dangerousTestOnlySkipPadding props))
              sink w0 in
          match outcome run with
          | Pending =>
              {| outcome := Pending; sinkView := sinkView run; after := after run |}
          | Rejected error =>
              {| outcome := Rejected error; sinkView := sinkView run;
                 after := failed error (after run) |}
          | Resolved taps =>
              {| outcome :=
                   match encryptEpilogue logId props iv taps with
                   | Ok r => Resolved r
                   | Err e => Rejected e
                   end;
                 sinkView := sinkView run; after := after run |}
          end
      end end
  end.

Definition encryptAttachmentV2ToDisk (args : EncryptProps.t) (w : World)
  : Run (EncryptedAttachmentV2.t * string) :=
  (* Create random output file *)
  let relativeTargetPath := freshRelativePath w in
  let absoluteTargetPath :=
    EncryptProps.getAbsoluteAttachmentPath args relativeTargetPath in
  match ensureFile absoluteTargetPath w with
  | (Err e, w1) => rejected e w1
  | (Ok _, w1) =>
      let run := encryptAttachmentV2 args (Some (FileSink absoluteTargetPath)) w1 in
      match outcome run with
      | Rejected error =>
          match safeUnlinkSync absoluteTargetPath (after run) with
          | (Err unlinkError, w2) => rejected unlinkError w2
          | (Ok _, w2) => rejected error w2
          end
      | Pending => {| outcome := Pending; sinkView := untouched; after := after run |}
      | Resolved encryptResult =>
          {| outcome := Resolved (encryptResult, relativeTargetPath);
             sinkView := untouched; after := after run |}
      end
  end.

(** ** Decryptor *)

(** The callback given to [finalStream]: it runs once the upstream has
    drained, with what the closures hold by then.  The [default] branch of
    the switch on [type] has no counterpart: [IntegrityType] has the three
    modes only. *)
Definition finalizer (logId : string) (options : DecryptOptions.t)
    (hmac : Hmac) (digest : Hash) (theirMac : option Bytes)
    (outerHmac : option Hmac) (theirOuterMac : option Bytes) : M unit :=
  let ourMac := Hmac_digest hmac in
  let ourDigest := Hash_digest digest in
  liftResult (strictAssert (length ourMac =? ATTACHMENT_MAC_LENGTH)
                           (Internal "Failed to generate ourMac!")) ;;;
  theirMac' <- match theirMac with
               | Some m =>
                   if length m =? ATTACHMENT_MAC_LENGTH then ret m
                   else throw (Internal "Failed to find theirMac!")
               | None => throw (Internal "Failed to find theirMac!")
               end ;;
  liftResult (strictAssert (length ourDigest =? DIGEST_LENGTH)
                           (Internal "Failed to generate ourDigest!")) ;;;
  (if negb (constantTimeEqual ourMac theirMac') then throw BadMac else ret tt) ;;;
  match DecryptOptions.integrity options with
  | TypeLocal | TypeBackupThumbnail =>
      modify (log_info (logId +:+ ": skipping digest check since this is a "
                        +:+ IntegrityType_name (DecryptOptions.integrity options)
                        +:+ " attachment"))
  | TypeStandard theirDigest =>
      if negb (constantTimeEqual ourDigest theirDigest) then throw BadDigest
      else ret tt
  end ;;;
  match DecryptOptions.outerEncryption options with
  | None => ret tt
  | Some _ =>
      outerHmac' <- match outerHmac with
                    | Some h => ret h
                    | None => throw (Internal "outerHmac must exist")
                    end ;;
      let ourOuterMac := Hmac_digest outerHmac' in
      liftResult (strictAssert (length ourOuterMac =? ATTACHMENT_MAC_LENGTH)
                               (Internal "Failed to generate ourOuterMac!")) ;;;
      theirOuterMac' <- match theirOuterMac with
                        | Some m =>
                            if length m =? ATTACHMENT_MAC_LENGTH then ret m
                            else throw (Internal "Failed to find theirOuterMac!")
                        | None => throw (Internal "Failed to find theirOuterMac!")
                        end ;;
      if negb (constantTimeEqual ourOuterMac theirOuterMac')
      then throw BadOuterMac else ret tt
  end.

(** What the stages before the finalizer hold when the stream has ended. *)
Record DecryptStages := {
  stDigest : Hash;
  stHmac : Hmac;
  stTheirMac : option Bytes;
  stOuterHmac : option Hmac;
  stTheirOuterMac : option Bytes;
  stIv : option Bytes;
  stPlaintextHash : Hash;
  stOut : Stream
}.

Definition decryptStages (options : DecryptOptions.t) (ks : AttachmentEncryptionKeysType)
    (source : Stream) : Result DecryptStages :=
  let outerEncryption := DecryptOptions.outerEncryption options in
  let outerHmac := option_map (fun o => createHmac (macKey o)) outerEncryption in
  match
    match outerHmac with
    | Some h =>
        match getMacAndUpdateHmac h source with
        | Ok (h', theirOuterMac, s) => Ok (Some h', theirOuterMac, s)
        | Err e => Err e
        end
    | None => Ok (None, None, source)
    end
  with
  | Err e => Err e
  | Ok (outerHmac', theirOuterMac, s1) =>
  match
    match outerEncryption with
    | Some o =>
        match getIvAndDecipher (aesKey o) s1 with
        | Ok (_, s) => Ok s
        | Err e => Err e
        end
    | None => Ok s1
    end
  with
  | Err e => Err e
  | Ok s2 =>
  let '(digest, s3) := peekAndUpdateHash createHash s2 in
  match getMacAndUpdateHmac (createHmac (macKey ks)) s3 with
  | Err e => Err e
  | Ok (hmac, theirMac, s4) =>
  match getIvAndDecipher (aesKey ks) s4 with
  | Err e => Err e
  | Ok (iv, s5) =>
  let s6 := trimPadding (DecryptOptions.size options) s5 in
  let '(plaintextHash, s7) := peekAndUpdateHash createHash s6 in
  Ok {| stDigest := digest; stHmac := hmac; stTheirMac := theirMac;
        stOuterHmac := outerHmac'; stTheirOuterMac := theirOuterMac;
        stIv := iv; stPlaintextHash := plaintextHash; stOut := s7 |}
  end end end end.

(** What has reached the sink by the time a stage before the finalizer
    fails.  The stages after the failing one have passed on what they were
    given, without the flush that the end of the stream brings: a frame too
    short for its MAC or its IV, or a decipher that cannot be created, leaves
    the sink with nothing; a decipher whose [final] throws has by then
    emitted the blocks of its [update], of which [trimPadding] lets the
    first [size] bytes through. *)
Definition decryptPassed (options : DecryptOptions.t)
    (ks : AttachmentEncryptionKeysType) (source : Stream) : Stream :=
  let s2 :=
    match DecryptOptions.outerEncryption options with
    | Some o =>
        match getMacAndUpdateHmac (createHmac (macKey o)) source with
        | Err _ => []
        | Ok (_, _, s1) =>
            match getIvAndDecipher (aesKey o) s1 with
            | Ok (_, s) => s
            | Err _ => getIvAndDecipherPassed (aesKey o) s1
            end
        end
    | None => source
    end in
  trimPadding (DecryptOptions.size options)
    (getIvAndDecipherPassed (aesKey ks) (getMacAndUpdateHmacPassed s2)).

(** The stages and the finalizer as the chain of the pipeline: what reaches
    the sink, and the taps or the error of the first stage that fails. *)
Definition decryptChain (logId : string) (options : DecryptOptions.t)
    (ks : AttachmentEncryptionKeysType) (source : Stream) (w : World)
  : Stream * Result DecryptTaps * World :=
  match decryptStages options ks source with
  | Err e => (decryptPassed options ks source, Err e, w)
  | Ok st =>
      match finalizer logId options (stHmac st) (stDigest st) (stTheirMac st)
                      (stOuterHmac st) (stTheirOuterMac st) w with
      | (Err e, w') => (stOut st, Err e, w')
      | (Ok _, w') =>
          (stOut st,
           Ok {| seenIv := stIv st; seenPlaintextHash := stPlaintextHash st |},
           w')
      end
  end.

Definition decryptLogId (options : DecryptOptions.t) : string :=
  "decryptAttachmentV2(" +:+ DecryptOptions.idForLogging options +:+ ")".

Definition decryptKeys (options : DecryptOptions.t)
  : Result AttachmentEncryptionKeysType :=
  match DecryptOptions.keyMaterial options with
  | KeysDirect aesKey_ macKey_ => Ok {| aesKey := aesKey_; macKey := macKey_ |}
  | KeysBase64 keysBase64 => splitKeys (fromBase64 keysBase64)
  end.

Definition Error_cause (e : Error) : string :=
  match Error_code e with
  | Some code => code
  | None => Error_name e
  end.

(** What follows the pipeline of the decryptor: the two guards. *)
Definition decryptEpilogue (taps : DecryptTaps) : Result DecryptedAttachmentV2.t :=
  let ourPlaintextHash := Hash_digest_hex (seenPlaintextHash taps) in
  match strictAssert (String.length ourPlaintextHash =? HEX_DIGEST_LENGTH)
                     (Internal "Failed to generate file hash!") with
  | Err e => Err e
  | Ok _ =>
      match seenIv taps with
      | Some iv =>
          if length iv =? IV_LENGTH
          then Ok {| DecryptedAttachmentV2.path := None;
                     DecryptedAttachmentV2.iv := iv;
                     DecryptedAttachmentV2.plaintextHash := ourPlaintextHash |}
          else Err (Internal "failed to find their iv")
      | None => Err (Internal "failed to find their iv")
      end
  end.

(** The pipeline of the decryptor, from the opened ciphertext to the sink. *)
Definition decryptPipeline (options : DecryptOptions.t)
    (ks : AttachmentEncryptionKeysType) (sink : Writable) (content : Bytes)
    (w : World) : Run DecryptTaps :=
  let source :=
    {| chunks := readChunks content;
       ending := match streamFault w !! DecryptOptions.ciphertextPath options with
                 | Some e => Fails e
                 | None => Ends
                 end |} in
  pipeline source (decryptChain (decryptLogId options) options ks) (Some sink) w.

Definition decryptAttachmentV2ToSink (options : DecryptOptions.t) (sink : Writable)
    (w : World) : Run DecryptedAttachmentV2.t :=
  let ciphertextPath := DecryptOptions.ciphertextPath options in
  match decryptKeys options with
  | Err e => rejected e w
  | Ok ks =>
      let logId := decryptLogId options in
      let failed error w' :=
        (* These errors happen when canceling fetch from `attachment://` urls,
           ignore them to avoid noise in the logs. *)
        if isAbortError error then w'
        else log_error (logId +:+ ": Failed to decrypt attachment") error w' in
      match openRead ciphertextPath w with
      | (Err cause, w0) =>
          let error := ReadPathMissing (Error_cause cause) in
          rejected error (failed error w0)
      | (Ok content, w0) =>
          let run := decryptPipeline options ks sink content w0 in
          match outcome run with
          | Pending =>
              {| outcome := Pending; sinkView := sinkView run; after := after run |}
          | Rejected error =>
              {| outcome := Rejected error; sinkView := sinkView run;
                 after := close (failed error (after run)) |}
          | Resolved taps =>
              {| outcome :=
                   match decryptEpilogue taps with
                   | Ok r => Resolved r
                   | Err e => Rejected e
                   end;
                 sinkView := sinkView run; after := close (after run) |}
          end
      end
  end.

(** The inner try of the two file-producing decryptors. *)
Definition createWritePath (absoluteTargetPath : string) : M unit :=
  tryCatch (ensureFile absoluteTargetPath ;;; openWrite absoluteTargetPath)
           (fun cause => throw (WritePathFailed (Error_cause cause))).

(** Their catch block: log, unlink, rethrow; [opened] says whether the
    finally block has a handle to close. *)
Definition cleanUp {A : Type} (message : string) (absoluteTargetPath : string)
    (opened : bool) (error : Error) (w : World) : Run A :=
  let w1 := log_error message error w in
  let finally w' := if opened then close w' else w' in
  match safeUnlinkSync absoluteTargetPath w1 with
  | (Err unlinkError, w2) => rejected unlinkError (finally w2)
  | (Ok _, w2) => rejected error (finally w2)
  end.

Definition decryptAttachmentV2 (options : DecryptOptions.t) (w : World)
  : Run DecryptedAttachmentV2.t :=
  let logId := decryptLogId options in
  let message := logId +:+ ": Failed to decrypt attachment to disk" in
  (* Create random output file *)
  let relativeTargetPath := freshRelativePath w in
  let absoluteTargetPath :=
    DecryptOptions.getAbsoluteAttachmentPath options relativeTargetPath in
  match createWritePath absoluteTargetPath w with
  | (Err error, w1) => cleanUp message absoluteTargetPath false error w1
  | (Ok _, w1) =>
      let run := decryptAttachmentV2ToSink options (FileSink absoluteTargetPath) w1 in
      match outcome run with
      | Pending => {| outcome := Pending; sinkView := untouched; after := after run |}
      | Rejected error => cleanUp message absoluteTargetPath true error (after run)
      | Resolved result =>
          {| outcome :=
               Resolved
                 {| DecryptedAttachmentV2.path := Some relativeTargetPath;
                    DecryptedAttachmentV2.iv := DecryptedAttachmentV2.iv result;
                    DecryptedAttachmentV2.plaintextHash :=
                      DecryptedAttachmentV2.plaintextHash result |};
             sinkView := untouched; after := close (after run) |}
      end
  end.

(** ** Re-encryptor *)

(** The decryptor writes into a [PassThrough] that is the encryptor's source.
    The encryptor is awaited first, then the decryptor. *)
Definition reencryptPipelines (options : DecryptOptions.t)
    (absoluteTargetPath : string) (keys : Bytes) (w : World)
  : Run DecryptedAttachmentV2.t * Run EncryptedAttachmentV2.t :=
  let decrypting := decryptAttachmentV2ToSink options (MemorySink None) w in
  let passthrough := sinkView decrypting in
  let encrypting :=
    encryptAttachmentV2
      {| EncryptProps.plaintext := PlainStream passthrough;
         EncryptProps.keys := keys;
         EncryptProps.dangerousIv := None;
         EncryptProps.dangerousTestOnlySkipPadding := false;
         EncryptProps.getAbsoluteAttachmentPath :=
           DecryptOptions.getAbsoluteAttachmentPath options |}
      (Some (FileSink absoluteTargetPath)) (after decrypting) in
  (decrypting, encrypting).

(** What awaiting the two gives: the encryptor's promise comes first. *)
Definition awaitBoth (decrypting : Run DecryptedAttachmentV2.t)
    (encrypting : Run EncryptedAttachmentV2.t) : Promise DecryptedAttachmentV2.t :=
  match outcome encrypting, outcome decrypting with
  | Pending, _ | Resolved _, Pending => Pending
  | Rejected error, _ | Resolved _, Rejected error => Rejected error
  | Resolved _, Resolved result => Resolved result
  end.

Definition decryptAndReencryptLocally (options : DecryptOptions.t) (w : World)
  : Run ReencryptedAttachmentV2.t :=
  let logId :=
    "reencryptAttachmentV2(" +:+ DecryptOptions.idForLogging options +:+ ")" in
  let message := logId +:+ ": Failed to decrypt attachment" in
  (* Create random output file *)
  let relativeTargetPath := freshRelativePath w in
  let absoluteTargetPath :=
    DecryptOptions.getAbsoluteAttachmentPath options relativeTargetPath in
  match createWritePath absoluteTargetPath w with
  | (Err error, w1) => cleanUp message absoluteTargetPath false error w1
  | (Ok _, w1) =>
      match generateKeys w1 with
      | (Err error, w2) => cleanUp message absoluteTargetPath true error w2
      | (Ok keys, w2) =>
          let '(decrypting, encrypting) :=
            reencryptPipelines options absoluteTargetPath keys w2 in
          match awaitBoth decrypting encrypting with
          | Pending =>
              {| outcome := Pending; sinkView := untouched;
                 after := after encrypting |}
          | Rejected error =>
              cleanUp message absoluteTargetPath true error (after encrypting)
          | Resolved result =>
              {| outcome :=
                   Resolved
                     {| ReencryptedAttachmentV2.path := relativeTargetPath;
                        ReencryptedAttachmentV2.iv :=
                          toBase64 (DecryptedAttachmentV2.iv result);
                        ReencryptedAttachmentV2.plaintextHash :=
                          DecryptedAttachmentV2.plaintextHash result;
                        ReencryptedAttachmentV2.localKey := toBase64 keys;
                        ReencryptedAttachmentV2.version := 2 |};
                 sinkView := untouched; after := close (after encrypting) |}
          end
      end
  end.

(** ** Lengths and the standalone hash *)

Definition getAttachmentCiphertextLength (plaintextLength : nat) : nat :=
  let paddedPlaintextSize := logPadSize plaintextLength in
  IV_LENGTH + getAesCbcCiphertextLength paddedPlaintextSize + ATTACHMENT_MAC_LENGTH.

Definition getPlaintextHashForInMemoryAttachment (data : Bytes) : string :=
  Hash_digest_hex (Hash_update createHash data).

(** ** The vocabulary of the statements *)

(** The frame of the data model: the IV, the AES-256-CBC ciphertext of the
    padded plaintext, and the HMAC of both. *)
Definition frameBody (ks : AttachmentEncryptionKeysType) (iv padded : Bytes) : Bytes :=
  iv ++ cbcEncrypt (length (pkcs7Pad padded)) (aesKey ks) iv (pkcs7Pad padded).

Definition attachmentFrame (ks : AttachmentEncryptionKeysType) (iv padded : Bytes)
  : Bytes :=
  frameBody ks iv padded ++ hmacSha256 (macKey ks) (frameBody ks iv padded).

(** What the cipher is given: the plaintext, zero-padded unless padding is
    skipped. *)
Definition paddedPlaintext (skipPadding : bool) (P : Bytes) : Bytes :=
  if skipPadding then P else P ++ repeat 0%Z (logPadSize (length P) - length P).

Definition halves (keys : Bytes) : AttachmentEncryptionKeysType :=
  {| aesKey := firstn 32 keys; macKey := skipn 32 keys |}.

(** The IV the encryptor uses, and the world once the options are checked. *)
Definition chosenIv (props : EncryptProps.t) (w : World) : Bytes :=
  match EncryptProps.dangerousIv props with
  | Some d => HardcodedIV_iv d
  | None => map (entropy w) (seq 0 IV_LENGTH)
  end.

Definition checkedWorld (props : EncryptProps.t) (w : World) : World :=
  match EncryptProps.dangerousIv props with
  | Some (IvTest _) => w
  | Some (IvReencryptingForBackup _ _) =>
      log_info ("encryptAttachmentV2"
                +:+ ": using hardcoded iv because we are re-encrypting for backup") w
  | None => setEntropy (fun i => entropy w (IV_LENGTH + i)) w
  end.

(** The options pass the checks that come before the pipeline. *)
Definition optionsAccepted (props : EncryptProps.t) (w : World) : Prop :=
  length (EncryptProps.keys props) = 64
  /\ match EncryptProps.dangerousIv props with
     | Some (IvTest _) => environment w = Test
     | Some (IvReencryptingForBackup _ digestToMatch) => length digestToMatch = 32
     | None => True
     end
  /\ (EncryptProps.dangerousTestOnlySkipPadding props = true -> environment w = Test).

Definition cipherStage (key iv : Bytes) (s : Stream) : Stream :=
  let p := pkcs7Pad (flat s) in [cbcEncrypt (length p) key iv p].

(** The taps of the encryptor, in terms of the frame. *)
Definition encryptTapsOf (ks : AttachmentEncryptionKeysType) (iv : Bytes)
    (skipPadding : bool) (P : Bytes) : EncryptTaps :=
  let padded := paddedPlaintext skipPadding P in
  {| tapPlaintextHash := {| hashed := P |};
     tapDigest := {| hashed := attachmentFrame ks iv padded |};
     tapCiphertextSize := Some (length (attachmentFrame ks iv padded));
     tapMac := Some (hmacSha256 (macKey ks) (frameBody ks iv padded)) |}.

Definition frameChunks (ks : AttachmentEncryptionKeysType) (iv padded : Bytes) : Stream :=
  [frameBody ks iv padded; hmacSha256 (macKey ks) (frameBody ks iv padded)].

(** The result of the encryptor on a run whose pipeline completes. *)
Definition encryptedOf (ks : AttachmentEncryptionKeysType) (iv : Bytes)
    (skipPadding : bool) (P : Bytes) : EncryptedAttachmentV2.t :=
  let frame := attachmentFrame ks iv (paddedPlaintext skipPadding P) in
  {| EncryptedAttachmentV2.digest := Sha256.sha256 frame;
     EncryptedAttachmentV2.iv := iv;
     EncryptedAttachmentV2.plaintextHash := sha256hex P;
     EncryptedAttachmentV2.ciphertextSize := length frame |}.

Definition digestMatches (props : EncryptProps.t) (ourDigest : Bytes) : bool :=
  match EncryptProps.dangerousIv props with
  | Some (IvReencryptingForBackup _ digestToMatch) =>
      constantTimeEqual ourDigest digestToMatch
  | _ => true
  end.

(** No digest to match: the IV is fresh or forced for a test. *)
Definition noDigestToMatch (props : EncryptProps.t) : Prop :=
  match EncryptProps.dangerousIv props with
  | Some (IvReencryptingForBackup _ _) => False
  | _ => True
  end.

(** The encryptor is in order to run: its options are accepted, the IV has
    the cipher's length, the plaintext source ends and the sink takes what it
    is given. *)
Definition encryptReady (props : EncryptProps.t) (sink : option Writable) (w : World)
  : Prop :=
  optionsAccepted props w
  /\ length (chosenIv props w) = 16
  /\ ending (plaintextSource (EncryptProps.plaintext props) (checkedWorld props w)) = Ends
  /\ fst (openSink sink (checkedWorld props w)) = None.

(** The bytes the plaintext source delivers. *)
Definition plaintextBytes (props : EncryptProps.t) (w : World) : Bytes :=
  flat (chunks (plaintextSource (EncryptProps.plaintext props) (checkedWorld props w))).

Definition emptyPlaintextProps (skipPadding : bool) (resolve : string -> string)
  : EncryptProps.t :=
  {| EncryptProps.plaintext := PlainData [];
     EncryptProps.keys := repeat 0%Z 64;
     EncryptProps.dangerousIv := Some (IvTest (repeat 0%Z 16));
     EncryptProps.dangerousTestOnlySkipPadding := skipPadding;
     EncryptProps.getAbsoluteAttachmentPath := resolve |}.

Definition usesTestOnlyFeature (props : EncryptProps.t) : Prop :=
  (exists iv, EncryptProps.dangerousIv props = Some (IvTest iv))
  \/ EncryptProps.dangerousTestOnlySkipPadding props = true.

(** A digest to match, when there is one, has the length of a digest. *)
Definition digestToMatchValid (props : EncryptProps.t) : Prop :=
  match EncryptProps.dangerousIv props with
  | Some (IvReencryptingForBackup _ digestToMatch) => length digestToMatch = 32
  | _ => True
  end.

(** Nothing of the pipeline happened between [w] and [w']: no file changed,
    no IV was drawn and no error was logged. *)
Definition pipelineNotRun (w w' : World) : Prop :=
  files w' = files w /\ entropy w' = entropy w
  /\ forall message e, ~ In (LogError message e) (skipn (length (logged w)) (logged w')).

(** The digest check lets the stream through: it matches in the standard
    mode, and is not made in the other two. *)
Definition digestPasses (options : DecryptOptions.t) (digest : Hash) : Prop :=
  match DecryptOptions.integrity options with
  | TypeStandard theirDigest => Hash_digest digest = theirDigest
  | _ => True
  end.


(** The checks the finalizer makes, in their order. *)
Definition outerMacCheck (options : DecryptOptions.t) (outerHmac : option Hmac)
    (theirOuterMac : option Bytes) : Result unit :=
  match DecryptOptions.outerEncryption options with
  | None => Ok tt
  | Some _ =>
      match outerHmac with
      | None => Err (Internal "outerHmac must exist")
      | Some h =>
          match theirOuterMac with
          | Some m =>
              if length m =? 32 then
                if negb (constantTimeEqual (Hmac_digest h) m)
                then Err BadOuterMac else Ok tt
              else Err (Internal "Failed to find theirOuterMac!")
          | None => Err (Internal "Failed to find theirOuterMac!")
          end
      end
  end.

Definition decipherOf (key iv : Bytes) (c : Bytes) : Result Bytes :=
  if negb (length c mod AES_BLOCK =? 0)
  then Err (CryptoError "wrong final block length")
  else
    let p := cbcDecrypt (length c) key iv c in
    if autoPadding then
      match pkcs7Unpad p with
      | Some plain => Ok plain
      | None => Err (CryptoError "bad decrypt")
      end
    else Ok p.

(** What the decipher yields for the ciphertext of a padded plaintext. *)
Definition deciphered (padded : Bytes) : Bytes :=
  if autoPadding then padded else pkcs7Pad padded.

(** The decryptor is given the key the encryptor had. *)
Definition sameKeys (keys_ : Bytes) (options : DecryptOptions.t) : Prop :=
  match DecryptOptions.keyMaterial options with
  | KeysDirect aesKey_ macKey_ =>
      aesKey_ = firstn 32 keys_ /\ macKey_ = skipn 32 keys_
  | KeysBase64 keysBase64 => fromBase64 keysBase64 = keys_
  end.

(** The digest the decryptor is told to expect, if any, is the encryptor's. *)
Definition expectsDigest (digest_ : Bytes) (options : DecryptOptions.t) : Prop :=
  match DecryptOptions.integrity options with
  | TypeStandard theirDigest => theirDigest = digest_
  | _ => True
  end.

Definition newEntries (w w' : World) : list LogEntry :=
  skipn (length (logged w)) (logged w').

Definition isErrorEntry (entry : LogEntry) : bool :=
  match entry with
  | LogError _ _ => true
  | LogInfo _ => false
  end.

(** The entries at error level logged between [w] and [w']. *)
Definition errorsLogged (w w' : World) : list LogEntry :=
  List.filter isErrorEntry (newEntries w w').

(** Between [w] and [w'] the log grew, and by no entry at error level. *)
Definition quietly (w w' : World) : Prop :=
  exists more, logged w' = logged w ++ more
               /\ Forall (fun entry => isErrorEntry entry = false) more.

(** A synchronous computation that logs nothing at error level. *)
Definition quietM {A : Type} (m : M A) : Prop := forall w, quietly w (snd (m w)).

(** Between [w] and [w'] the log only grew. *)
Definition grows (w w' : World) : Prop := exists more, logged w' = logged w ++ more.

Definition decryptFailedMessage (options : DecryptOptions.t) : string :=
  decryptLogId options +:+ ": Failed to decrypt attachment".

Definition decryptToDiskFailedMessage (options : DecryptOptions.t) : string :=
  decryptLogId options +:+ ": Failed to decrypt attachment to disk".

(** The catch block did its work at [path], given the world [before] it ran
    in: where the unlink fails for another reason than a missing file, its
    error is logged and thrown in place of the original one, and what is at
    [path] stays, the file still there if there was one; otherwise, the file
    unlinked or never there, the original error is rethrown and no file is
    left at [path]. *)
Definition cleanedUp (path : string) (original : Error) (before : World)
    (e : Error) (w' : World) : Prop :=
  match unlinkFault before !! path with
  | Some errno =>
      e = SystemError (UnlinkErrno_code errno)
      /\ UnlinkErrno_code errno <> "ENOENT"%string
      /\ files w' !! path = files before !! path
      /\ In (LogError "Failed to unlink" e) (logged w')
  | None => e = original /\ files w' !! path = None
  end.

(** The pipeline the encryptor runs once its options are accepted. *)
Definition encryptPipeline (props : EncryptProps.t) (sink : option Writable)
    (w : World) : Run EncryptTaps :=
  let ks := halves (EncryptProps.keys props) in
  let iv := chosenIv props w in
  pipeline (plaintextSource (EncryptProps.plaintext props) (checkedWorld props w))
    (encryptChain (cipherStage (aesKey ks) iv) (prependStream iv) (macKey ks)
       (EncryptProps.dangerousTestOnlySkipPadding props))
    sink (checkedWorld props w).


(** The error the re-encryptor gets from awaiting its two pipelines. *)
Definition reencryptError (options : DecryptOptions.t) (absoluteTargetPath : string)
    (keys_ : Bytes) (w : World) : option Error :=
  let '(decrypting, encrypting) :=
    reencryptPipelines options absoluteTargetPath keys_ w in
  match awaitBoth decrypting encrypting with
  | Rejected error => Some error
  | _ => None
  end.

(** ** Further vocabulary *)

(** The same call on another plaintext. *)
Definition withPlaintext (plaintext : PlaintextSourceType) (props : EncryptProps.t)
  : EncryptProps.t :=
  {| EncryptProps.plaintext := plaintext;
     EncryptProps.keys := EncryptProps.keys props;
     EncryptProps.dangerousIv := EncryptProps.dangerousIv props;
     EncryptProps.dangerousTestOnlySkipPadding :=
       EncryptProps.dangerousTestOnlySkipPadding props;
     EncryptProps.getAbsoluteAttachmentPath :=
       EncryptProps.getAbsoluteAttachmentPath props |}.

(** A stream that delivers the chunks and ends. *)
Definition endingStream (s : Stream) : Readable := {| chunks := s; ending := Ends |}.

Definition encryptFailedEntry (e : Error) : LogEntry :=
  LogError "encryptAttachmentV2: Failed to encrypt attachment" e.

(** What the decryptor hands to its sink for the frame of a padded
    plaintext: the first [size] bytes of what the decipher yields. *)
Definition delivered (options : DecryptOptions.t) (padded : Bytes) : Bytes :=
  firstn (DecryptOptions.size options) (deciphered padded).

(** The world once the finalizer has let a frame through: a line at info
    level where the digest check is skipped. *)
Definition finalizedWorld (options : DecryptOptions.t) (w : World) : World :=
  match DecryptOptions.integrity options with
  | TypeStandard _ => w
  | _ =>
      log_info (decryptLogId options +:+ ": skipping digest check since this is a "
                +:+ IntegrityType_name (DecryptOptions.integrity options)
                +:+ " attachment") w
  end.

(** The world once the decryptor has returned: the ciphertext was opened,
    the plaintext written to the sink, the handle closed. *)
Definition decryptedWorld (options : DecryptOptions.t) (sink : Writable)
    (plain : Bytes) (w : World) : World :=
  close (writeSink (Some sink) [plain]
           (finalizedWorld options
              (snd (openSink (Some sink) (setOpenFds (S (openFds w)) w))))).

(** The world once the output file is created and opened for writing. *)
Definition writePathWorld (path : string) (w : World) : World :=
  setOpenFds (S (openFds w)) (setFiles (<[path := []]> (files w)) w).

(** What [randomBytes] draws: [n] bytes of the entropy source from
    position [from] on. *)
Definition drawn (w : World) (from n : nat) : Bytes :=
  map (fun i => entropy w (from + i)) (seq 0 n).

(** Between [w] and [w'] as many file handles were closed as were opened. *)
Definition sameFds (w w' : World) : Prop := openFds w' = openFds w.

(** A synchronous computation every run of which relates the world before
    to the world after. *)
Definition stepsM {A : Type} (R : World -> World -> Prop) (m : M A) : Prop :=
  forall w, R w (snd (m w)).

(** Between [w] and [w'] no file changed but, possibly, the one at [target]. *)
Definition othersKept (target : string) (w w' : World) : Prop :=
  forall other, other <> target -> files w' !! other = files w !! other.

(** The sink, if it is a file, is the file at [target]. *)
Definition writesTo (sink : option Writable) (target : string) : Prop :=
  match sink with
  | Some (FileSink path) => path = target
  | _ => True
  end.

End Engine.

(** * writeProfile (ts/services/writeProfile.ts)

    [writeProfile] is all calls into the rest of the application: the server,
    the conversation model, the database, the job queue.  The embedding keeps
    its control flow and records, as a trace, every call it makes; what each
    call returns or throws is taken from outside. *)

Module WriteProfile.

Record ConversationType := {
  id : string;
  firstName : option string;
  familyName : option string;
  aboutText : option string;
  aboutEmoji : option string;
  avatarHash : option string;
  avatarPath : option string
}.

Record AvatarUpdateType := {
  oldAvatar : option Bytes;
  newAvatar : option Bytes
}.

Inductive WriteProfileOptionsType :=
  | KeepAvatar                                        (* { keepAvatar: true } *)
  | WithAvatarUpdate (avatarUpdate : AvatarUpdateType).

(** What the function reads of the conversation model: the arguments of
    [getProfile] and the result of [getAbsoluteProfileAvatarPath] on its
    attributes. *)
Record ConversationModel := {
  serviceId : string;
  e164 : option string;
  profileAvatarPath : option string
}.

(** The request [encryptProfileData] builds; [sameAvatar] is the one field
    read here. *)
Record ProfileRequestDataType := {
  sameAvatar : bool;
  request : Bytes
}.

(** The three shapes of [maybeProfileAvatarUpdate]: [{}], a [profileAvatar]
    with hash and path, and [profileAvatar: undefined]. *)
Inductive ProfileAvatarUpdate :=
  | NoProfileAvatar
  | NewProfileAvatar (hash path : string)
  | UndefinedProfileAvatar.

(** The argument of [model.set]. *)
Record ProfileAttributes := {
  about : option string;
  aboutEmoji_ : option string;
  profileName : option string;
  profileFamilyName : option string;
  profileAvatar : ProfileAvatarUpdate
}.

Inductive Thrown :=
  | ServerNotAvailable       (* 'server is not available!' *)
  | EmptyProfileName         (* 'writeProfile: Cannot set an empty profile name' *)
  | Failure (thrownBy : string).   (* thrown by a function called *)

Inductive Outcome (A : Type) :=
  | Returns (a : A)
  | Throws (e : Thrown).
Arguments Returns {A} a.
Arguments Throws {A} e.

(** The calls the function makes, in the order it makes them. *)
Inductive Call :=
  | GetProfile (serviceId : string) (e164 : option string)
  | ImagePathToBytes (path : string)
  | EncryptProfileData (conversation : ConversationType) (avatarUpdate : AvatarUpdateType)
  | PutProfile (profileData : ProfileRequestDataType)
  | UploadAvatar (avatarRequestHeaders : string) (encryptedAvatarData : Bytes)
  | ComputeHash (data : Bytes)
  | WriteNewAttachmentData (data : Bytes)
  | DeleteAttachmentData (path : string)
  | StoragePut (key : string) (value : option string)
  | ModelSet (attributes : ProfileAttributes)
  | UpdateConversation
  | CaptureChange (reason : string)
  | QueueFetchLocalProfileSync
  | LogWarn (message : string)
  | LogInfo (message : string)
  | LogError (message : string) (error : Thrown).

Definition Trace := list Call.

(** What the function is given from outside.  [rejectedFirst] says which
    error a [Promise.all] rejects with when both of its promises reject. *)
Class Externals := {
  server : bool;
  get : string -> option ConversationModel;
  getProfile : string -> option string -> Outcome unit;
  isWhitespace : string -> bool;
  imagePathToBytes : string -> Outcome Bytes;
  encryptProfileData :
    ConversationType -> AvatarUpdateType -> Outcome (ProfileRequestDataType * option Bytes);
  putProfile : ProfileRequestDataType -> Outcome (option string);
  uploadAvatar : string -> Bytes -> Outcome string;
  computeHash : Bytes -> Outcome string;
  writeNewAttachmentData : Bytes -> Outcome string;
  deleteAttachmentData : string -> Outcome unit;
  storagePut : string -> option string -> Outcome unit;
  queueFetchLocalProfileSync : Outcome unit;
  rejectedFirst : Thrown -> Thrown -> Thrown
}.

(** A computation that makes calls and returns or throws. *)
Definition T (A : Type) : Type := Trace -> Outcome A * Trace.

Definition ret {A} (a : A) : T A := fun t => (Returns a, t).
Definition throw {A} (e : Thrown) : T A := fun t => (Throws e, t).
Definition bind {A B} (m : T A) (k : A -> T B) : T B :=
  fun t => match m t with
           | (Returns a, t') => k a t'
           | (Throws e, t') => (Throws e, t')
           end.
Definition tryCatch {A} (body : T A) (handler : Thrown -> T A) : T A :=
  fun t => match body t with
           | (Returns a, t') => (Returns a, t')
           | (Throws e, t') => handler e t'
           end.

(** A call: it is recorded, and returns or throws what it is given. *)
Definition call {A} (c : Call) (result : Outcome A) : T A :=
  fun t => (result, t ++ [c]).

(** A call that returns: the log, and [model.set], [updateConversation] (not
    awaited) and [captureChange], which are taken not to throw. *)
Definition emit (c : Call) : T unit := call c (Returns tt).

(** [await Promise.all([a, b])]: both are started, in this order, before
    either is awaited. *)
Definition promiseAll {A B} (a : T A) (b : T B) `{Externals} : T (A * B) :=
  fun t =>
    let '(ra, t1) := a t in
    let '(rb, t2) := b t1 in
    (match ra, rb with
     | Returns x, Returns y => Returns (x, y)
     | Throws e, Returns _ | Returns _, Throws e => Throws e
     | Throws e1, Throws e2 => Throws (rejectedFirst e1 e2)
     end, t2).

Declare Scope profile_scope.
Notation "x <- m ;; k" := (bind m (fun x => k))
  (at level 100, m at next level, right associativity) : profile_scope.
Notation "m ;;; k" := (bind m (fun _ => k))
  (at level 100, right associativity) : profile_scope.
#[local] Open Scope profile_scope.

(** [String(value)] of a string that may be undefined. *)
Definition String_ (value : option string) : string :=
  match value with
  | Some s => s
  | None => "undefined"
  end.

(** Whether a string that may be undefined is truthy. *)
Definition truthy (value : option string) : bool :=
  match value with
  | Some s => negb (String.eqb s "")
  | None => false
  end.

Definition strictAssert (condition : bool) (e : Thrown) : T unit :=
  if condition then ret tt else throw e.

Section Model.

Context {externals : Externals}.

(** The branch of [options.keepAvatar]. *)
Definition keptAvatar (model : ConversationModel) : T AvatarUpdateType :=
  avatarBuffer <-
    (match profileAvatarPath model with
     | Some path =>
         if truthy (Some path)
         then tryCatch
                (bytes <- call (ImagePathToBytes path) (imagePathToBytes path) ;;
                 ret (Some bytes))
                (fun _ =>
                   emit (LogWarn "writeProfile: local avatar not found, dropping remote") ;;;
                   ret None)
         else ret None
     | None => ret None
     end) ;;
  ret {| oldAvatar := avatarBuffer; newAvatar := avatarBuffer |}.

(** Upload the avatar if provided, delete existing files on disk if the
    avatar has been removed, update the account's avatar path and hash if
    it's a new avatar. *)
Definition updateAvatar (conversation : ConversationType)
    (avatarUpdate : AvatarUpdateType) (profileData : ProfileRequestDataType)
    (encryptedAvatarData : option Bytes) (avatarRequestHeaders : option string)
  : T ProfileAvatarUpdate :=
  let removal :=
    match avatarPath conversation with
    | Some path =>
        if truthy (Some path) then
          emit (LogInfo "writeProfile: removing avatar") ;;;
          promiseAll (call (DeleteAttachmentData path) (deleteAttachmentData path))
                     (call (StoragePut "avatarUrl" None) (storagePut "avatarUrl" None)) ;;;
          ret UndefinedProfileAvatar
        else ret NoProfileAvatar
    | None => ret NoProfileAvatar
    end in
  if sameAvatar profileData then
    emit (LogInfo "writeProfile: not updating avatar") ;;; ret NoProfileAvatar
  else
    match avatarRequestHeaders, encryptedAvatarData, newAvatar avatarUpdate with
    | Some headers, Some encrypted, Some new =>
        if truthy (Some headers) then
          emit (LogInfo "writeProfile: uploading new avatar") ;;;
          avatarUrl <- call (UploadAvatar headers encrypted) (uploadAvatar headers encrypted) ;;
          hash <- call (ComputeHash new) (computeHash new) ;;
          update <-
            (if negb (bool_decide (Some hash = avatarHash conversation)) then
               emit (LogInfo "writeProfile: removing old avatar and saving the new one") ;;;
               both <- promiseAll
                         (call (WriteNewAttachmentData new) (writeNewAttachmentData new))
                         (match avatarPath conversation with
                          | Some old =>
                              if truthy (Some old)
                              then call (DeleteAttachmentData old) (deleteAttachmentData old)
                              else ret tt
                          | None => ret tt
                          end) ;;
               ret (NewProfileAvatar hash (fst both))
             else ret NoProfileAvatar) ;;
          call (StoragePut "avatarUrl" (Some avatarUrl))
               (storagePut "avatarUrl" (Some avatarUrl)) ;;;
          ret update
        else removal
    | _, _, _ => removal
    end.

Definition writeProfile (conversation : ConversationType)
    (options : WriteProfileOptionsType) : T unit :=
  if negb server then throw ServerNotAvailable
  else
    (* Before we write anything we request the user's profile so that we can
       have an up-to-date paymentAddress to be able to include it when we write *)
    match get (id conversation) with
    | None => ret tt
    | Some model =>
        call (GetProfile (serviceId model) (e164 model))
             (getProfile (serviceId model) (e164 model)) ;;;
        strictAssert (negb (isWhitespace (String_ (firstName conversation))))
                     EmptyProfileName ;;;
        avatarUpdate <-
          (match options with
           | KeepAvatar => keptAvatar model
           | WithAvatarUpdate avatarUpdate => ret avatarUpdate
           end) ;;
        (* Encrypt the profile data, update profile, and if needed upload the avatar *)
        encrypted <- call (EncryptProfileData conversation avatarUpdate)
                          (encryptProfileData conversation avatarUpdate) ;;
        let '(profileData, encryptedAvatarData) := encrypted in
        avatarRequestHeaders <- call (PutProfile profileData) (putProfile profileData) ;;
        maybeProfileAvatarUpdate <-
          updateAvatar conversation avatarUpdate profileData encryptedAvatarData
                       avatarRequestHeaders ;;
        (* Update backbone, update DB, run storage service upload *)
        emit (ModelSet {| about := aboutText conversation;
                          aboutEmoji_ := aboutEmoji conversation;
                          profileName := firstName conversation;
                          profileFamilyName := familyName conversation;
                          profileAvatar := maybeProfileAvatarUpdate |}) ;;;
        emit UpdateConversation ;;;
        emit (CaptureChange "writeProfile") ;;;
        tryCatch (call QueueFetchLocalProfileSync queueFetchLocalProfileSync)
                 (fun error =>
                    emit (LogError "writeProfile: Failed to queue sync message" error))
    end.

(** A call of [writeProfile], from an empty trace. *)
Definition outcomeOf (conversation : ConversationType)
    (options : WriteProfileOptionsType) : Outcome unit :=
  fst (writeProfile conversation options []).

Definition callsOf (conversation : ConversationType)
    (options : WriteProfileOptionsType) : Trace :=
  snd (writeProfile conversation options []).

End Model.

(** The calls that change the model, the database and the job queue. *)
Definition isCommit (c : Call) : bool :=
  match c with
  | ModelSet _ | UpdateConversation | CaptureChange _ | QueueFetchLocalProfileSync => true
  | _ => false
  end.

(** The calls that upload an avatar, or change the avatar files or the
    stored avatar url. *)
Definition isAvatarChange (c : Call) : bool :=
  match c with
  | UploadAvatar _ _ | WriteNewAttachmentData _ | DeleteAttachmentData _
  | StoragePut _ _ => true
  | _ => false
  end.

Definition isPutProfile (c : Call) : bool :=
  match c with
  | PutProfile _ => true
  | _ => false
  end.

Definition isQueue (c : Call) : bool :=
  match c with
  | QueueFetchLocalProfileSync => true
  | _ => false
  end.

(** The avatar update [encryptProfileData] is called with keeps the avatar. *)
Definition keepsAvatar (c : Call) : Prop :=
  match c with
  | EncryptProfileData _ avatarUpdate => oldAvatar avatarUpdate = newAvatar avatarUpdate
  | _ => True
  end.

(** A call that changes the avatar files or the storage changes only what
    belongs to the conversation: it deletes the file of its old avatar, and
    puts the avatar url. *)
Definition withinConversation (conversation : ConversationType) (c : Call) : Prop :=
  match c with
  | DeleteAttachmentData path => avatarPath conversation = Some path
  | StoragePut key _ => key = "avatarUrl"%string
  | _ => True
  end.

(** A [model.set] that leaves [profileAvatar] out. *)
Definition leavesProfileAvatar (c : Call) : Prop :=
  match c with
  | ModelSet attributes => profileAvatar attributes = NoProfileAvatar
  | _ => True
  end.

(** Neither a new avatar file is written, nor a new [profileAvatar] set. *)
Definition savesNoAvatar (c : Call) : Prop :=
  match c with
  | WriteNewAttachmentData _ => False
  | ModelSet attributes =>
      forall hash path, profileAvatar attributes <> NewProfileAvatar hash path
  | _ => True
  end.

(** No avatar is saved to disk before one was uploaded. *)
Fixpoint savedAfterUpload (uploaded : bool) (t : Trace) : bool :=
  match t with
  | [] => true
  | UploadAvatar _ _ :: rest => savedAfterUpload true rest
  | WriteNewAttachmentData _ :: rest => uploaded && savedAfterUpload uploaded rest
  | _ :: rest => savedAfterUpload uploaded rest
  end.

(** The calls made before the first one that changes the model. *)
Fixpoint beforeCommit (t : Trace) : Trace :=
  match t with
  | [] => []
  | c :: rest => if isCommit c then [] else c :: beforeCommit rest
  end.

End WriteProfile.

(** ** Stand-ins for the concrete runs *)

(** A stand-in block cipher: the block xored with the first half of the key. *)
Definition xorCipher (key block : Bytes) : Bytes := xorBytes block (firstn 16 key).

(** A pad target as the spec asks of one ([padTarget n >= n], deterministic):
    it rounds up to a smallest bucket of 541 bytes. *)
Definition bucketPad (n : nat) : nat := Nat.max 541 n.

(** A read stream that delivers a file in one chunk. *)
Definition oneChunk (content : Bytes) : Stream := [content].

(** Stand-ins for the base64 codec: a string to the bytes of its characters,
    bytes to their hexadecimal digits. *)
Definition asciiBytes (s : string) : Bytes := bytesOfString s.
Definition asciiString (b : Bytes) : string := toHex b.

Definition firstName (w : World) : string := "a1".
Definition underOut (relativePath : string) : string := "out/" +:+ relativePath.

#[export] Instance standIns : Externals :=
  {| aesEncryptBlock := xorCipher; aesDecryptBlock := xorCipher;
     logPadSize := bucketPad; autoPadding := true; readChunks := oneChunk;
     fromBase64 := asciiBytes; toBase64 := asciiString;
     freshRelativePath := firstName |}.

Definition quietWorld (env : Environment) : World :=
  {| files := ∅; openFault := ∅; streamFault := ∅; unlinkFault := ∅;
     openFds := 0; environment := env;
     entropy := fun i => Z.of_nat (i mod 256); logged := [] |}.

Definition countingKey : Bytes := map Z.of_nat (seq 0 64).
Definition helloBytes : Bytes := bytesOfString "hello".

Definition helloProps (dangerousIv : option HardcodedIVForEncryptionType)
    (skipPadding : bool) : EncryptProps.t :=
  {| EncryptProps.plaintext := PlainData helloBytes;
     EncryptProps.keys := countingKey;
     EncryptProps.dangerousIv := dangerousIv;
     EncryptProps.dangerousTestOnlySkipPadding := skipPadding;
     EncryptProps.getAbsoluteAttachmentPath := underOut |}.

(** What the encryptor returns for "hello" under the counting key and the
    first sixteen bytes of the entropy source. *)
Definition helloEncrypted : EncryptedAttachmentV2.t :=
  encryptedOf (halves countingKey) (map Z.of_nat (seq 0 16)) false helloBytes.

Definition helloOptions (integrity : IntegrityType) (keyMaterial : KeyMaterial)
  : DecryptOptions.t :=
  {| DecryptOptions.ciphertextPath := "frame.bin";
     DecryptOptions.idForLogging := "a1";
     DecryptOptions.size := 5;
     DecryptOptions.outerEncryption := None;
     DecryptOptions.integrity := integrity;
     DecryptOptions.keyMaterial := keyMaterial;
     DecryptOptions.getAbsoluteAttachmentPath := underOut |}.

Definition tamperedOptions : DecryptOptions.t :=
  helloOptions (TypeStandard (repeat 0%Z 32))
               (KeysDirect (firstn 32 countingKey) (skipn 32 countingKey)).

Definition backupProps (digestToMatch : Bytes) : EncryptProps.t :=
  helloProps (Some (IvReencryptingForBackup (map Z.of_nat (seq 0 16)) digestToMatch))
             false.

Definition failingStream : Readable :=
  {| chunks := []; ending := Fails (SystemError "EIO") |}.

Definition failingProps : EncryptProps.t :=
  {| EncryptProps.plaintext := PlainStream failingStream;
     EncryptProps.keys := countingKey;
     EncryptProps.dangerousIv := None;
     EncryptProps.dangerousTestOnlySkipPadding := false;
     EncryptProps.getAbsoluteAttachmentPath := underOut |}.

(** A world in which the output file cannot be unlinked. *)
Definition stickyWorld : World :=
  {| files := ∅; openFault := ∅; streamFault := ∅;
     unlinkFault := {[ "out/a1"%string := EPERM ]};
     openFds := 0; environment := Production;
     entropy := fun i => Z.of_nat (i mod 256); logged := [] |}.

(** A world whose ciphertext stream is aborted while it is read. *)
Definition abortedWorld : World :=
  {| files := {[ "frame.bin"%string := repeat 0%Z 64 ]}; openFault := ∅;
     streamFault := {[ "frame.bin"%string := AbortError ]};
     unlinkFault := ∅; openFds := 0; environment := Production;
     entropy := fun i => Z.of_nat (i mod 256); logged := [] |}.

Definition localOptions : DecryptOptions.t :=
  helloOptions TypeLocal (KeysDirect (firstn 32 countingKey) (skipn 32 countingKey)).

Definition skipPaddingShortDigestProps : EncryptProps.t :=
  helloProps (Some (IvReencryptingForBackup (repeat 0%Z 16) (repeat 0%Z 31))) true.

(** A world whose ciphertext file is 31 bytes long. *)
Definition truncatedWorld : World :=
  setFiles {[ "frame.bin"%string := repeat 0%Z 31 ]} (quietWorld Production).

(** ** Further stand-ins *)

Definition underPlain (relativePath : string) : string := "plain/" +:+ relativePath.

(** The world once "hello" was encrypted into frame.bin. *)
Definition frameWorld : World :=
  after (encryptAttachmentV2 (helloProps None false) (Some (FileSink "frame.bin"))
           (quietWorld Production)).

(** Options that declare 3 bytes for the 5 of "hello". *)
Definition shortOptions : DecryptOptions.t :=
  {| DecryptOptions.ciphertextPath := "frame.bin";
     DecryptOptions.idForLogging := "a1";
     DecryptOptions.size := 3;
     DecryptOptions.outerEncryption := None;
     DecryptOptions.integrity := TypeLocal;
     DecryptOptions.keyMaterial :=
       KeysDirect (firstn 32 countingKey) (skipn 32 countingKey);
     DecryptOptions.getAbsoluteAttachmentPath := underOut |}.

(** Options to decrypt what [encryptAttachmentV2ToDisk] wrote. *)
Definition diskOptions : DecryptOptions.t :=
  {| DecryptOptions.ciphertextPath := "out/a1";
     DecryptOptions.idForLogging := "a1";
     DecryptOptions.size := 5;
     DecryptOptions.outerEncryption := None;
     DecryptOptions.integrity := TypeLocal;
     DecryptOptions.keyMaterial :=
       KeysDirect (firstn 32 countingKey) (skipn 32 countingKey);
     DecryptOptions.getAbsoluteAttachmentPath := underPlain |}.

Definition outerKeys : AttachmentEncryptionKeysType :=
  {| aesKey := repeat 7%Z 32; macKey := repeat 9%Z 32 |}.

(** The frame of "hello", and the same under an outer layer. *)
Definition helloFrame : Bytes :=
  attachmentFrame (halves countingKey) (map Z.of_nat (seq 0 16))
    (paddedPlaintext false helloBytes).

Definition outerFrame : Bytes :=
  attachmentFrame outerKeys (repeat 1%Z 16) helloFrame.

Definition outerWorld : World :=
  setFiles {[ "outer.bin"%string := outerFrame ]} (quietWorld Production).

Definition outerOptions : DecryptOptions.t :=
  {| DecryptOptions.ciphertextPath := "outer.bin";
     DecryptOptions.idForLogging := "a1";
     DecryptOptions.size := 5;
     DecryptOptions.outerEncryption := Some outerKeys;
     DecryptOptions.integrity := TypeStandard (Sha256.sha256 helloFrame);
     DecryptOptions.keyMaterial :=
       KeysDirect (firstn 32 countingKey) (skipn 32 countingKey);
     DecryptOptions.getAbsoluteAttachmentPath := underOut |}.

(** A world whose frame.bin ends in 32 zero bytes instead of the MAC. *)
Definition badMacWorld : World :=
  setFiles {[ "frame.bin"%string :=
                frameBody (halves countingKey) (map Z.of_nat (seq 0 16))
                  (paddedPlaintext false helloBytes) ++ repeat 0%Z 32 ]}
           (quietWorld Production).

(** The frame of "hello" with the last byte of its ciphertext flipped, and a
    world whose frame.bin is that frame. *)
Definition tamperedFrame : Bytes := alter (fun b => Z.lxor b 1) 559 helloFrame.

Definition tamperedWorld : World :=
  setFiles {[ "frame.bin"%string := tamperedFrame ]} (quietWorld Production).

(** A world whose frame.bin is the frame of "hello" less its last byte. *)
Definition cutWorld : World :=
  setFiles {[ "frame.bin"%string := firstn 591 helloFrame ]} (quietWorld Production).

(** Stand-ins for what [writeProfile] calls: a server that takes the
    profile, an avatar that is the same, a job queue that fails. *)
Definition aliceModel : WriteProfile.ConversationModel :=
  {| WriteProfile.serviceId := "aci-alice";
     WriteProfile.e164 := None;
     WriteProfile.profileAvatarPath := None |}.

#[export] Instance profileStandIns : WriteProfile.Externals :=
  {| WriteProfile.server := true;
     WriteProfile.get := fun _ => Some aliceModel;
     WriteProfile.getProfile := fun _ _ => WriteProfile.Returns tt;
     WriteProfile.isWhitespace := fun s => String.eqb s "";
     WriteProfile.imagePathToBytes :=
       fun _ => WriteProfile.Throws (WriteProfile.Failure "imagePathToBytes");
     WriteProfile.encryptProfileData :=
       fun _ _ =>
         WriteProfile.Returns
           ({| WriteProfile.sameAvatar := true; WriteProfile.request := [] |}, None);
     WriteProfile.putProfile := fun _ => WriteProfile.Returns None;
     WriteProfile.uploadAvatar := fun _ _ => WriteProfile.Returns "url"%string;
     WriteProfile.computeHash := fun _ => WriteProfile.Returns "h"%string;
     WriteProfile.writeNewAttachmentData := fun _ => WriteProfile.Returns "new"%string;
     WriteProfile.deleteAttachmentData := fun _ => WriteProfile.Returns tt;
     WriteProfile.storagePut := fun _ _ => WriteProfile.Returns tt;
     WriteProfile.queueFetchLocalProfileSync :=
       WriteProfile.Throws (WriteProfile.Failure "queue");
     WriteProfile.rejectedFirst := fun first _ => first |}.

(** The same with a server that asks for the avatar: the request says the
    avatar is not the same, and [putProfile] returns the headers of the
    upload. *)
Definition uploadStandIns : WriteProfile.Externals :=
  {| WriteProfile.server := true;
     WriteProfile.get := fun _ => Some aliceModel;
     WriteProfile.getProfile := fun _ _ => WriteProfile.Returns tt;
     WriteProfile.isWhitespace := fun s => String.eqb s "";
     WriteProfile.imagePathToBytes :=
       fun _ => WriteProfile.Throws (WriteProfile.Failure "imagePathToBytes");
     WriteProfile.encryptProfileData :=
       fun _ _ =>
         WriteProfile.Returns
           ({| WriteProfile.sameAvatar := false; WriteProfile.request := [] |},
            Some [1%Z; 2%Z; 3%Z]);
     WriteProfile.putProfile := fun _ => WriteProfile.Returns (Some "headers"%string);
     WriteProfile.uploadAvatar := fun _ _ => WriteProfile.Returns "url"%string;
     WriteProfile.computeHash := fun _ => WriteProfile.Returns "h"%string;
     WriteProfile.writeNewAttachmentData := fun _ => WriteProfile.Returns "new"%string;
     WriteProfile.deleteAttachmentData := fun _ => WriteProfile.Returns tt;
     WriteProfile.storagePut := fun _ _ => WriteProfile.Returns tt;
     WriteProfile.queueFetchLocalProfileSync := WriteProfile.Returns tt;
     WriteProfile.rejectedFirst := fun first _ => first |}.

Definition alice (name : option string) : WriteProfile.ConversationType :=
  {| WriteProfile.id := "alice";
     WriteProfile.firstName := name;
     WriteProfile.familyName := None;
     WriteProfile.aboutText := None;
     WriteProfile.aboutEmoji := None;
     WriteProfile.avatarHash := Some "h"%string;
     WriteProfile.avatarPath := None |}.

(** * Properties *)

(** ** Test vectors of the hash functions *)

Example sha256_empty :
  sha256hex [] = "e3b0c44298fc1c149afbf4c8996fb92427ae41e4649b934ca495991b7852b855"%string.
Proof. vm_compute. reflexivity. Qed.

Example sha256_abc :
  sha256hex (bytesOfString "abc")
  = "ba7816bf8f01cfea414140de5dae2223b00361a396177a9cb410ff61f20015ad"%string.
Proof. vm_compute. reflexivity. Qed.

Example sha256_two_blocks :
  sha256hex (bytesOfString "abcdbcdecdefdefgefghfghighijhijkijkljklmklmnlmnomnopnopq")
  = "248d6a61d20638b8e5c026930c3e6039a33ce45964ff2167f6ecedd419db06c1"%string.
Proof. vm_compute. reflexivity. Qed.

Example hmac_rfc4231_case2 :
  toHex (hmacSha256 (bytesOfString "Jefe")
                    (bytesOfString "what do ya want for nothing?"))
  = "5bdcc146bf60754e6a042426089575c75a003f089d2739839dec58b964ec3843"%string.
Proof. vm_compute. reflexivity. Qed.

Section Correctness.

Context {externals : Externals}.

#[local] Set Default Proof Using "Type".

(** AES-256 maps a 16-byte block to a 16-byte block under a 32-byte key, and
    decryption inverts encryption. *)
Hypothesis aesEncryptBlock_length :
  forall key block, length key = 32 -> length block = 16 ->
    length (aesEncryptBlock key block) = 16.
Hypothesis aesDecryptBlock_encrypt :
  forall key block, length key = 32 -> length block = 16 ->
    aesDecryptBlock key (aesEncryptBlock key block) = block.

(** The pad target never falls short of the length it is given. *)
Hypothesis logPadSize_ge : forall n, n <= logPadSize n.

(** A file read stream delivers the content of the file. *)
Hypothesis readChunks_flat : forall content, flat (readChunks content) = content.

(** ** Lengths of digests *)

Lemma length_be32 x : length (Sha256.be32 x) = 4.
Proof. reflexivity. Qed.

Lemma length_sha256 m : length (Sha256.sha256 m) = 32.
Proof.
  unfold Sha256.sha256, Sha256.output.
  repeat rewrite length_app. repeat rewrite length_be32. reflexivity.
Qed.

Lemma length_hmacSha256 key msg : length (hmacSha256 key msg) = 32.
Proof. unfold hmacSha256. apply length_sha256. Qed.

Opaque Sha256.sha256 hmacSha256.

Lemma length_toHex b : String.length (toHex b) = 2 * length b.
Proof. induction b as [|x b IH]; simpl; [reflexivity | rewrite IH; lia]. Qed.

Lemma length_Hash_digest h : length (Hash_digest h) = DIGEST_LENGTH.
Proof. unfold Hash_digest. apply length_sha256. Qed.

Lemma length_Hmac_digest h : length (Hmac_digest h) = ATTACHMENT_MAC_LENGTH.
Proof. unfold Hmac_digest. apply length_hmacSha256. Qed.

Lemma length_Hash_digest_hex h :
  String.length (Hash_digest_hex h) = HEX_DIGEST_LENGTH.
Proof.
  unfold Hash_digest_hex. rewrite length_toHex, length_Hash_digest. reflexivity.
Qed.

(** ** Taps: hashing and measuring chunk by chunk *)

Lemma fold_Hash_update s h :
  fold_left Hash_update s h = {| hashed := hashed h ++ flat s |}.
Proof.
  revert h. induction s as [|c s IH]; intros h; simpl.
  - rewrite app_nil_r. destruct h; reflexivity.
  - rewrite IH. simpl. rewrite <- app_assoc. reflexivity.
Qed.

Lemma fold_Hmac_update s h :
  fold_left Hmac_update s h
  = {| hmacKey := hmacKey h; hmacked := hmacked h ++ flat s |}.
Proof.
  revert h. induction s as [|c s IH]; intros h; simpl.
  - rewrite app_nil_r. destruct h; reflexivity.
  - rewrite IH. simpl. rewrite <- app_assoc. reflexivity.
Qed.

Lemma peekAndUpdateHash_spec s :
  peekAndUpdateHash createHash s = ({| hashed := flat s |}, s).
Proof. unfold peekAndUpdateHash. rewrite fold_Hash_update. reflexivity. Qed.

Lemma fold_size s n :
  fold_left (fun totalBytes chunk => totalBytes + length chunk) s n
  = n + length (flat s).
Proof.
  revert n. induction s as [|c s IH]; intros n; simpl; [lia|].
  rewrite IH, length_app. lia.
Qed.

Lemma measureSize_spec s : measureSize s = (Some (length (flat s)), s).
Proof. unfold measureSize. rewrite fold_size. reflexivity. Qed.

Lemma flat_app (a b : Stream) : flat (a ++ b) = flat a ++ flat b.
Proof. apply concat_app. Qed.

Lemma flat_trimPadding size s : flat (trimPadding size s) = firstn size (flat s).
Proof.
  revert size. induction s as [|c s IH]; intros size; simpl.
  - rewrite firstn_nil. reflexivity.
  - rewrite IH, firstn_app. reflexivity.
Qed.

(** ** Constant-time comparison decides equality *)

Lemma fold_lor_zero l acc :
  fold_left Z.lor l acc = 0%Z <-> acc = 0%Z /\ Forall (fun x => x = 0%Z) l.
Proof.
  revert acc. induction l as [|x l IH]; intros acc; simpl.
  - split; [intros ->; split; [reflexivity | constructor] | intros [H _]; exact H].
  - rewrite IH, Z.lor_eq_0_iff. split.
    + intros [[Ha Hx] Hl]. split; [exact Ha | constructor; assumption].
    + intros [Ha Hl]. inversion Hl; subst. repeat split; assumption.
Qed.

Lemma zip_xor_zero (a b : Bytes) :
  length a = length b ->
  Forall (fun x => x = 0%Z) (zip_with Z.lxor a b) <-> a = b.
Proof.
  revert b. induction a as [|x a IH]; intros [|y b] Hlen; simpl in *; try discriminate.
  - split; [reflexivity | constructor].
  - injection Hlen as Hlen. split.
    + intros H. inversion H as [|? ? Hxy Hrest]; subst.
      apply Z.lxor_eq in Hxy. apply IH in Hrest; [|exact Hlen]. congruence.
    + intros [= -> ->]. constructor; [apply Z.lxor_nilpotent|].
      apply IH; [exact Hlen | reflexivity].
Qed.

Lemma constantTimeEqual_iff (left right : Bytes) :
  constantTimeEqual left right = true <-> left = right.
Proof.
  unfold constantTimeEqual.
  destruct (length left =? length right) eqn:Hlen; simpl.
  - apply Nat.eqb_eq in Hlen. rewrite Z.eqb_eq, fold_lor_zero.
    rewrite zip_xor_zero by exact Hlen.
    split; [intros [_ H]; exact H | intros H; split; [reflexivity | exact H]].
  - apply Nat.eqb_neq in Hlen. split; [discriminate | intros ->; contradiction].
Qed.

Lemma constantTimeEqual_refl (b : Bytes) : constantTimeEqual b b = true.
Proof. apply constantTimeEqual_iff. reflexivity. Qed.

Lemma constantTimeEqual_neq (left right : Bytes) :
  left <> right -> constantTimeEqual left right = false.
Proof.
  intros H. destruct (constantTimeEqual left right) eqn:E; [|reflexivity].
  apply constantTimeEqual_iff in E. contradiction.
Qed.

(** ** C5: splitKeys *)

(** C5. [splitKeys] throws the key-length error on every input that is not 64
    bytes long; on a 64-byte input it returns the first 32 bytes as the AES
    key and the last 32 as the MAC key, which together give the input back. *)
Theorem splitKeys_halves (k : Bytes) :
  match splitKeys k with
  | Err e => length k <> 64 /\ e = InvalidKeyLength (length k)
  | Ok ks =>
      length k = 64 /\ aesKey ks = firstn 32 k /\ macKey ks = skipn 32 k
      /\ aesKey ks ++ macKey ks = k
  end.
Proof.
  unfold splitKeys, strictAssert, KEY_SET_LENGTH, KEY_LENGTH, MAC_LENGTH.
  simpl Nat.add.
  destruct (length k =? 64) eqn:Hlen.
  - apply Nat.eqb_eq in Hlen. cbn [aesKey macKey].
    assert (H64 : firstn 64 k = k) by (apply firstn_all2; lia).
    rewrite H64. repeat split; try assumption. apply firstn_skipn.
  - apply Nat.eqb_neq in Hlen. split; [assumption | reflexivity].
Qed.

(** ** PKCS#7 and CBC *)

Lemma length_pkcs7Pad p : length (pkcs7Pad p) = getAesCbcCiphertextLength (length p).
Proof.
  unfold pkcs7Pad, getAesCbcCiphertextLength, AES_BLOCK.
  rewrite length_app, repeat_length.
  pose proof (Nat.div_mod_eq (length p) 16) as Hdm.
  pose proof (Nat.mod_upper_bound (length p) 16 ltac:(lia)) as Hlt.
  lia.
Qed.

Lemma pkcs7Pad_blocks p : length (pkcs7Pad p) = 16 * (1 + length p / 16).
Proof. rewrite length_pkcs7Pad. unfold getAesCbcCiphertextLength. lia. Qed.

Lemma pkcs7Unpad_pkcs7Pad p : pkcs7Unpad (pkcs7Pad p) = Some p.
Proof.
  unfold pkcs7Unpad, pkcs7Pad, AES_BLOCK.
  pose proof (Nat.mod_upper_bound (length p) 16 ltac:(lia)) as Hlt.
  set (k := 16 - length p mod 16).
  assert (Hk : 1 <= k <= 16) by (unfold k; lia).
  destruct k as [|k'] eqn:Ek; [lia|].
  assert (Hlast : last (p ++ repeat (Z.of_nat (S k')) (S k')) = Some (Z.of_nat (S k'))).
  { replace (repeat (Z.of_nat (S k')) (S k'))
      with (repeat (Z.of_nat (S k')) k' ++ [Z.of_nat (S k')]).
    - rewrite app_assoc. apply last_snoc.
    - symmetry. apply (repeat_cons k'). }
  rewrite Hlast. rewrite Nat2Z.id.
  rewrite length_app, repeat_length.
  replace (length p + S k' - S k') with (length p) by lia.
  rewrite skipn_app, skipn_all, Nat.sub_diag. simpl skipn at 1. simpl app at 1.
  rewrite firstn_app, firstn_all, Nat.sub_diag, firstn_O, app_nil_r.
  assert (H1 : (1 <=? S k') = true) by (apply Nat.leb_le; lia).
  assert (H2 : (S k' <=? 16) = true) by (apply Nat.leb_le; lia).
  assert (H3 : (S k' <=? length p + S k') = true) by (apply Nat.leb_le; lia).
  rewrite H1, H2, H3. simpl andb.
  rewrite bool_decide_eq_true_2 by reflexivity. reflexivity.
Qed.

Lemma xorBytes_involutive (a b : Bytes) :
  length a = length b -> xorBytes (xorBytes a b) b = a.
Proof.
  unfold xorBytes. revert b.
  induction a as [|x a IH]; intros [|y b] Hlen; simpl in *; try discriminate.
  - reflexivity.
  - injection Hlen as Hlen. rewrite IH by exact Hlen.
    rewrite Z.lxor_assoc, Z.lxor_nilpotent, Z.lxor_0_r. reflexivity.
Qed.

Lemma length_xorBytes (a b : Bytes) :
  length a = length b -> length (xorBytes a b) = length a.
Proof.
  unfold xorBytes. revert b.
  induction a as [|x a IH]; intros [|y b] Hlen; simpl in *; try discriminate.
  - reflexivity.
  - injection Hlen as Hlen. rewrite IH by exact Hlen. reflexivity.
Qed.

Lemma cbcEncrypt_step fuel key prev data :
  data <> [] ->
  cbcEncrypt (S fuel) key prev data
  = aesEncryptBlock key (xorBytes (firstn 16 data) prev)
    ++ cbcEncrypt fuel key (aesEncryptBlock key (xorBytes (firstn 16 data) prev))
         (skipn 16 data).
Proof. destruct data; [contradiction | reflexivity]. Qed.

Lemma cbcDecrypt_step fuel key prev data :
  data <> [] ->
  cbcDecrypt (S fuel) key prev data
  = xorBytes (aesDecryptBlock key (firstn 16 data)) prev
    ++ cbcDecrypt fuel key (firstn 16 data) (skipn 16 data).
Proof. destruct data; [contradiction | reflexivity]. Qed.

Lemma nonempty_of_length (A : Type) (l : list A) n : length l = S n -> l <> [].
Proof. intros H ->. discriminate. Qed.

Lemma length_cbcEncrypt n : forall fuel key prev data,
  length key = 32 -> length prev = 16 -> length data = 16 * n ->
  length data <= fuel ->
  length (cbcEncrypt fuel key prev data) = length data.
Proof using aesEncryptBlock_length.
  induction n as [|n IH]; intros fuel key prev data Hk Hp Hd Hf.
  - destruct data; [|simpl in Hd; lia]. destruct fuel; reflexivity.
  - destruct fuel as [|fuel]; [lia|].
    rewrite cbcEncrypt_step
      by (apply (nonempty_of_length _ _ (16 * n + 15)); lia).
    assert (Hfirst : length (firstn 16 data) = 16) by (rewrite length_firstn; lia).
    assert (Hskip : length (skipn 16 data) = 16 * n) by (rewrite length_skipn; lia).
    set (c := aesEncryptBlock key (xorBytes (firstn 16 data) prev)).
    assert (Hc : length c = 16).
    { apply aesEncryptBlock_length; [exact Hk|].
      rewrite length_xorBytes; lia. }
    rewrite length_app, Hc, IH; try assumption; lia.
Qed.

Lemma cbcDecrypt_cbcEncrypt n : forall fuel fuel' key prev data,
  length key = 32 -> length prev = 16 -> length data = 16 * n ->
  length data <= fuel -> length data <= fuel' ->
  cbcDecrypt fuel' key prev (cbcEncrypt fuel key prev data) = data.
Proof using aesEncryptBlock_length aesDecryptBlock_encrypt.
  induction n as [|n IH]; intros fuel fuel' key prev data Hk Hp Hd Hf Hf'.
  - destruct data; [|simpl in Hd; lia]. destruct fuel, fuel'; reflexivity.
  - destruct fuel as [|fuel]; [lia|]. destruct fuel' as [|fuel']; [lia|].
    rewrite cbcEncrypt_step
      by (apply (nonempty_of_length _ _ (16 * n + 15)); lia).
    assert (Hfirst : length (firstn 16 data) = 16) by (rewrite length_firstn; lia).
    assert (Hskip : length (skipn 16 data) = 16 * n) by (rewrite length_skipn; lia).
    set (c := aesEncryptBlock key (xorBytes (firstn 16 data) prev)).
    assert (Hc : length c = 16).
    { apply aesEncryptBlock_length; [exact Hk|].
      rewrite length_xorBytes; lia. }
    set (rest := cbcEncrypt fuel key c (skipn 16 data)).
    rewrite cbcDecrypt_step
      by (apply (nonempty_of_length _ _ (15 + length rest));
          rewrite length_app; lia).
    assert (Hfc : firstn 16 (c ++ rest) = c).
    { rewrite firstn_app, firstn_all2 by lia.
      replace (16 - length c) with 0 by lia. rewrite firstn_O. apply app_nil_r. }
    assert (Hsc : skipn 16 (c ++ rest) = rest).
    { rewrite skipn_app, skipn_all2 by lia.
      replace (16 - length c) with 0 by lia. reflexivity. }
    rewrite Hfc, Hsc. subst rest.
    rewrite IH by (try assumption; lia).
    subst c.
    rewrite aesDecryptBlock_encrypt; [|exact Hk|rewrite length_xorBytes; lia].
    rewrite xorBytes_involutive by lia.
    apply firstn_skipn.
Qed.

(** ** The encryptor on a run that gets through *)

Lemma splitKeys_ok keys_ :
  length keys_ = 64 -> splitKeys keys_ = Ok (halves keys_).
Proof.
  intros H. unfold splitKeys, strictAssert, halves, KEY_SET_LENGTH, KEY_LENGTH,
    MAC_LENGTH. simpl Nat.add. rewrite H. simpl.
  assert (H64 : firstn 64 keys_ = keys_) by (apply firstn_all2; lia).
  rewrite H64. reflexivity.
Qed.

Lemma Environment_eqb_eq a b : Environment_eqb a b = true <-> a = b.
Proof. destruct a, b; simpl; split; congruence. Qed.

Lemma encryptPrologue_accepted props w :
  optionsAccepted props w ->
  encryptPrologue "encryptAttachmentV2" props w
  = (Ok (halves (EncryptProps.keys props), chosenIv props w), checkedWorld props w).
Proof.
  intros (Hk & Hiv & Hskip).
  unfold encryptPrologue, bind, liftResult, getEnvironmentM, getEnvironment,
    chosenIv, checkedWorld, ret, throw, modify.
  rewrite (splitKeys_ok _ Hk).
  destruct (EncryptProps.dangerousIv props) as [[iv_|iv_ d]|];
    unfold strictAssert, DIGEST_LENGTH, MAC_LENGTH;
    destruct (EncryptProps.dangerousTestOnlySkipPadding props) eqn:Es;
    try rewrite (Hskip eq_refl); try rewrite Hiv; simpl;
    try rewrite (Hskip eq_refl); try rewrite Hiv; reflexivity.
Qed.

Lemma createCipheriv_ok key iv :
  length key = 32 -> length iv = 16 ->
  createCipheriv key iv = Ok (cipherStage key iv).
Proof.
  intros Hk Hi. unfold createCipheriv, KEY_LENGTH, IV_LENGTH.
  rewrite Hk, Hi. reflexivity.
Qed.

Lemma prependIv_ok iv : length iv = 16 -> prependIv iv = Ok (prependStream iv).
Proof. intros Hi. unfold prependIv, strictAssert, IV_LENGTH. rewrite Hi. reflexivity. Qed.

Lemma length_halves keys_ :
  length keys_ = 64 ->
  length (aesKey (halves keys_)) = 32 /\ length (macKey (halves keys_)) = 32.
Proof.
  intros H. unfold halves; simpl. rewrite length_firstn, length_skipn. lia.
Qed.

Lemma flat_padded (skipPadding : bool) (source : Stream) :
  flat (if skipPadding then source else appendPaddingStream source)
  = paddedPlaintext skipPadding (flat source).
Proof.
  unfold paddedPlaintext, appendPaddingStream. destruct skipPadding; [reflexivity|].
  rewrite flat_app. unfold flat at 2. simpl. rewrite app_nil_r. reflexivity.
Qed.

Lemma flat_frameChunks ks iv padded :
  flat (frameChunks ks iv padded) = attachmentFrame ks iv padded.
Proof. unfold frameChunks, attachmentFrame, flat. simpl. rewrite app_nil_r. reflexivity. Qed.

Lemma encryptChain_frame ks iv skipPadding source w :
  encryptChain (cipherStage (aesKey ks) iv) (prependStream iv) (macKey ks)
               skipPadding source w
  = (frameChunks ks iv (paddedPlaintext skipPadding (flat source)),
     Ok (encryptTapsOf ks iv skipPadding (flat source)), w).
Proof.
  unfold encryptChain. rewrite peekAndUpdateHash_spec.
  unfold cipherStage. rewrite flat_padded.
  set (padded := paddedPlaintext skipPadding (flat source)).
  cbn [prependStream]. unfold appendMacStream.
  rewrite fold_Hmac_update. cbn [createHmac hmacKey hmacked app].
  unfold Hmac_digest at 1 2. cbn [hmacKey hmacked].
  change (flat [iv ++ cbcEncrypt (length (pkcs7Pad padded)) (aesKey ks) iv
                         (pkcs7Pad padded)])
    with (frameBody ks iv padded ++ []).
  rewrite app_nil_r.
  change (iv ++ cbcEncrypt (length (pkcs7Pad padded)) (aesKey ks) iv (pkcs7Pad padded))
    with (frameBody ks iv padded).
  change [frameBody ks iv padded; hmacSha256 (macKey ks) (frameBody ks iv padded)]
    with (frameChunks ks iv padded).
  rewrite peekAndUpdateHash_spec, measureSize_spec, flat_frameChunks.
  reflexivity.
Qed.

Lemma length_frameBody ks iv padded :
  length (aesKey ks) = 32 -> length iv = 16 ->
  length (frameBody ks iv padded) = 16 + getAesCbcCiphertextLength (length padded).
Proof using aesEncryptBlock_length.
  intros Hk Hi. unfold frameBody. rewrite length_app, Hi.
  rewrite (length_cbcEncrypt (1 + length padded / 16));
    try assumption; try lia.
  - rewrite length_pkcs7Pad. reflexivity.
  - apply pkcs7Pad_blocks.
Qed.

Lemma length_attachmentFrame ks iv padded :
  length (aesKey ks) = 32 -> length iv = 16 ->
  length (attachmentFrame ks iv padded)
  = 16 + getAesCbcCiphertextLength (length padded) + 32.
Proof using aesEncryptBlock_length.
  intros Hk Hi. unfold attachmentFrame.
  rewrite length_app, length_frameBody, length_hmacSha256 by assumption.
  reflexivity.
Qed.

Lemma encryptEpilogue_taps logId props ks iv P :
  encryptEpilogue logId props iv
    (encryptTapsOf ks iv (EncryptProps.dangerousTestOnlySkipPadding props) P)
  = if digestMatches props
         (Sha256.sha256
            (attachmentFrame ks iv
               (paddedPlaintext (EncryptProps.dangerousTestOnlySkipPadding props) P)))
    then Ok (encryptedOf ks iv (EncryptProps.dangerousTestOnlySkipPadding props) P)
    else Err ReencryptedDigestMismatch.
Proof.
  unfold encryptEpilogue, encryptTapsOf. cbn [tapPlaintextHash tapDigest tapCiphertextSize tapMac].
  rewrite length_Hash_digest_hex, length_Hash_digest, !Nat.eqb_refl.
  unfold strictAssert, digestMatches, Hash_digest_hex, Hash_digest. cbn [hashed].
  destruct (EncryptProps.dangerousIv props) as [[?|? d]|]; try reflexivity.
  destruct (constantTimeEqual _ d); reflexivity.
Qed.

Lemma encryptAttachmentV2_run props sink w :
  let w0 := checkedWorld props w in
  let source := plaintextSource (EncryptProps.plaintext props) w0 in
  let ks := halves (EncryptProps.keys props) in
  let iv := chosenIv props w in
  let skipPadding := EncryptProps.dangerousTestOnlySkipPadding props in
  let P := flat (chunks source) in
  let out := frameChunks ks iv (paddedPlaintext skipPadding P) in
  optionsAccepted props w ->
  length iv = 16 ->
  ending source = Ends ->
  fst (openSink sink w0) = None ->
  encryptAttachmentV2 props sink w
  = {| outcome :=
         if digestMatches props
              (Sha256.sha256 (attachmentFrame ks iv (paddedPlaintext skipPadding P)))
         then Resolved (encryptedOf ks iv skipPadding P)
         else Rejected ReencryptedDigestMismatch;
       sinkView := {| chunks := out; ending := Ends |};
       after := writeSink sink out (snd (openSink sink w0)) |}.
Proof.
  intros w0 source ks iv skipPadding P out Hacc Hiv Hends Hsink.
  unfold encryptAttachmentV2.
  rewrite (encryptPrologue_accepted _ _ Hacc).
  fold w0 ks iv source.
  destruct (length_halves _ (proj1 Hacc)) as [Hak Hmk]. fold ks in Hak, Hmk.
  rewrite (createCipheriv_ok _ _ Hak Hiv), (prependIv_ok _ Hiv).
  unfold pipeline. destruct (openSink sink w0) as [fault w1] eqn:Eopen.
  simpl in Hsink. subst fault. rewrite Hends.
  rewrite encryptChain_frame. fold skipPadding P out.
  cbn [outcome sinkView after snd].
  rewrite encryptEpilogue_taps. fold skipPadding.
  destruct (digestMatches props _); reflexivity.
Qed.

Lemma digestMatches_noDigest props d : noDigestToMatch props -> digestMatches props d = true.
Proof.
  unfold noDigestToMatch, digestMatches.
  destruct (EncryptProps.dangerousIv props) as [[?|? ?]|]; [reflexivity|contradiction|reflexivity].
Qed.

Lemma encrypt_resolved_inv props sink w r :
  encryptReady props sink w ->
  outcome (encryptAttachmentV2 props sink w) = Resolved r ->
  r = encryptedOf (halves (EncryptProps.keys props)) (chosenIv props w)
        (EncryptProps.dangerousTestOnlySkipPadding props) (plaintextBytes props w).
Proof.
  intros (Hacc & Hiv & Hends & Hsink) Hres.
  rewrite (encryptAttachmentV2_run props sink w Hacc Hiv Hends Hsink) in Hres.
  cbn [outcome] in Hres.
  destruct (digestMatches props _); [|discriminate].
  injection Hres as <-. reflexivity.
Qed.

Lemma encrypt_resolves props sink w :
  encryptReady props sink w -> noDigestToMatch props ->
  outcome (encryptAttachmentV2 props sink w)
  = Resolved (encryptedOf (halves (EncryptProps.keys props)) (chosenIv props w)
                (EncryptProps.dangerousTestOnlySkipPadding props)
                (plaintextBytes props w)).
Proof.
  intros (Hacc & Hiv & Hends & Hsink) Hno.
  rewrite (encryptAttachmentV2_run props sink w Hacc Hiv Hends Hsink).
  cbn [outcome]. rewrite digestMatches_noDigest by exact Hno. reflexivity.
Qed.

(** ** C4: the measured size is the computed length *)

Lemma length_paddedPlaintext P :
  length (paddedPlaintext false P) = logPadSize (length P).
Proof using logPadSize_ge.
  unfold paddedPlaintext. rewrite length_app, repeat_length.
  pose proof (logPadSize_ge (length P)). lia.
Qed.

(** C4. With padding in place, the [ciphertextSize] the encryptor returns for
    a plaintext of [n] bytes is [getAttachmentCiphertextLength n], that is
    16 + (p / 16 + 1) * 16 + 32 for the padded length p = logPadSize n, a full
    block more than p when p is a multiple of 16; and the encryptor does
    return when there is no digest to match. *)
Theorem ciphertextSize_getAttachmentCiphertextLength props sink w :
  encryptReady props sink w ->
  EncryptProps.dangerousTestOnlySkipPadding props = false ->
  let n := length (plaintextBytes props w) in
  let p := logPadSize n in
  (forall r, outcome (encryptAttachmentV2 props sink w) = Resolved r ->
             EncryptedAttachmentV2.ciphertextSize r = getAttachmentCiphertextLength n)
  /\ (noDigestToMatch props ->
      exists r, outcome (encryptAttachmentV2 props sink w) = Resolved r)
  /\ getAttachmentCiphertextLength n = 16 + (p / 16 + 1) * 16 + 32
  /\ (p mod 16 = 0 -> getAesCbcCiphertextLength p = p + 16).
Proof using aesEncryptBlock_length logPadSize_ge.
  intros Hready Hskip n p. split; [|split; [|split]].
  - intros r Hres. rewrite (encrypt_resolved_inv _ _ _ _ Hready Hres).
    unfold encryptedOf. cbn [EncryptedAttachmentV2.ciphertextSize].
    destruct Hready as (Hacc & Hiv & _).
    destruct (length_halves _ (proj1 Hacc)) as [Hak _].
    rewrite length_attachmentFrame by assumption.
    rewrite Hskip, length_paddedPlaintext. reflexivity.
  - intros Hno. eexists. apply (encrypt_resolves _ _ _ Hready Hno).
  - unfold getAttachmentCiphertextLength, getAesCbcCiphertextLength,
      IV_LENGTH, ATTACHMENT_MAC_LENGTH, MAC_LENGTH. fold p. lia.
  - intros Hmod. unfold getAesCbcCiphertextLength.
    pose proof (Nat.div_mod_eq p 16). lia.
Qed.

(** ** C10: the standalone hash agrees with the streamed one *)

(** C10. For in-memory plaintext [D], whatever the key, the IV, the pad
    target and the padding option, the [plaintextHash] the encryptor returns
    is [getPlaintextHashForInMemoryAttachment D], the lowercase hex SHA-256
    of [D]; and the encryptor does return when there is no digest to match. *)
Theorem plaintextHash_getPlaintextHashForInMemoryAttachment props sink w D :
  encryptReady props sink w ->
  EncryptProps.plaintext props = PlainData D ->
  (forall r, outcome (encryptAttachmentV2 props sink w) = Resolved r ->
             EncryptedAttachmentV2.plaintextHash r
             = getPlaintextHashForInMemoryAttachment D)
  /\ getPlaintextHashForInMemoryAttachment D = sha256hex D
  /\ (noDigestToMatch props ->
      exists r, outcome (encryptAttachmentV2 props sink w) = Resolved r).
Proof.
  intros Hready Hdata.
  assert (Hhash : getPlaintextHashForInMemoryAttachment D = sha256hex D) by reflexivity.
  split; [|split].
  - intros r Hres. rewrite (encrypt_resolved_inv _ _ _ _ Hready Hres).
    unfold encryptedOf, plaintextBytes. cbn [EncryptedAttachmentV2.plaintextHash].
    rewrite Hdata, Hhash. cbn [plaintextSource chunks]. unfold flat. simpl.
    rewrite app_nil_r. reflexivity.
  - exact Hhash.
  - intros Hno. eexists. apply (encrypt_resolves _ _ _ Hready Hno).
Qed.

(** ** C9: the empty plaintext under the zero key and a forced zero IV *)

Lemma emptyPlaintext_ready skipPadding resolve sink w :
  environment w = Test -> fst (openSink sink w) = None ->
  encryptReady (emptyPlaintextProps skipPadding resolve) sink w.
Proof.
  intros Henv Hsink. unfold encryptReady, optionsAccepted, emptyPlaintextProps; simpl.
  repeat split; try assumption; try reflexivity. intros _; assumption.
Qed.

(** C9, amended. In a test environment, encrypting the empty plaintext with
    the all-zero key and the forced all-zero IV returns the plaintext hash
    e3b0...b855 and the ciphertext size 16 + (p / 16 + 1) * 16 + 32 for
    p = logPadSize 0, or p = 0 when padding is skipped; the size is 64 when
    padding is skipped or logPadSize 0 < 16. *)
Theorem emptyPlaintext_zeroKey_zeroIv skipPadding resolve sink w :
  environment w = Test -> fst (openSink sink w) = None ->
  exists r,
    outcome (encryptAttachmentV2 (emptyPlaintextProps skipPadding resolve) sink w)
    = Resolved r
    /\ EncryptedAttachmentV2.plaintextHash r
       = "e3b0c44298fc1c149afbf4c8996fb92427ae41e4649b934ca495991b7852b855"%string
    /\ EncryptedAttachmentV2.ciphertextSize r
       = 16 + ((if skipPadding then 0 else logPadSize 0) / 16 + 1) * 16 + 32
    /\ (skipPadding = true \/ logPadSize 0 < 16 ->
        EncryptedAttachmentV2.ciphertextSize r = 64).
Proof using aesEncryptBlock_length.
  intros Henv Hsink.
  pose proof (emptyPlaintext_ready skipPadding resolve sink w Henv Hsink) as Hready.
  eexists. split; [apply (encrypt_resolves _ _ _ Hready I)|].
  unfold encryptedOf, plaintextBytes.
  cbn [EncryptedAttachmentV2.plaintextHash EncryptedAttachmentV2.ciphertextSize
       emptyPlaintextProps EncryptProps.plaintext EncryptProps.keys
       EncryptProps.dangerousTestOnlySkipPadding plaintextSource chunks].
  change (flat [[]]) with (@nil byte).
  assert (Hsize :
    length (attachmentFrame (halves (repeat 0%Z 64))
              (chosenIv (emptyPlaintextProps skipPadding resolve) w)
              (paddedPlaintext skipPadding []))
    = 16 + ((if skipPadding then 0 else logPadSize 0) / 16 + 1) * 16 + 32).
  { rewrite length_attachmentFrame; [| reflexivity | reflexivity].
    unfold getAesCbcCiphertextLength, paddedPlaintext.
    destruct skipPadding; simpl length.
    - reflexivity.
    - rewrite repeat_length, Nat.sub_0_r. lia. }
  split; [exact sha256_empty|]. split; [exact Hsize|].
  intros Hsmall. rewrite Hsize. destruct Hsmall as [-> | Hlt].
  - reflexivity.
  - destruct skipPadding; [reflexivity|].
    rewrite (Nat.div_small _ 16) by exact Hlt. reflexivity.
Qed.

(** ** C7: the test-only options *)

Lemma pipelineNotRun_refl w : pipelineNotRun w w.
Proof.
  repeat split. intros message e. rewrite skipn_all. intros [].
Qed.

Lemma pipelineNotRun_info w message : pipelineNotRun w (log_info message w).
Proof.
  repeat split. intros m e. unfold log_info, log; simpl.
  rewrite skipn_app, skipn_all, Nat.sub_diag. simpl.
  intros [H|[]]. discriminate.
Qed.

Lemma Environment_eqb_neq a b : a <> b -> Environment_eqb a b = false.
Proof.
  intros H. destruct (Environment_eqb a b) eqn:E; [|reflexivity].
  apply Environment_eqb_eq in E. contradiction.
Qed.

(** C7, amended. Given a 64-byte key and, if there is a digest to match, one
    of 32 bytes: outside a test environment the encryptor throws the
    test-only error before the pipeline runs whenever the IV is forced for
    a test or padding is skipped; in a test environment the checks of the
    options pass, and the encryptor returns when its IV, source and sink are
    in order. *)
Theorem testOnly_options_gate props sink w :
  length (EncryptProps.keys props) = 64 ->
  digestToMatchValid props ->
  usesTestOnlyFeature props ->
  (environment w <> Test ->
   exists option_,
     outcome (encryptAttachmentV2 props sink w) = Rejected (TestOnlyFeatureUsed option_)
     /\ sinkView (encryptAttachmentV2 props sink w) = untouched
     /\ pipelineNotRun w (after (encryptAttachmentV2 props sink w)))
  /\ (environment w = Test ->
      fst (encryptPrologue "encryptAttachmentV2" props w)
      = Ok (halves (EncryptProps.keys props), chosenIv props w)
      /\ (encryptReady props sink w -> noDigestToMatch props ->
          exists r, outcome (encryptAttachmentV2 props sink w) = Resolved r)).
Proof.
  intros Hk Hd Huses. split.
  - intros Henv. apply Environment_eqb_neq in Henv.
    unfold encryptAttachmentV2, encryptPrologue, bind, liftResult,
      getEnvironmentM, getEnvironment, ret, throw, modify.
    rewrite (splitKeys_ok _ Hk).
    unfold digestToMatchValid in Hd. unfold usesTestOnlyFeature in Huses.
    destruct (EncryptProps.dangerousIv props) as [[iv_|iv_ d]|] eqn:Eiv.
    + rewrite Henv. simpl. eexists. repeat split.
      intros m e. rewrite skipn_all. intros [].
    + destruct Huses as [[iv' Habs]|Hskip]; [discriminate|].
      unfold strictAssert, DIGEST_LENGTH, MAC_LENGTH.
      rewrite Hd, Hskip. simpl. rewrite Henv. simpl.
      eexists. split; [reflexivity|].
      split; [reflexivity|]. apply pipelineNotRun_info.
    + destruct Huses as [[iv' Habs]|Hskip]; [discriminate|].
      rewrite Hskip. simpl. rewrite Henv. simpl.
      eexists. split; [reflexivity|].
      split; [reflexivity|]. apply pipelineNotRun_refl.
  - intros Henv.
    assert (Hacc : optionsAccepted props w).
    { unfold optionsAccepted. split; [exact Hk|]. split.
      - unfold digestToMatchValid in Hd.
        destruct (EncryptProps.dangerousIv props) as [[?|? ?]|]; auto.
      - intros _. exact Henv. }
    split.
    + rewrite (encryptPrologue_accepted _ _ Hacc). reflexivity.
    + intros Hready Hno. eexists. apply (encrypt_resolves _ _ _ Hready Hno).
Qed.

(** ** C3: re-encrypting for backup against a digest to match *)

(** C3. With a 64-byte key and an IV forced for re-encryption: a digest to
    match that is not 32 bytes long makes the encryptor throw the
    digest-length error before the pipeline runs; otherwise, on a run that
    gets through the pipeline, the encryptor returns if and only if the
    SHA-256 of the frame made with that key and exactly that IV equals the
    digest to match, and throws the mismatch error when it differs. *)
Theorem reencryptingForBackup_digestToMatch props sink w iv digestToMatch :
  EncryptProps.dangerousIv props = Some (IvReencryptingForBackup iv digestToMatch) ->
  length (EncryptProps.keys props) = 64 ->
  let run := encryptAttachmentV2 props sink w in
  let produced :=
    Sha256.sha256
      (attachmentFrame (halves (EncryptProps.keys props)) iv
         (paddedPlaintext (EncryptProps.dangerousTestOnlySkipPadding props)
            (plaintextBytes props w))) in
  (length digestToMatch <> 32 ->
   outcome run = Rejected InvalidDigestLength
   /\ sinkView run = untouched /\ pipelineNotRun w (after run))
  /\ (length digestToMatch = 32 -> encryptReady props sink w ->
      ((exists r, outcome run = Resolved r) <-> produced = digestToMatch)
      /\ (produced = digestToMatch ->
          exists r, outcome run = Resolved r
                    /\ EncryptedAttachmentV2.digest r = digestToMatch
                    /\ EncryptedAttachmentV2.iv r = iv)
      /\ (produced <> digestToMatch -> outcome run = Rejected ReencryptedDigestMismatch)).
Proof.
  intros Hiv Hk run produced. split.
  - intros Hbad. subst run.
    unfold encryptAttachmentV2, encryptPrologue, bind, liftResult,
      getEnvironmentM, getEnvironment, ret, throw, modify.
    rewrite (splitKeys_ok _ Hk), Hiv.
    unfold strictAssert, DIGEST_LENGTH, MAC_LENGTH.
    apply Nat.eqb_neq in Hbad. rewrite Hbad. simpl.
    repeat split. intros m e. rewrite skipn_all. intros [].
  - intros Hlen Hready.
    destruct Hready as (Hacc & Hivlen & Hends & Hsink).
    assert (Hrun := encryptAttachmentV2_run props sink w Hacc Hivlen Hends Hsink).
    assert (Hchosen : chosenIv props w = iv) by (unfold chosenIv; rewrite Hiv; reflexivity).
    rewrite Hchosen in Hrun.
    fold (plaintextBytes props w) in Hrun. fold produced in Hrun.
    assert (Hmatch : digestMatches props produced = constantTimeEqual produced digestToMatch)
      by (unfold digestMatches; rewrite Hiv; reflexivity).
    rewrite Hmatch in Hrun. subst run. rewrite Hrun. cbn [outcome].
    destruct (constantTimeEqual produced digestToMatch) eqn:Ecmp.
    + apply constantTimeEqual_iff in Ecmp. split; [|split].
      * split; [intros _; exact Ecmp | intros _; eexists; reflexivity].
      * intros _. eexists. split; [reflexivity|]. split; [exact Ecmp | reflexivity].
      * intros Hne. contradiction.
    + assert (Hne : produced <> digestToMatch).
      { intros Heq. apply constantTimeEqual_iff in Heq. congruence. }
      split; [|split].
      * split; [intros [r Hr]; discriminate | intros Heq; contradiction].
      * intros Heq. contradiction.
      * intros _. reflexivity.
Qed.

(** ** C2: the order of the checks in the finalizer *)

Lemma finalizer_eval logId options hmac digest (theirMac : Bytes) outerHmac theirOuterMac w :
  length theirMac = 32 ->
  fst (finalizer logId options hmac digest (Some theirMac) outerHmac theirOuterMac w)
  = if negb (constantTimeEqual (Hmac_digest hmac) theirMac) then Err BadMac
    else match DecryptOptions.integrity options with
         | TypeStandard theirDigest =>
             if negb (constantTimeEqual (Hash_digest digest) theirDigest)
             then Err BadDigest
             else outerMacCheck options outerHmac theirOuterMac
         | _ => outerMacCheck options outerHmac theirOuterMac
         end.
Proof.
  intros Hlen. unfold outerMacCheck.
  unfold finalizer, bind, liftResult, strictAssert, ret, throw, modify.
  rewrite length_Hmac_digest, length_Hash_digest, !Nat.eqb_refl.
  unfold ATTACHMENT_MAC_LENGTH, MAC_LENGTH. rewrite Hlen. simpl.
  destruct (constantTimeEqual (Hmac_digest hmac) theirMac); simpl; [|reflexivity].
  destruct (DecryptOptions.integrity options) as [d| |]; simpl;
    [destruct (constantTimeEqual (Hash_digest digest) d); simpl; [|reflexivity] | |];
    (destruct (DecryptOptions.outerEncryption options); [|reflexivity]);
    (destruct outerHmac as [h|]; simpl; [|reflexivity]);
    rewrite length_Hmac_digest; simpl;
    (destruct theirOuterMac as [m|]; simpl; [|reflexivity]);
    (destruct (length m =? 32); simpl; [|reflexivity]);
    destruct (constantTimeEqual (Hmac_digest h) m); reflexivity.
Qed.

Lemma getMacAndUpdateHmac_inv hmac s hmac' theirMac out :
  getMacAndUpdateHmac hmac s = Ok (hmac', theirMac, out) ->
  let b := flat s in
  32 <= length b
  /\ hmac' = Hmac_update hmac (firstn (length b - 32) b)
  /\ theirMac = Some (skipn (length b - 32) b)
  /\ out = [firstn (length b - 32) b].
Proof.
  unfold getMacAndUpdateHmac, MAC_LENGTH.
  destruct (length (flat s) <? 32) eqn:Hlt; [discriminate|].
  apply Nat.ltb_ge in Hlt. intros [= <- <- <-]. repeat split. exact Hlt.
Qed.





(** ** C1: decrypting what was encrypted *)

Lemma createDecipheriv_ok key iv :
  length key = 32 -> length iv = 16 ->
  createDecipheriv key iv = Ok (decipherOf key iv).
Proof.
  intros Hk Hi. unfold createDecipheriv, KEY_LENGTH, IV_LENGTH.
  rewrite Hk, Hi. reflexivity.
Qed.

Lemma decipherOf_cbcEncrypt key iv padded :
  length key = 32 -> length iv = 16 ->
  decipherOf key iv (cbcEncrypt (length (pkcs7Pad padded)) key iv (pkcs7Pad padded))
  = Ok (deciphered padded).
Proof using aesEncryptBlock_length aesDecryptBlock_encrypt.
  intros Hk Hi. unfold decipherOf, deciphered.
  pose proof (pkcs7Pad_blocks padded) as Hblocks.
  rewrite (length_cbcEncrypt (1 + length padded / 16)) by (try assumption; lia).
  rewrite Hblocks at 1. unfold AES_BLOCK.
  replace ((16 * (1 + length padded / 16)) mod 16) with 0
    by (symmetry; rewrite Nat.mul_comm; apply Nat.Div0.mod_mul).
  simpl negb. cbv iota.
  rewrite (cbcDecrypt_cbcEncrypt (1 + length padded / 16)) by (try assumption; lia).
  destruct autoPadding; [|reflexivity].
  rewrite pkcs7Unpad_pkcs7Pad. reflexivity.
Qed.

Lemma firstn_prefix (A : Type) (P rest : list A) : firstn (length P) (P ++ rest) = P.
Proof.
  rewrite firstn_app, firstn_all, Nat.sub_diag, firstn_O. apply app_nil_r.
Qed.

Lemma firstn_deciphered skipPadding P :
  firstn (length P) (deciphered (paddedPlaintext skipPadding P)) = P.
Proof.
  unfold deciphered, paddedPlaintext, pkcs7Pad.
  destruct autoPadding, skipPadding;
    rewrite <- ?app_assoc; try apply firstn_prefix; apply firstn_all.
Qed.

Lemma flat_singleton (b : Bytes) : flat [b] = b.
Proof. unfold flat. simpl. apply app_nil_r. Qed.

Lemma getMacAndUpdateHmac_frame macKey_ body mac source :
  length mac = 32 -> flat source = body ++ mac ->
  getMacAndUpdateHmac (createHmac macKey_) source
  = Ok ({| hmacKey := macKey_; hmacked := body |}, Some mac, [body]).
Proof.
  intros Hmac Hflat. unfold getMacAndUpdateHmac, MAC_LENGTH.
  rewrite Hflat, length_app, Hmac.
  replace (length body + 32 <? 32) with false by (symmetry; apply Nat.ltb_ge; lia).
  replace (length body + 32 - 32) with (length body) by lia.
  rewrite firstn_prefix, skipn_app, skipn_all, Nat.sub_diag. reflexivity.
Qed.

Lemma getIvAndDecipher_frame ks iv padded :
  length (aesKey ks) = 32 -> length iv = 16 ->
  getIvAndDecipher (aesKey ks) [frameBody ks iv padded]
  = Ok (Some iv, [deciphered padded]).
Proof using aesEncryptBlock_length aesDecryptBlock_encrypt.
  intros Hk Hi. unfold getIvAndDecipher, IV_LENGTH.
  rewrite flat_singleton. unfold frameBody.
  rewrite length_app, Hi.
  replace (16 + _ <? 16) with false by (symmetry; apply Nat.ltb_ge; lia).
  set (c := cbcEncrypt (length (pkcs7Pad padded)) (aesKey ks) iv (pkcs7Pad padded)).
  assert (Ht : firstn 16 (iv ++ c) = iv) by (rewrite <- Hi; apply firstn_prefix).
  assert (Hd : skipn 16 (iv ++ c) = c)
    by (rewrite <- Hi, skipn_app, skipn_all, Nat.sub_diag; reflexivity).
  rewrite Ht, Hd. subst c.
  rewrite (createDecipheriv_ok _ _ Hk Hi), decipherOf_cbcEncrypt by assumption.
  reflexivity.
Qed.

Lemma decryptStages_frame options ks iv skipPadding P source :
  DecryptOptions.outerEncryption options = None ->
  DecryptOptions.size options = length P ->
  length (aesKey ks) = 32 -> length iv = 16 ->
  flat source = attachmentFrame ks iv (paddedPlaintext skipPadding P) ->
  decryptStages options ks source
  = Ok {| stDigest := {| hashed := flat source |};
          stHmac := {| hmacKey := macKey ks;
                       hmacked := frameBody ks iv (paddedPlaintext skipPadding P) |};
          stTheirMac :=
            Some (hmacSha256 (macKey ks)
                    (frameBody ks iv (paddedPlaintext skipPadding P)));
          stOuterHmac := None; stTheirOuterMac := None;
          stIv := Some iv;
          stPlaintextHash := {| hashed := P |};
          stOut := [P] |}.
Proof using aesEncryptBlock_length aesDecryptBlock_encrypt.
  intros Houter Hsize Hk Hi Hflat. unfold decryptStages.
  rewrite Houter. cbn [option_map]. rewrite peekAndUpdateHash_spec.
  rewrite (getMacAndUpdateHmac_frame (macKey ks) _ _ source
             (length_hmacSha256 _ _) Hflat).
  rewrite (getIvAndDecipher_frame ks iv _ Hk Hi).
  rewrite Hsize. cbn [trimPadding]. rewrite firstn_deciphered.
  rewrite peekAndUpdateHash_spec, flat_singleton. reflexivity.
Qed.

Lemma decryptKeys_sameKeys keys_ options :
  length keys_ = 64 -> sameKeys keys_ options ->
  decryptKeys options = Ok (halves keys_).
Proof.
  unfold sameKeys, decryptKeys. intros Hlen Hsame.
  destruct (DecryptOptions.keyMaterial options) as [a m|s].
  - destruct Hsame as [-> ->]. reflexivity.
  - rewrite Hsame. apply splitKeys_ok. exact Hlen.
Qed.

Lemma checkedWorld_frame props w :
  files (checkedWorld props w) = files w
  /\ openFault (checkedWorld props w) = openFault w
  /\ streamFault (checkedWorld props w) = streamFault w.
Proof.
  unfold checkedWorld.
  destruct (EncryptProps.dangerousIv props) as [[?|? ?]|]; repeat split.
Qed.

Lemma openSink_file path w :
  fst (openSink (Some (FileSink path)) w) = None ->
  openFault w !! path = None /\ streamFault w !! path = None
  /\ snd (openSink (Some (FileSink path)) w)
     = setFiles (<[path := []]> (files w)) w.
Proof.
  unfold openSink. destruct (openFault w !! path); simpl; [discriminate|].
  intros H. repeat split; assumption.
Qed.

Lemma finalizer_passes logId options hmac digest (theirMac : Bytes) w :
  length theirMac = 32 -> Hmac_digest hmac = theirMac ->
  digestPasses options digest ->
  DecryptOptions.outerEncryption options = None ->
  exists w', finalizer logId options hmac digest (Some theirMac) None None w
             = (Ok tt, w').
Proof.
  intros Hlen Hmac Hpass Houter.
  pose proof (finalizer_eval logId options hmac digest theirMac None None w Hlen)
    as Hfst.
  destruct (finalizer logId options hmac digest (Some theirMac) None None w)
    as [verdict w'].
  exists w'. f_equal. cbn [fst] in Hfst. rewrite Hfst.
  rewrite Hmac, constantTimeEqual_refl. cbn [negb].
  unfold outerMacCheck. rewrite Houter. unfold digestPasses in Hpass.
  destruct (DecryptOptions.integrity options) as [d| |]; try reflexivity.
  rewrite Hpass, constantTimeEqual_refl. reflexivity.
Qed.

Lemma decryptChain_frame logId options ks iv skipPadding P source w :
  DecryptOptions.outerEncryption options = None ->
  DecryptOptions.size options = length P ->
  length (aesKey ks) = 32 -> length iv = 16 ->
  flat source = attachmentFrame ks iv (paddedPlaintext skipPadding P) ->
  expectsDigest (Sha256.sha256 (flat source)) options ->
  exists w',
    decryptChain logId options ks source w
    = ([P], Ok {| seenIv := Some iv; seenPlaintextHash := {| hashed := P |} |}, w').
Proof using aesEncryptBlock_length aesDecryptBlock_encrypt.
  intros Houter Hsize Hak Hivlen Hflat Hdigest. unfold decryptChain.
  rewrite (decryptStages_frame options ks iv skipPadding P source Houter Hsize
             Hak Hivlen Hflat).
  cbn [stHmac stDigest stTheirMac stOuterHmac stTheirOuterMac stOut stIv
       stPlaintextHash].
  destruct (finalizer_passes logId options
              {| hmacKey := macKey ks;
                 hmacked := frameBody ks iv (paddedPlaintext skipPadding P) |}
              {| hashed := flat source |}
              (hmacSha256 (macKey ks)
                 (frameBody ks iv (paddedPlaintext skipPadding P))) w)
    as [w' Hfin].
  - apply length_hmacSha256.
  - reflexivity.
  - unfold digestPasses, Hash_digest. cbn [hashed].
    unfold expectsDigest in Hdigest.
    destruct (DecryptOptions.integrity options);
      [symmetry; exact Hdigest | exact I | exact I].
  - exact Houter.
  - rewrite Hfin. exists w'. reflexivity.
Qed.

(** The decryptor on a file that holds a frame. *)
Lemma decryptAttachmentV2ToSink_frame options ks iv skipPadding P w :
  let frame := attachmentFrame ks iv (paddedPlaintext skipPadding P) in
  let decrypting := decryptAttachmentV2ToSink options (MemorySink None) w in
  decryptKeys options = Ok ks ->
  length (aesKey ks) = 32 -> length iv = 16 ->
  openFault w !! DecryptOptions.ciphertextPath options = None ->
  streamFault w !! DecryptOptions.ciphertextPath options = None ->
  files w !! DecryptOptions.ciphertextPath options = Some frame ->
  DecryptOptions.size options = length P ->
  DecryptOptions.outerEncryption options = None ->
  expectsDigest (Sha256.sha256 frame) options ->
  outcome decrypting
  = Resolved {| DecryptedAttachmentV2.path := None;
                DecryptedAttachmentV2.iv := iv;
                DecryptedAttachmentV2.plaintextHash := sha256hex P |}
  /\ sinkView decrypting = {| chunks := [P]; ending := Ends |}.
Proof using aesEncryptBlock_length aesDecryptBlock_encrypt readChunks_flat.
  intros frame decrypting Hkeys Hak Hivlen Hof Hsf Hfile Hsize Houter Hdigest.
  subst decrypting frame. unfold decryptAttachmentV2ToSink.
  rewrite Hkeys. unfold openRead. rewrite Hof, Hfile.
  unfold decryptPipeline.
  change (streamFault (setOpenFds (S (openFds w)) w)) with (streamFault w).
  rewrite Hsf. unfold pipeline. cbn [openSink ending chunks].
  destruct (decryptChain_frame (decryptLogId options) options ks iv skipPadding P
              (readChunks (attachmentFrame ks iv (paddedPlaintext skipPadding P)))
              (setOpenFds (S (openFds w)) w) Houter Hsize Hak Hivlen
              (readChunks_flat _)) as [w' Hchain].
  - rewrite readChunks_flat. exact Hdigest.
  - rewrite Hchain. cbn [outcome sinkView after writeSink chunks ending].
    unfold decryptEpilogue. cbn [seenPlaintextHash seenIv].
    rewrite length_Hash_digest_hex, Nat.eqb_refl. unfold strictAssert.
    unfold IV_LENGTH. rewrite Hivlen. simpl. split; reflexivity.
Qed.

(** C1. Let the encryptor write the frame of a plaintext [P] under a 64-byte
    key to a file.  Decrypting that file with the same key, the declared size
    [length P], no outer layer and, in the standard mode, the encryptor's
    digest, resolves: the sink receives exactly [P], and the plaintext hash
    returned is the lowercase hex SHA-256 of [P], the one the encryptor
    returned; the IV returned is the encryptor's. *)
Theorem decrypt_encrypt_roundtrip props path options w r :
  let encrypting := encryptAttachmentV2 props (Some (FileSink path)) w in
  let P := plaintextBytes props w in
  encryptReady props (Some (FileSink path)) w ->
  outcome encrypting = Resolved r ->
  DecryptOptions.ciphertextPath options = path ->
  DecryptOptions.size options = length P ->
  DecryptOptions.outerEncryption options = None ->
  sameKeys (EncryptProps.keys props) options ->
  expectsDigest (EncryptedAttachmentV2.digest r) options ->
  let decrypting :=
    decryptAttachmentV2ToSink options (MemorySink None) (after encrypting) in
  exists d,
    outcome decrypting = Resolved d
    /\ flat (chunks (sinkView decrypting)) = P
    /\ ending (sinkView decrypting) = Ends
    /\ DecryptedAttachmentV2.plaintextHash d = sha256hex P
    /\ DecryptedAttachmentV2.plaintextHash d = EncryptedAttachmentV2.plaintextHash r
    /\ DecryptedAttachmentV2.iv d = EncryptedAttachmentV2.iv r.
Proof using aesEncryptBlock_length aesDecryptBlock_encrypt readChunks_flat.
  intros encrypting P Hready Hres Hpath Hsize Houter Hkeys Hdigest decrypting.
  pose proof (encrypt_resolved_inv _ _ _ _ Hready Hres) as Hr.
  fold P in Hr.
  destruct Hready as (Hacc & Hivlen & Hends & Hopen).
  pose proof (encryptAttachmentV2_run props (Some (FileSink path)) w
                Hacc Hivlen Hends Hopen) as Hrun.
  fold (plaintextBytes props w) in Hrun. fold P in Hrun.
  destruct (openSink_file _ _ Hopen) as (Hof & Hsf & Hsnd).
  destruct (length_halves _ (proj1 Hacc)) as [Hak Hmk].
  assert (Hw1 : openFault (after encrypting) !! path = None
                /\ streamFault (after encrypting) !! path = None
                /\ files (after encrypting) !! path
                   = Some (attachmentFrame (halves (EncryptProps.keys props))
                             (chosenIv props w)
                             (paddedPlaintext
                                (EncryptProps.dangerousTestOnlySkipPadding props) P))).
  { subst encrypting. rewrite Hrun. cbn [after]. rewrite Hsnd.
    unfold writeSink, setFiles. cbn [openFault streamFault files].
    rewrite flat_frameChunks, lookup_insert_eq. repeat split; assumption. }
  destruct Hw1 as (Hof1 & Hsf1 & Hfile1).
  rewrite <- Hpath in Hof1, Hsf1, Hfile1.
  assert (Hdigest' : expectsDigest
            (Sha256.sha256
               (attachmentFrame (halves (EncryptProps.keys props)) (chosenIv props w)
                  (paddedPlaintext (EncryptProps.dangerousTestOnlySkipPadding props) P)))
            options).
  { rewrite Hr in Hdigest. exact Hdigest. }
  destruct (decryptAttachmentV2ToSink_frame options _ _ _ P (after encrypting)
              (decryptKeys_sameKeys _ _ (proj1 Hacc) Hkeys) Hak Hivlen
              Hof1 Hsf1 Hfile1 Hsize Houter Hdigest') as [Hout Hview].
  subst decrypting. rewrite Hout, Hview. eexists. split; [reflexivity|].
  cbn [chunks ending DecryptedAttachmentV2.plaintextHash DecryptedAttachmentV2.iv].
  rewrite Hr. unfold encryptedOf.
  cbn [EncryptedAttachmentV2.plaintextHash EncryptedAttachmentV2.iv].
  repeat split; try reflexivity. apply flat_singleton.
Qed.

(** ** What is logged *)

Lemma quietly_refl w : quietly w w.
Proof. exists []. rewrite app_nil_r. split; [reflexivity | constructor]. Qed.

Lemma quietly_same w w' : logged w' = logged w -> quietly w w'.
Proof. intros H. exists []. rewrite app_nil_r. split; [exact H | constructor]. Qed.

Lemma quietly_trans w1 w2 w3 : quietly w1 w2 -> quietly w2 w3 -> quietly w1 w3.
Proof.
  intros (m1 & H1 & F1) (m2 & H2 & F2). exists (m1 ++ m2).
  rewrite H2, H1, app_assoc. split; [reflexivity | apply Forall_app; split; assumption].
Qed.

Lemma quietly_info w message : quietly w (log_info message w).
Proof.
  exists [LogInfo message]. split; [reflexivity | repeat constructor].
Qed.

Lemma newEntries_app w w' more : logged w' = logged w ++ more -> newEntries w w' = more.
Proof.
  intros H. unfold newEntries.
  rewrite H, skipn_app, skipn_all, Nat.sub_diag. reflexivity.
Qed.

Lemma filter_none (l : list LogEntry) :
  Forall (fun entry => isErrorEntry entry = false) l -> List.filter isErrorEntry l = [].
Proof.
  induction 1 as [|x l Hx _ IH]; simpl; [reflexivity|]. rewrite Hx. exact IH.
Qed.

Lemma errorsLogged_quietly w w' : quietly w w' -> errorsLogged w w' = [].
Proof.
  intros (more & H & F). unfold errorsLogged.
  rewrite (newEntries_app _ _ _ H). apply filter_none. exact F.
Qed.

Lemma errorsLogged_log_error w w' message e :
  quietly w w' ->
  errorsLogged w (log_error message e w') = [LogError message e].
Proof.
  intros (more & H & F). unfold errorsLogged.
  rewrite (newEntries_app _ _ (more ++ [LogError message e])).
  - rewrite List.filter_app, (filter_none _ F). reflexivity.
  - unfold log_error, log; simpl. rewrite H, app_assoc. reflexivity.
Qed.

Lemma quietM_ret (A : Type) (a : A) : quietM (ret a).
Proof. intros w. apply quietly_refl. Qed.

Lemma quietM_throw (A : Type) (e : Error) : quietM (@throw A e).
Proof. intros w. apply quietly_refl. Qed.

Lemma quietM_liftResult (A : Type) (r : Result A) : quietM (liftResult r).
Proof. intros w. apply quietly_refl. Qed.

Lemma quietM_info message : quietM (modify (log_info message)).
Proof. intros w. apply quietly_info. Qed.

Lemma quietM_bind (A B : Type) (m : M A) (k : A -> M B) :
  quietM m -> (forall a, quietM (k a)) -> quietM (bind m k).
Proof.
  intros Hm Hk w. unfold bind. specialize (Hm w).
  destruct (m w) as [[a|e] w']; simpl in *.
  - apply (quietly_trans _ _ _ Hm). apply Hk.
  - exact Hm.
Qed.

Lemma quietM_if (A : Type) (c : bool) (m1 m2 : M A) :
  quietM m1 -> quietM m2 -> quietM (if c then m1 else m2).
Proof. destruct c; auto. Qed.

Lemma finalizer_quietM logId options hmac digest theirMac outerHmac theirOuterMac :
  quietM (finalizer logId options hmac digest theirMac outerHmac theirOuterMac).
Proof.
  unfold finalizer.
  apply quietM_bind; [apply quietM_liftResult | intros _].
  apply quietM_bind.
  { destruct theirMac; [apply quietM_if; [apply quietM_ret|] |]; apply quietM_throw. }
  intros theirMac'.
  apply quietM_bind; [apply quietM_liftResult | intros _].
  apply quietM_bind;
    [apply quietM_if; [apply quietM_throw | apply quietM_ret] | intros _].
  apply quietM_bind.
  { destruct (DecryptOptions.integrity options);
      [apply quietM_if; [apply quietM_throw | apply quietM_ret]
      | apply quietM_info | apply quietM_info]. }
  intros _.
  destruct (DecryptOptions.outerEncryption options); [|apply quietM_ret].
  apply quietM_bind.
  { destruct outerHmac; [apply quietM_ret | apply quietM_throw]. }
  intros outerHmac'.
  apply quietM_bind; [apply quietM_liftResult | intros _].
  apply quietM_bind.
  { destruct theirOuterMac; [apply quietM_if; [apply quietM_ret|] |]; apply quietM_throw. }
  intros theirOuterMac'.
  apply quietM_if; [apply quietM_throw | apply quietM_ret].
Qed.

Lemma decryptChain_quietly logId options ks source w :
  quietly w (snd (decryptChain logId options ks source w)).
Proof.
  unfold decryptChain.
  destruct (decryptStages options ks source) as [st|e]; [|apply quietly_refl].
  pose proof (finalizer_quietM logId options (stHmac st) (stDigest st) (stTheirMac st)
                (stOuterHmac st) (stTheirOuterMac st) w) as Hq.
  destruct (finalizer _ _ _ _ _ _ _ w) as [[[]|e] w']; exact Hq.
Qed.

Lemma openSink_logged sink w : logged (snd (openSink sink w)) = logged w.
Proof.
  unfold openSink. destruct sink as [[path|fault]|]; try reflexivity.
  destruct (openFault w !! path); reflexivity.
Qed.

Lemma writeSink_logged sink out w : logged (writeSink sink out w) = logged w.
Proof. destruct sink as [[path|fault]|]; reflexivity. Qed.

Lemma pipeline_quietly (S : Type) source
    (chain : Stream -> World -> Stream * Result S * World) sink w :
  (forall s w0, quietly w0 (snd (chain s w0))) ->
  quietly w (after (pipeline source chain sink w)).
Proof.
  intros Hchain. unfold pipeline.
  pose proof (openSink_logged sink w) as Hopen.
  destruct (openSink sink w) as [fault w0]. simpl in Hopen.
  assert (Hq0 : quietly w w0) by (apply quietly_same; exact Hopen).
  destruct (ending source); try exact Hq0.
  destruct fault; [exact Hq0|].
  specialize (Hchain (chunks source) w0).
  destruct (chain (chunks source) w0) as [[passed verdict] w1]. simpl in Hchain.
  assert (Hq2 : quietly w (writeSink sink passed w1)).
  { apply (quietly_trans _ w0); [exact Hq0|].
    apply (quietly_trans _ w1); [exact Hchain|].
    apply quietly_same, writeSink_logged. }
  destruct verdict; exact Hq2.
Qed.

Lemma decryptPipeline_quietly options ks sink content w :
  quietly w (after (decryptPipeline options ks sink content w)).
Proof.
  unfold decryptPipeline. apply pipeline_quietly.
  intros s w0. apply decryptChain_quietly.
Qed.

Lemma openRead_logged path w : logged (snd (openRead path w)) = logged w.
Proof.
  unfold openRead. destruct (openFault w !! path); [reflexivity|].
  destruct (files w !! path); reflexivity.
Qed.

Lemma grows_refl w : grows w w.
Proof. exists []. rewrite app_nil_r. reflexivity. Qed.

Lemma grows_trans w1 w2 w3 : grows w1 w2 -> grows w2 w3 -> grows w1 w3.
Proof.
  intros (m1 & H1) (m2 & H2). exists (m1 ++ m2). rewrite H2, H1, app_assoc. reflexivity.
Qed.

Lemma grows_quietly w w' : quietly w w' -> grows w w'.
Proof. intros (more & H & _). exists more. exact H. Qed.

Lemma grows_log w entry : grows w (log entry w).
Proof. exists [entry]. reflexivity. Qed.

Lemma grows_same w w' : logged w' = logged w -> grows w w'.
Proof. intros H. apply grows_quietly, quietly_same, H. Qed.

Lemma grows_In w w' w'' entry :
  grows w w' -> grows (log entry w') w'' -> In entry (newEntries w w'').
Proof.
  intros (m1 & H1) (m2 & H2). unfold log in H2; simpl in H2.
  rewrite (newEntries_app w w'' (m1 ++ [entry] ++ m2)).
  - apply in_or_app. right. left. reflexivity.
  - rewrite H2, H1, <- !app_assoc. reflexivity.
Qed.

Lemma decryptAttachmentV2ToSink_grows options sink w :
  grows w (after (decryptAttachmentV2ToSink options sink w)).
Proof.
  unfold decryptAttachmentV2ToSink.
  destruct (decryptKeys options) as [ks|e]; [|apply grows_refl].
  pose proof (openRead_logged (DecryptOptions.ciphertextPath options) w) as Hopen.
  destruct (openRead (DecryptOptions.ciphertextPath options) w) as [[content|cause] w0];
    simpl in Hopen.
  - pose proof (decryptPipeline_quietly options ks sink content w0) as Hq.
    assert (Hg : grows w (after (decryptPipeline options ks sink content w0))).
    { apply (grows_trans _ w0); [apply grows_same, Hopen | apply grows_quietly, Hq]. }
    destruct (outcome (decryptPipeline options ks sink content w0)) as [taps|e|];
      cbn [after]; try exact Hg.
    destruct (isAbortError e); [exact Hg|].
    apply (grows_trans _ _ _ Hg). apply grows_log.
  - cbn [after rejected]. apply (grows_trans _ w0); [apply grows_same, Hopen|].
    destruct (isAbortError _); [apply grows_refl | apply grows_log].
Qed.

Lemma safeUnlinkSync_grows path w : grows w (snd (safeUnlinkSync path w)).
Proof.
  unfold safeUnlinkSync, tryCatch, unlinkSync.
  destruct (unlinkFault w !! path) as [code|]; [|destruct (files w !! path)]; simpl.
  - destruct (bool_decide (Some (UnlinkErrno_code code) = Some "ENOENT"%string)); simpl;
      [apply grows_refl | apply grows_log].
  - apply grows_same. reflexivity.
  - apply grows_refl.
Qed.

Lemma cleanUp_logs (A : Type) message path opened error w :
  grows (log_error message error w) (after (@cleanUp A message path opened error w)).
Proof.
  unfold cleanUp.
  pose proof (safeUnlinkSync_grows path (log_error message error w)) as Hg.
  destruct (safeUnlinkSync path (log_error message error w)) as [[[]|e] w2];
    simpl in Hg; cbn [after rejected];
    destruct opened; try exact Hg;
    (apply (grows_trans _ _ _ Hg); apply grows_same; reflexivity).
Qed.

Lemma createWritePath_logged path w : logged (snd (createWritePath path w)) = logged w.
Proof.
  unfold createWritePath, tryCatch, bind, ensureFile, openWrite, throw.
  destruct (openFault w !! path) eqn:Eo; simpl; [reflexivity|].
  destruct (files w !! path); simpl; rewrite Eo; reflexivity.
Qed.

(** ** C8: which errors of the decryptor are logged *)

(** C8, amended. [decryptAttachmentV2ToSink] rethrows an abort error without
    logging anything at error level, and logs every other error of opening
    the ciphertext or of the pipeline once at error level, with its log id,
    before rethrowing it.  [decryptAttachmentV2] logs at error level whatever
    it rejects with, and an abort error of its decryptor like any other. *)
Theorem decrypt_abort_errors_not_logged options sink w :
  let toSink := decryptAttachmentV2ToSink options sink w in
  let toDisk := decryptAttachmentV2 options w in
  let absoluteTargetPath :=
    DecryptOptions.getAbsoluteAttachmentPath options (freshRelativePath w) in
  (forall e, outcome toSink = Rejected e -> isAbortError e = true ->
             errorsLogged w (after toSink) = [])
  /\ (forall ks content w0 e,
         decryptKeys options = Ok ks ->
         openRead (DecryptOptions.ciphertextPath options) w = (Ok content, w0) ->
         outcome (decryptPipeline options ks sink content w0) = Rejected e ->
         outcome toSink = Rejected e
         /\ (isAbortError e = false ->
             errorsLogged w (after toSink)
             = [LogError (decryptFailedMessage options) e]))
  /\ (forall ks cause w0,
         decryptKeys options = Ok ks ->
         openRead (DecryptOptions.ciphertextPath options) w = (Err cause, w0) ->
         outcome toSink = Rejected (ReadPathMissing (Error_cause cause))
         /\ errorsLogged w (after toSink)
            = [LogError (decryptFailedMessage options)
                        (ReadPathMissing (Error_cause cause))])
  /\ (forall e, outcome toDisk = Rejected e ->
                exists e0, In (LogError (decryptToDiskFailedMessage options) e0)
                              (newEntries w (after toDisk)))
  /\ (forall w1 e,
         createWritePath absoluteTargetPath w = (Ok tt, w1) ->
         outcome (decryptAttachmentV2ToSink options (FileSink absoluteTargetPath) w1)
         = Rejected e ->
         In (LogError (decryptToDiskFailedMessage options) e)
            (newEntries w (after toDisk))).
Proof.
  intros toSink toDisk absoluteTargetPath.
  assert (Hpipe : forall ks content w0 e,
    decryptKeys options = Ok ks ->
    openRead (DecryptOptions.ciphertextPath options) w = (Ok content, w0) ->
    outcome (decryptPipeline options ks sink content w0) = Rejected e ->
    outcome toSink = Rejected e
    /\ (isAbortError e = true -> errorsLogged w (after toSink) = [])
    /\ (isAbortError e = false ->
        errorsLogged w (after toSink) = [LogError (decryptFailedMessage options) e])).
  { intros ks content w0 e Hks Hopen Hrej. subst toSink.
    unfold decryptAttachmentV2ToSink. rewrite Hks, Hopen, Hrej. cbn [outcome after].
    pose proof (openRead_logged (DecryptOptions.ciphertextPath options) w) as Hl.
    rewrite Hopen in Hl. simpl in Hl.
    assert (Hq : quietly w (after (decryptPipeline options ks sink content w0))).
    { apply (quietly_trans _ w0); [apply quietly_same, Hl|].
      apply decryptPipeline_quietly. }
    split; [reflexivity|]. split; intros Habort; rewrite Habort.
    - apply errorsLogged_quietly.
      apply (quietly_trans _ _ _ Hq). apply quietly_same. reflexivity.
    - unfold errorsLogged, newEntries, close, setOpenFds. cbn [logged].
      apply (errorsLogged_log_error w _ _ _ Hq). }
  split; [|split; [|split; [|split]]].
  - intros e Hrej Habort.
    destruct (decryptKeys options) as [ks|e0] eqn:Hks.
    + destruct (openRead (DecryptOptions.ciphertextPath options) w)
        as [[content|cause] w0] eqn:Hopen.
      * destruct (outcome (decryptPipeline options ks sink content w0))
          as [taps|e1|] eqn:Hout.
        -- subst toSink. unfold decryptAttachmentV2ToSink.
           rewrite Hks, Hopen, Hout. cbn [after].
           pose proof (openRead_logged (DecryptOptions.ciphertextPath options) w) as Hl.
           rewrite Hopen in Hl. simpl in Hl.
           apply errorsLogged_quietly.
           apply (quietly_trans _ w0); [apply quietly_same, Hl|].
           apply (quietly_trans _ (after (decryptPipeline options ks sink content w0)));
             [apply decryptPipeline_quietly | apply quietly_same; reflexivity].
        -- destruct (Hpipe ks content w0 e1 eq_refl eq_refl Hout) as (Ho & Ha & _).
           rewrite Ho in Hrej. injection Hrej as <-. apply Ha, Habort.
        -- subst toSink. unfold decryptAttachmentV2ToSink in Hrej.
           rewrite Hks, Hopen, Hout in Hrej. discriminate.
      * subst toSink. unfold decryptAttachmentV2ToSink in Hrej.
        rewrite Hks, Hopen in Hrej. cbn [outcome rejected] in Hrej.
        injection Hrej as <-. discriminate.
    + subst toSink. unfold decryptAttachmentV2ToSink. rewrite Hks.
      cbn [after rejected]. apply errorsLogged_quietly, quietly_refl.
  - intros ks content w0 e Hks Hopen Hrej.
    destruct (Hpipe ks content w0 e Hks Hopen Hrej) as (H1 & _ & H3).
    split; assumption.
  - intros ks cause w0 Hks Hopen. subst toSink.
    unfold decryptAttachmentV2ToSink. rewrite Hks, Hopen.
    cbn [outcome after rejected isAbortError Error_name].
    split; [reflexivity|].
    pose proof (openRead_logged (DecryptOptions.ciphertextPath options) w) as Hl.
    rewrite Hopen in Hl. simpl in Hl.
    simpl String.eqb. cbv iota.
    apply errorsLogged_log_error, quietly_same, Hl.
  - intros e Hrej. subst toDisk. unfold decryptAttachmentV2 in *.
    fold absoluteTargetPath in Hrej |- *.
    pose proof (createWritePath_logged absoluteTargetPath w) as Hl.
    destruct (createWritePath absoluteTargetPath w) as [[[]|e1] w1]; simpl in Hl.
    + pose proof (decryptAttachmentV2ToSink_grows options (FileSink absoluteTargetPath) w1)
        as Hg.
      destruct (outcome (decryptAttachmentV2ToSink options (FileSink absoluteTargetPath) w1))
        as [d|e2|]; try discriminate.
      exists e2. eapply grows_In; [|apply cleanUp_logs].
      apply (grows_trans _ w1); [apply grows_same, Hl | exact Hg].
    + exists e1. eapply grows_In; [|apply cleanUp_logs]. apply grows_same, Hl.
  - intros w1 e Hcreate Hrej. subst toDisk. unfold decryptAttachmentV2.
    fold absoluteTargetPath. rewrite Hcreate, Hrej.
    pose proof (createWritePath_logged absoluteTargetPath w) as Hl.
    rewrite Hcreate in Hl. simpl in Hl.
    eapply grows_In; [|apply cleanUp_logs].
    apply (grows_trans _ w1); [apply grows_same, Hl|].
    apply decryptAttachmentV2ToSink_grows.
Qed.

(** ** C6: the partial output file *)

Lemma UnlinkErrno_not_ENOENT errno : UnlinkErrno_code errno <> "ENOENT"%string.
Proof. destruct errno; discriminate. Qed.

Lemma safeUnlinkSync_spec path w :
  match unlinkFault w !! path with
  | Some errno =>
      safeUnlinkSync path w
      = (Err (SystemError (UnlinkErrno_code errno)),
         log_error "Failed to unlink" (SystemError (UnlinkErrno_code errno)) w)
  | None =>
      fst (safeUnlinkSync path w) = Ok tt
      /\ files (snd (safeUnlinkSync path w)) !! path = None
  end.
Proof.
  unfold safeUnlinkSync, tryCatch, unlinkSync.
  destruct (unlinkFault w !! path) as [errno|] eqn:Efault.
  - cbn [Error_code].
    rewrite bool_decide_eq_false_2
      by (intros [= H]; exact (UnlinkErrno_not_ENOENT errno H)).
    reflexivity.
  - destruct (files w !! path) as [content|] eqn:Efile.
    + simpl. split; [reflexivity | apply lookup_delete_eq].
    + cbn [Error_code]. rewrite bool_decide_eq_true_2 by reflexivity.
      simpl. split; [reflexivity | exact Efile].
Qed.

Lemma cleanedUp_safeUnlinkSync path original w :
  exists e,
    match safeUnlinkSync path w with
    | (Err unlinkError, _) => unlinkError
    | (Ok _, _) => original
    end = e
    /\ cleanedUp path original w e (snd (safeUnlinkSync path w)).
Proof.
  pose proof (safeUnlinkSync_spec path w) as Hspec. unfold cleanedUp.
  destruct (unlinkFault w !! path) as [errno|].
  - rewrite Hspec. exists (SystemError (UnlinkErrno_code errno)).
    split; [reflexivity|]. cbn [snd files log_error log logged].
    repeat split.
    + apply UnlinkErrno_not_ENOENT.
    + apply in_or_app. right. left. reflexivity.
  - destruct (safeUnlinkSync path w) as [[[]|e] w2]; cbn [fst snd] in *.
    + exists original. split; [reflexivity|].
      destruct Hspec as [_ Hgone]. split; [reflexivity | exact Hgone].
    + destruct Hspec as [Habs _]. discriminate.
Qed.

Lemma cleanUp_spec (A : Type) message path opened original w :
  exists e, outcome (@cleanUp A message path opened original w) = Rejected e
            /\ cleanedUp path original w e
                 (after (@cleanUp A message path opened original w)).
Proof.
  unfold cleanUp.
  destruct (cleanedUp_safeUnlinkSync path original (log_error message original w))
    as (e & He & Hclean).
  exists e.
  destruct (safeUnlinkSync path (log_error message original w)) as [[[]|e'] w2];
    cbn [snd] in *; subst e; (split; [reflexivity|]);
    unfold cleanedUp in *; cbn [after rejected files unlinkFault log_error log] in *;
    destruct (unlinkFault w !! path);
    destruct opened; exact Hclean.
Qed.

Lemma encryptPipeline_rejected props sink w original :
  optionsAccepted props w -> length (chosenIv props w) = 16 ->
  outcome (encryptPipeline props sink w) = Rejected original ->
  outcome (encryptAttachmentV2 props sink w) = Rejected original.
Proof.
  intros Hacc Hiv Hrej. unfold encryptAttachmentV2.
  rewrite (encryptPrologue_accepted _ _ Hacc).
  destruct (length_halves _ (proj1 Hacc)) as [Hak _].
  rewrite (createCipheriv_ok _ _ Hak Hiv), (prependIv_ok _ Hiv).
  unfold encryptPipeline in Hrej. rewrite Hrej. reflexivity.
Qed.

(** C6, amended. When the pipeline of a file-producing entry point fails, or
    a decrypting entry point cannot create its output file, the entry point
    unlinks the output file and rejects: with the original error, no file
    left at the output path, when the unlink succeeds or finds no file; with
    the unlink's own error, logged, what is at the output path left as it
    was, when the unlink fails for another reason.  For
    [encryptAttachmentV2ToDisk] the failure is that of the pipeline its
    encryptor runs once the options are accepted; for the decrypting entry
    points it is any rejection of the decryptor, or of the two pipelines the
    re-encryptor awaits. *)
Theorem failed_pipeline_unlinks_output :
  (forall args w w1 original,
      let path := EncryptProps.getAbsoluteAttachmentPath args (freshRelativePath w) in
      let encrypting := encryptAttachmentV2 args (Some (FileSink path)) w1 in
      ensureFile path w = (Ok tt, w1) ->
      optionsAccepted args w1 -> length (chosenIv args w1) = 16 ->
      outcome (encryptPipeline args (Some (FileSink path)) w1) = Rejected original ->
      outcome encrypting = Rejected original
      /\ exists e, outcome (encryptAttachmentV2ToDisk args w) = Rejected e
                   /\ cleanedUp path original (after encrypting) e
                        (after (encryptAttachmentV2ToDisk args w)))
  /\ (forall options w w1 original,
         let path := DecryptOptions.getAbsoluteAttachmentPath options (freshRelativePath w) in
         createWritePath path w = (Err original, w1) ->
         (exists e, outcome (decryptAttachmentV2 options w) = Rejected e
                    /\ cleanedUp path original w1 e (after (decryptAttachmentV2 options w)))
         /\ (exists e, outcome (decryptAndReencryptLocally options w) = Rejected e
                       /\ cleanedUp path original w1 e
                            (after (decryptAndReencryptLocally options w))))
  /\ (forall options w w1 original,
         let path := DecryptOptions.getAbsoluteAttachmentPath options (freshRelativePath w) in
         let decrypting := decryptAttachmentV2ToSink options (FileSink path) w1 in
         createWritePath path w = (Ok tt, w1) ->
         outcome decrypting = Rejected original ->
         exists e, outcome (decryptAttachmentV2 options w) = Rejected e
                   /\ cleanedUp path original (after decrypting) e
                        (after (decryptAttachmentV2 options w)))
  /\ (forall options w w1 keys_ w2 original,
         let path := DecryptOptions.getAbsoluteAttachmentPath options (freshRelativePath w) in
         let encrypting := snd (reencryptPipelines options path keys_ w2) in
         createWritePath path w = (Ok tt, w1) ->
         generateKeys w1 = (Ok keys_, w2) ->
         reencryptError options path keys_ w2 = Some original ->
         exists e, outcome (decryptAndReencryptLocally options w) = Rejected e
                   /\ cleanedUp path original (after encrypting) e
                        (after (decryptAndReencryptLocally options w))).
Proof.
  split; [|split; [|split]].
  - intros args w w1 original path encrypting Hensure Hacc Hiv Hpipe.
    assert (Hrej : outcome encrypting = Rejected original)
      by (apply encryptPipeline_rejected; assumption).
    split; [exact Hrej|].
    unfold encryptAttachmentV2ToDisk. fold path. rewrite Hensure.
    fold encrypting. rewrite Hrej.
    destruct (cleanedUp_safeUnlinkSync path original (after encrypting))
      as (e & He & Hclean).
    exists e.
    destruct (safeUnlinkSync path (after encrypting)) as [[[]|e'] w2];
      cbn [snd] in *; subst e; split; try reflexivity; exact Hclean.
  - intros options w w1 original path Hcreate. split.
    + unfold decryptAttachmentV2. fold path. rewrite Hcreate. apply cleanUp_spec.
    + unfold decryptAndReencryptLocally. fold path. rewrite Hcreate. apply cleanUp_spec.
  - intros options w w1 original path decrypting Hcreate Hrej.
    unfold decryptAttachmentV2. fold path. rewrite Hcreate.
    fold decrypting. rewrite Hrej. apply cleanUp_spec.
  - intros options w w1 keys_ w2 original path encrypting Hcreate Hkeys Herr.
    unfold decryptAndReencryptLocally. fold path. rewrite Hcreate, Hkeys.
    unfold reencryptError in Herr. subst encrypting.
    destruct (reencryptPipelines options path keys_ w2) as [decrypting encrypting].
    destruct (awaitBoth decrypting encrypting) as [result|error|]; try discriminate.
    injection Herr as ->. apply cleanUp_spec.
Qed.

(** * Further properties of the module *)

(** ** The length formula and the cipher *)

(** X1. What [getAesCbcCiphertextLength] computes is the number of bytes the
    AES-256-CBC cipher emits for a stream of that many bytes, however it is
    chunked: more than the input by 1 to 16 bytes, and a multiple of 16. *)
Theorem getAesCbcCiphertextLength_createCipheriv key iv s :
  length key = 32 -> length iv = 16 ->
  let n := length (flat s) in
  exists cipher,
    createCipheriv key iv = Ok cipher
    /\ length (flat (cipher s)) = getAesCbcCiphertextLength n
    /\ n < getAesCbcCiphertextLength n <= n + 16
    /\ getAesCbcCiphertextLength n mod 16 = 0.
Proof using aesEncryptBlock_length.
  intros Hk Hi n. exists (cipherStage key iv).
  split; [apply createCipheriv_ok; assumption|].
  split; [|split].
  - unfold cipherStage. rewrite flat_singleton.
    rewrite (length_cbcEncrypt (1 + n / 16)); try assumption; try lia.
    + apply length_pkcs7Pad.
    + apply pkcs7Pad_blocks.
  - unfold getAesCbcCiphertextLength.
    pose proof (Nat.div_mod_eq n 16).
    pose proof (Nat.mod_upper_bound n 16 ltac:(lia)). lia.
  - unfold getAesCbcCiphertextLength. apply Nat.Div0.mod_mul.
Qed.

(** X2. The length of an attachment's ciphertext is a multiple of 16, at least 49
    bytes more than the plaintext, and, under a pad target that is monotone,
    never smaller for a longer plaintext. *)
Theorem getAttachmentCiphertextLength_overhead m n :
  (forall a b, a <= b -> logPadSize a <= logPadSize b) ->
  m <= n ->
  getAttachmentCiphertextLength m <= getAttachmentCiphertextLength n
  /\ n + 49 <= getAttachmentCiphertextLength n
  /\ getAttachmentCiphertextLength n mod 16 = 0.
Proof using logPadSize_ge.
  intros Hmono Hmn.
  unfold getAttachmentCiphertextLength, getAesCbcCiphertextLength,
    IV_LENGTH, ATTACHMENT_MAC_LENGTH, MAC_LENGTH.
  pose proof (Hmono m n Hmn) as Hp. pose proof (logPadSize_ge n) as Hge.
  pose proof (Nat.Div0.div_le_mono _ _ 16 Hp) as Hdiv.
  pose proof (Nat.div_mod_eq (logPadSize n) 16).
  pose proof (Nat.mod_upper_bound (logPadSize n) 16 ltac:(lia)).
  split; [lia|]. split; [lia|].
  replace (16 + (1 + logPadSize n / 16) * 16 + 32)
    with ((4 + logPadSize n / 16) * 16) by lia.
  apply Nat.Div0.mod_mul.
Qed.

(** ** Unlinking *)

(** X3. Where nothing keeps the file from being unlinked, [safeUnlinkSync]
    returns, leaves no file at the path, touches no other file, logs nothing,
    and does the same when it is called again.  Where the file is there and
    cannot be unlinked, it logs the error of the unlink, throws it, and
    leaves every file as it was. *)
Theorem safeUnlinkSync_removes filePath w :
  let w' := snd (safeUnlinkSync filePath w) in
  (unlinkFault w !! filePath = None ->
   fst (safeUnlinkSync filePath w) = Ok tt
   /\ files w' !! filePath = None
   /\ (forall other, other <> filePath -> files w' !! other = files w !! other)
   /\ logged w' = logged w
   /\ safeUnlinkSync filePath w' = (Ok tt, w'))
  /\ (forall content errno,
         files w !! filePath = Some content ->
         unlinkFault w !! filePath = Some errno ->
         fst (safeUnlinkSync filePath w) = Err (SystemError (UnlinkErrno_code errno))
         /\ files w' = files w
         /\ logged w'
            = logged w ++ [LogError "Failed to unlink"
                                    (SystemError (UnlinkErrno_code errno))]).
Proof.
  intros w'. subst w'. split.
  - intros Hfault. unfold safeUnlinkSync, tryCatch, unlinkSync.
    rewrite Hfault.
    destruct (files w !! filePath) as [content|] eqn:Efile.
    + cbn [fst snd files setFiles unlinkFault logged].
      rewrite Hfault, lookup_delete_eq. cbn [Error_code].
      rewrite bool_decide_eq_true_2 by reflexivity.
      repeat split.
      * intros other Hother. apply lookup_delete_ne. congruence.
    + cbn [Error_code]. rewrite bool_decide_eq_true_2 by reflexivity.
      cbn [negb ret fst snd]. rewrite Hfault, Efile. cbn [Error_code].
      rewrite bool_decide_eq_true_2 by reflexivity. repeat split; exact Efile.
  - intros content errno Hfile Hfault.
    unfold safeUnlinkSync, tryCatch, unlinkSync. rewrite Hfault.
    cbn [Error_code].
    rewrite bool_decide_eq_false_2
      by (intros [= H]; exact (UnlinkErrno_not_ENOENT errno H)).
    repeat split.
Qed.

(** ** The encryptor, read backwards from what it returns *)

Lemma createCipheriv_inv key iv cipher :
  createCipheriv key iv = Ok cipher ->
  length key = 32 /\ length iv = 16 /\ cipher = cipherStage key iv.
Proof.
  unfold createCipheriv, KEY_LENGTH, IV_LENGTH.
  destruct (length key =? 32) eqn:Hk; [|discriminate].
  destruct (length iv =? 16) eqn:Hi; [|discriminate].
  apply Nat.eqb_eq in Hk, Hi. cbn [negb]. intros [= <-]. repeat split; assumption.
Qed.

Lemma prependIv_inv iv prepend :
  prependIv iv = Ok prepend -> length iv = 16 /\ prepend = prependStream iv.
Proof.
  unfold prependIv, strictAssert, IV_LENGTH.
  destruct (length iv =? 16) eqn:Hi; [|discriminate].
  apply Nat.eqb_eq in Hi. intros [= <-]. split; [assumption | reflexivity].
Qed.

Lemma encryptPrologue_inv props w ks iv w0 :
  encryptPrologue "encryptAttachmentV2" props w = (Ok (ks, iv), w0) ->
  optionsAccepted props w.
Proof.
  unfold encryptPrologue, optionsAccepted, bind, liftResult, getEnvironmentM,
    getEnvironment, ret, throw, modify, splitKeys, strictAssert,
    KEY_SET_LENGTH, KEY_LENGTH, MAC_LENGTH, DIGEST_LENGTH.
  simpl Nat.add.
  destruct (length (EncryptProps.keys props) =? 64) eqn:Hk; [|discriminate].
  apply Nat.eqb_eq in Hk.
  destruct (EncryptProps.dangerousIv props) as [[iv_|iv_ d]|];
    destruct (Environment_eqb (environment w) Test) eqn:Henv;
    destruct (EncryptProps.dangerousTestOnlySkipPadding props);
    try destruct (length d =? MAC_LENGTH) eqn:Hd;
    cbn; try rewrite Henv; cbn; try discriminate; intros _;
    try apply Environment_eqb_eq in Henv; try apply Nat.eqb_eq in Hd;
    (split; [exact Hk|]);
    (split; [try exact Henv; try exact Hd; try exact I
            | intros; try assumption; try discriminate]).
Qed.

(** The encryptor returns only on a run that was in order. *)
Lemma encrypt_resolved_ready props sink w r :
  outcome (encryptAttachmentV2 props sink w) = Resolved r ->
  encryptReady props sink w.
Proof.
  unfold encryptAttachmentV2.
  destruct (encryptPrologue "encryptAttachmentV2" props w) as [[[ks iv]|e] w0] eqn:Epro;
    [|discriminate].
  pose proof (encryptPrologue_inv _ _ _ _ _ Epro) as Hacc.
  rewrite (encryptPrologue_accepted _ _ Hacc) in Epro.
  injection Epro as <- <- <-.
  destruct (createCipheriv _ _) as [cipher|e] eqn:Ecipher; [|discriminate].
  apply createCipheriv_inv in Ecipher. destruct Ecipher as (_ & Hiv & ->).
  destruct (prependIv _) as [prepend|e]; [|discriminate].
  unfold pipeline.
  destruct (openSink sink (checkedWorld props w)) as [fault w1] eqn:Eopen.
  destruct (ending (plaintextSource _ _)) eqn:Eend; try discriminate.
  destruct fault; [discriminate|]. intros _.
  unfold encryptReady. rewrite Eopen. repeat split; try assumption; apply Hacc.
Qed.

Lemma firstn_attachmentFrame ks iv padded :
  length iv = 16 -> firstn 16 (attachmentFrame ks iv padded) = iv.
Proof.
  intros Hi. unfold attachmentFrame, frameBody. rewrite <- !app_assoc, <- Hi.
  apply firstn_prefix.
Qed.

Lemma attachmentFrame_mac ks iv padded :
  let frame := attachmentFrame ks iv padded in
  firstn (length frame - 32) frame = frameBody ks iv padded
  /\ skipn (length frame - 32) frame = hmacSha256 (macKey ks) (frameBody ks iv padded).
Proof.
  intros frame. subst frame. unfold attachmentFrame.
  rewrite length_app, length_hmacSha256.
  replace (length (frameBody ks iv padded) + 32 - 32)
    with (length (frameBody ks iv padded)) by lia.
  split; [apply firstn_prefix|].
  rewrite skipn_app, skipn_all, Nat.sub_diag. reflexivity.
Qed.

Lemma checkedWorld_quietly props w : quietly w (checkedWorld props w).
Proof.
  unfold checkedWorld.
  destruct (EncryptProps.dangerousIv props) as [[?|? ?]|];
    [apply quietly_refl | apply quietly_info | apply quietly_same; reflexivity].
Qed.

Lemma ensureFile_logged path w : logged (snd (ensureFile path w)) = logged w.
Proof.
  unfold ensureFile. destruct (openFault w !! path); [reflexivity|].
  destruct (files w !! path); reflexivity.
Qed.

(** ** The file the encryptor leaves on disk *)

(** X4. Whenever [encryptAttachmentV2ToDisk] returns, the path returned is the
    fresh relative path, and the file at its absolute path is the frame the
    result describes: as long as [ciphertextSize], with the IV as its first
    16 bytes, the HMAC-SHA-256 under the second half of the key of all that
    precedes it as its last 32 bytes, and [digest] as its SHA-256; and nothing
    was logged at error level. *)
Theorem encryptAttachmentV2ToDisk_file args w r relativeTargetPath :
  outcome (encryptAttachmentV2ToDisk args w) = Resolved (r, relativeTargetPath) ->
  let absoluteTargetPath :=
    EncryptProps.getAbsoluteAttachmentPath args (freshRelativePath w) in
  relativeTargetPath = freshRelativePath w
  /\ exists frame,
       files (after (encryptAttachmentV2ToDisk args w)) !! absoluteTargetPath
       = Some frame
       /\ length frame = EncryptedAttachmentV2.ciphertextSize r
       /\ firstn 16 frame = EncryptedAttachmentV2.iv r
       /\ hmacSha256 (skipn 32 (EncryptProps.keys args))
                     (firstn (length frame - 32) frame)
          = skipn (length frame - 32) frame
       /\ Sha256.sha256 frame = EncryptedAttachmentV2.digest r
       /\ errorsLogged w (after (encryptAttachmentV2ToDisk args w)) = [].
Proof.
  intros Hres path. unfold encryptAttachmentV2ToDisk in *. fold path in Hres |- *.
  destruct (ensureFile path w) as [[[]|e] w1] eqn:Eensure; [|discriminate].
  destruct (outcome (encryptAttachmentV2 args (Some (FileSink path)) w1))
    as [encryptResult|e|] eqn:Erun.
  2:{ destruct (safeUnlinkSync path _) as [[[]|?] ?]; discriminate. }
  2:{ discriminate. }
  cbn [outcome after] in *. injection Hres as <- <-.
  split; [reflexivity|].
  pose proof (encrypt_resolved_ready _ _ _ _ Erun) as Hready.
  pose proof (encrypt_resolved_inv _ _ _ _ Hready Erun) as Hr.
  destruct Hready as (Hacc & Hiv & Hends & Hsink).
  pose proof (encryptAttachmentV2_run _ _ _ Hacc Hiv Hends Hsink) as Hrun.
  fold (plaintextBytes args w1) in Hrun.
  set (frame := attachmentFrame (halves (EncryptProps.keys args)) (chosenIv args w1)
                  (paddedPlaintext (EncryptProps.dangerousTestOnlySkipPadding args)
                     (plaintextBytes args w1))) in *.
  exists frame. rewrite Hrun. cbn [after].
  destruct (openSink_file _ _ Hsink) as (_ & _ & Hsnd). rewrite Hsnd.
  split.
  { unfold writeSink, setFiles. cbn [files].
    rewrite flat_frameChunks, lookup_insert_eq. reflexivity. }
  rewrite Hr. unfold encryptedOf.
  cbn [EncryptedAttachmentV2.ciphertextSize EncryptedAttachmentV2.iv
       EncryptedAttachmentV2.digest].
  split; [reflexivity|].
  split; [apply firstn_attachmentFrame; exact Hiv|].
  split.
  { destruct (attachmentFrame_mac (halves (EncryptProps.keys args)) (chosenIv args w1)
                (paddedPlaintext (EncryptProps.dangerousTestOnlySkipPadding args)
                   (plaintextBytes args w1))) as [Hbody Hmac].
    fold frame in Hbody, Hmac. rewrite Hbody, Hmac. reflexivity. }
  split; [reflexivity|].
  apply errorsLogged_quietly.
  apply (quietly_trans _ w1).
  { apply quietly_same. pose proof (ensureFile_logged path w) as Hl.
    rewrite Eensure in Hl. exact Hl. }
  apply (quietly_trans _ (checkedWorld args w1)); [apply checkedWorld_quietly|].
  apply quietly_same. reflexivity.
Qed.

(** ** Streamed and in-memory plaintext *)

(** X5. A plaintext streamed in chunks, however it is cut, and the same bytes
    passed in memory give the same call of the encryptor: the same result or
    error, the same bytes to the sink, the same files and log. *)
Theorem encryptAttachmentV2_chunking props s sink w :
  encryptAttachmentV2 (withPlaintext (PlainStream (endingStream s)) props) sink w
  = encryptAttachmentV2 (withPlaintext (PlainData (flat s)) props) sink w.
Proof.
  unfold encryptAttachmentV2.
  change (encryptPrologue "encryptAttachmentV2"
            (withPlaintext (PlainStream (endingStream s)) props) w)
    with (encryptPrologue "encryptAttachmentV2" props w).
  change (encryptPrologue "encryptAttachmentV2"
            (withPlaintext (PlainData (flat s)) props) w)
    with (encryptPrologue "encryptAttachmentV2" props w).
  destruct (encryptPrologue "encryptAttachmentV2" props w) as [[[ks iv]|e] w0];
    [|reflexivity].
  destruct (createCipheriv (aesKey ks) iv) as [cipher|e] eqn:Ecipher; [|reflexivity].
  apply createCipheriv_inv in Ecipher. destruct Ecipher as (_ & _ & ->).
  destruct (prependIv iv) as [prepend|e] eqn:Eprepend; [|reflexivity].
  apply prependIv_inv in Eprepend. destruct Eprepend as (_ & ->).
  unfold pipeline. cbn [withPlaintext EncryptProps.plaintext plaintextSource
                        EncryptProps.dangerousTestOnlySkipPadding endingStream
                        ending chunks].
  destruct (openSink sink w0) as [[fault|] w1]; [reflexivity|].
  rewrite !encryptChain_frame, flat_singleton. reflexivity.
Qed.

(** ** What the encryptor logs *)

Lemma encryptChain_world cipher prepend macKey_ skipPadding source w :
  snd (encryptChain cipher prepend macKey_ skipPadding source w) = w.
Proof.
  unfold encryptChain.
  destruct (peekAndUpdateHash createHash source) as [h1 s1].
  destruct (appendMacStream _ _) as [mac s5].
  destruct (peekAndUpdateHash createHash s5) as [h2 s6].
  destruct (measureSize s6) as [n s7]. reflexivity.
Qed.

Lemma encryptPipeline_quietly source cipher prepend macKey_ skipPadding sink w :
  quietly w (after (pipeline source (encryptChain cipher prepend macKey_ skipPadding)
                      sink w)).
Proof.
  apply pipeline_quietly. intros s w0. rewrite encryptChain_world. apply quietly_refl.
Qed.

Lemma encryptPrologue_quietly props w :
  quietly w (snd (encryptPrologue "encryptAttachmentV2" props w)).
Proof.
  assert (Hq : quietM (encryptPrologue "encryptAttachmentV2" props)); [|apply Hq].
  unfold encryptPrologue.
  apply quietM_bind; [apply quietM_liftResult | intros ks].
  apply quietM_bind.
  { destruct (EncryptProps.dangerousIv props) as [[?|? ?]|]; [| |apply quietM_ret].
    - apply quietM_bind; [intros w0; apply quietly_refl | intros env].
      apply quietM_if; [apply quietM_throw | apply quietM_ret].
    - apply quietM_bind; [apply quietM_liftResult | intros _; apply quietM_info]. }
  intros _.
  apply quietM_bind; [intros w0; apply quietly_refl | intros env].
  apply quietM_bind; [apply quietM_if; [apply quietM_throw | apply quietM_ret]|].
  intros _. apply quietM_bind; [|intros iv; apply quietM_ret].
  destruct (EncryptProps.dangerousIv props); [apply quietM_ret|].
  intros w0. apply quietly_same. reflexivity.
Qed.

Lemma pipeline_resolved_inv (S : Type) source
    (chain : Stream -> World -> Stream * Result S * World) sink w taps :
  outcome (pipeline source chain sink w) = Resolved taps ->
  ending source = Ends /\ fst (openSink sink w) = None.
Proof.
  unfold pipeline. destruct (openSink sink w) as [fault w0].
  destruct (ending source); try discriminate.
  destruct fault; [discriminate|]. split; reflexivity.
Qed.

(** X6. The encryptor logs at error level exactly the failures of its try block.
    A call that returns has logged nothing at error level; neither has one
    that an option check refuses, nor one that gets through the pipeline and
    fails on the digest to match.  A call whose options are accepted and that
    fails because the IV, the source or the sink is not in order has logged
    that error once, as a failure to encrypt. *)
Theorem encryptAttachmentV2_logging props sink w :
  let run := encryptAttachmentV2 props sink w in
  (forall r, outcome run = Resolved r -> errorsLogged w (after run) = [])
  /\ (forall e, fst (encryptPrologue "encryptAttachmentV2" props w) = Err e ->
                outcome run = Rejected e /\ errorsLogged w (after run) = [])
  /\ (forall e, encryptReady props sink w -> outcome run = Rejected e ->
                e = ReencryptedDigestMismatch /\ errorsLogged w (after run) = [])
  /\ (forall e, optionsAccepted props w -> ~ encryptReady props sink w ->
                outcome run = Rejected e ->
                errorsLogged w (after run) = [encryptFailedEntry e]).
Proof.
  intros run.
  assert (Hready : encryptReady props sink w ->
                   errorsLogged w (after run) = []
                   /\ forall e, outcome run = Rejected e -> e = ReencryptedDigestMismatch).
  { intros (Hacc & Hiv & Hends & Hsink). subst run.
    rewrite (encryptAttachmentV2_run _ _ _ Hacc Hiv Hends Hsink). cbn [after outcome].
    split.
    - apply errorsLogged_quietly.
      apply (quietly_trans _ (checkedWorld props w)); [apply checkedWorld_quietly|].
      apply quietly_same. rewrite writeSink_logged. apply openSink_logged.
    - intros e. destruct (digestMatches props _); [discriminate|]. intros [= <-].
      reflexivity. }
  split; [|split; [|split]].
  - intros r Hres. apply Hready. exact (encrypt_resolved_ready _ _ _ _ Hres).
  - intros e Hpro. subst run. unfold encryptAttachmentV2.
    pose proof (encryptPrologue_quietly props w) as Hq.
    destruct (encryptPrologue "encryptAttachmentV2" props w) as [[[ks iv]|e'] w0];
      cbn [fst snd] in *; [discriminate|].
    injection Hpro as ->. split; [reflexivity|].
    apply errorsLogged_quietly. exact Hq.
  - intros e Hr Hrej. destruct (Hready Hr) as [Hlog Herr].
    split; [apply Herr; exact Hrej | exact Hlog].
  - intros e Hacc Hnot. subst run. unfold encryptAttachmentV2.
    rewrite (encryptPrologue_accepted _ _ Hacc).
    pose proof (checkedWorld_quietly props w) as Hq0.
    destruct (createCipheriv _ _) as [cipher|e'] eqn:Ecipher.
    2:{ cbn [outcome after rejected]. intros [= ->].
        apply errorsLogged_log_error. exact Hq0. }
    apply createCipheriv_inv in Ecipher. destruct Ecipher as (_ & Hiv & ->).
    rewrite (prependIv_ok _ Hiv).
    pose proof (encryptPipeline_quietly
                  (plaintextSource (EncryptProps.plaintext props) (checkedWorld props w))
                  (cipherStage (aesKey (halves (EncryptProps.keys props)))
                     (chosenIv props w))
                  (prependStream (chosenIv props w))
                  (macKey (halves (EncryptProps.keys props)))
                  (EncryptProps.dangerousTestOnlySkipPadding props)
                  sink (checkedWorld props w)) as Hq1.
    pose proof (quietly_trans _ _ _ Hq0 Hq1) as Hq.
    set (piped := pipeline _ _ _ _) in *.
    destruct (outcome piped) as [taps|e'|] eqn:Eout; cbn [outcome after].
    + exfalso. apply Hnot.
      destruct (pipeline_resolved_inv _ _ _ _ _ _ Eout) as [Hends Hsink].
      unfold encryptReady. repeat split; try assumption; apply Hacc.
    + intros [= ->]. apply errorsLogged_log_error. exact Hq.
    + discriminate.
Qed.

(** ** The decryptor, read backwards from what it returns *)

Lemma getIvAndDecipher_inv key s iv out :
  getIvAndDecipher key s = Ok (iv, out) ->
  let b := flat s in
  (length b < 16 /\ iv = None /\ out = [])
  \/ (16 <= length b /\ iv = Some (firstn 16 b)
      /\ exists plain, decipherOf key (firstn 16 b) (skipn 16 b) = Ok plain
                       /\ out = [plain]).
Proof.
  unfold getIvAndDecipher, IV_LENGTH.
  destruct (length (flat s) <? 16) eqn:Hlt.
  - apply Nat.ltb_lt in Hlt. intros [= <- <-]. left. repeat split. exact Hlt.
  - apply Nat.ltb_ge in Hlt. unfold createDecipheriv.
    destruct (negb (length key =? KEY_LENGTH)); [discriminate|].
    destruct (negb (length (firstn 16 (flat s)) =? IV_LENGTH)); [discriminate|].
    unfold decipherOf. cbv beta iota zeta.
    match goal with
    | |- match ?X with Ok _ => _ | Err _ => _ end = _ -> _ =>
        destruct X as [plain|e] eqn:Ep; [|discriminate]
    end.
    intros [= <- <-]. right. repeat split; [exact Hlt|].
    exists plain. split; reflexivity.
Qed.

Lemma Hmac_digest_update key_ body :
  Hmac_digest (Hmac_update (createHmac key_) body) = hmacSha256 key_ body.
Proof. reflexivity. Qed.

(** X7. Whenever the decryptor returns on a file without outer layer, the file
    has verified: it is at least 48 bytes long, its last 32 bytes are the
    HMAC-SHA-256 under the MAC key of all that precedes them, where the mode
    is standard its SHA-256 is the digest expected, and the IV returned is
    its first 16 bytes. *)
Theorem decryptAttachmentV2ToSink_verified options sink w d :
  DecryptOptions.outerEncryption options = None ->
  outcome (decryptAttachmentV2ToSink options sink w) = Resolved d ->
  exists ks content,
    decryptKeys options = Ok ks
    /\ files w !! DecryptOptions.ciphertextPath options = Some content
    /\ 48 <= length content
    /\ hmacSha256 (macKey ks) (firstn (length content - 32) content)
       = skipn (length content - 32) content
    /\ (forall theirDigest,
           DecryptOptions.integrity options = TypeStandard theirDigest ->
           Sha256.sha256 content = theirDigest)
    /\ DecryptedAttachmentV2.iv d = firstn 16 content.
Proof using readChunks_flat.
  intros Houter. unfold decryptAttachmentV2ToSink.
  destruct (decryptKeys options) as [ks|e]; [|discriminate].
  destruct (openRead (DecryptOptions.ciphertextPath options) w)
    as [[content|cause] w0] eqn:Eopen; [|discriminate].
  assert (Hfile : files w !! DecryptOptions.ciphertextPath options = Some content).
  { unfold openRead in Eopen.
    destruct (openFault w !! DecryptOptions.ciphertextPath options); [discriminate|].
    destruct (files w !! DecryptOptions.ciphertextPath options); [|discriminate].
    injection Eopen as <- _. reflexivity. }
  destruct (outcome (decryptPipeline options ks sink content w0)) as [taps|e|] eqn:Eout;
    try discriminate.
  cbn [outcome]. intros Hres.
  unfold decryptPipeline, pipeline in Eout.
  destruct (openSink (Some sink) w0) as [fault w1].
  cbn [ending chunks] in Eout.
  destruct (streamFault w0 !! DecryptOptions.ciphertextPath options); [discriminate|].
  destruct fault; [discriminate|].
  unfold decryptChain in Eout.
  destruct (decryptStages options ks (readChunks content)) as [st|e] eqn:Est;
    [|discriminate].
  destruct (finalizer _ _ _ _ _ _ _ w1) as [[[]|e] w2] eqn:Efin;
    cbn [outcome] in Eout; [|discriminate].
  injection Eout as <-.
  unfold decryptStages in Est. rewrite Houter in Est. cbn [option_map] in Est.
  rewrite peekAndUpdateHash_spec in Est.
  destruct (getMacAndUpdateHmac _ (readChunks content)) as [[[hmac theirMac] s4]|e]
    eqn:Emac; [|discriminate].
  apply getMacAndUpdateHmac_inv in Emac. rewrite readChunks_flat in Emac.
  destruct Emac as (Hlen & -> & -> & ->).
  destruct (getIvAndDecipher _ _) as [[iv s5]|e] eqn:Eiv; [|discriminate].
  apply getIvAndDecipher_inv in Eiv. rewrite flat_singleton in Eiv.
  destruct (peekAndUpdateHash createHash (trimPadding _ s5)) as [plaintextHash s7].
  injection Est as <-.
  cbn [stHmac stDigest stTheirMac stOuterHmac stTheirOuterMac stIv stPlaintextHash]
    in *.
  rewrite readChunks_flat in Efin.
  set (body := firstn (length content - 32) content) in *.
  set (mac := skipn (length content - 32) content) in *.
  assert (Hmaclen : length mac = 32) by (subst mac; rewrite length_skipn; lia).
  assert (Hbodylen : length body = length content - 32)
    by (subst body; rewrite length_firstn; lia).
  pose proof (finalizer_eval (decryptLogId options) options
                (Hmac_update (createHmac (macKey ks)) body) {| hashed := content |}
                mac None None w1 Hmaclen) as Heval.
  assert (Hfst : fst (finalizer (decryptLogId options) options
                        (Hmac_update (createHmac (macKey ks)) body)
                        {| hashed := content |} (Some mac) None None w1) = Ok tt)
    by (rewrite Efin; reflexivity).
  pose proof (eq_trans (eq_sym Heval) Hfst) as Hchecks. clear Heval Hfst.
  rename Hchecks into Heval.
  rewrite Hmac_digest_update in Heval.
  destruct (constantTimeEqual (hmacSha256 (macKey ks) body) mac) eqn:Emac;
    [|discriminate].
  apply constantTimeEqual_iff in Emac. cbn [negb] in Heval.
  destruct Eiv as [(_ & -> & _) | (Hlong & -> & _)].
  { unfold decryptEpilogue in Hres. cbn [seenIv seenPlaintextHash] in Hres.
    destruct (strictAssert _ _); discriminate. }
  unfold decryptEpilogue in Hres. cbn [seenIv seenPlaintextHash] in Hres.
  destruct (strictAssert _ _); [|discriminate].
  destruct (length (firstn 16 body) =? IV_LENGTH); [|discriminate].
  injection Hres as <-. cbn [DecryptedAttachmentV2.iv].
  exists ks, content. repeat split; try assumption; try lia.
  - intros theirDigest Hstd. rewrite Hstd in Heval.
    destruct (constantTimeEqual (Hash_digest {| hashed := content |}) theirDigest)
      eqn:Edigest; [|discriminate].
    apply constantTimeEqual_iff in Edigest. exact Edigest.
  - subst body. rewrite firstn_firstn. f_equal. lia.
Qed.

(** ** The decryptor on a frame, for any declared size and any sink *)

Lemma finalizer_passes_world options hmac digest (theirMac : Bytes) w :
  length theirMac = 32 -> Hmac_digest hmac = theirMac ->
  digestPasses options digest ->
  DecryptOptions.outerEncryption options = None ->
  finalizer (decryptLogId options) options hmac digest (Some theirMac) None None w
  = (Ok tt, finalizedWorld options w).
Proof.
  intros Hlen Hmac Hpass Houter.
  unfold finalizer, finalizedWorld, bind, liftResult, strictAssert, ret, throw, modify.
  rewrite length_Hmac_digest, length_Hash_digest, !Nat.eqb_refl.
  unfold ATTACHMENT_MAC_LENGTH, MAC_LENGTH. rewrite Hlen. cbn [Nat.eqb].
  rewrite Hmac, constantTimeEqual_refl. cbn [negb].
  rewrite Houter. unfold digestPasses in Hpass.
  destruct (DecryptOptions.integrity options) as [d| |]; try reflexivity.
  rewrite Hpass, constantTimeEqual_refl. reflexivity.
Qed.

Lemma decryptStages_delivered options ks iv padded source :
  DecryptOptions.outerEncryption options = None ->
  length (aesKey ks) = 32 -> length iv = 16 ->
  flat source = attachmentFrame ks iv padded ->
  decryptStages options ks source
  = Ok {| stDigest := {| hashed := flat source |};
          stHmac := {| hmacKey := macKey ks; hmacked := frameBody ks iv padded |};
          stTheirMac := Some (hmacSha256 (macKey ks) (frameBody ks iv padded));
          stOuterHmac := None; stTheirOuterMac := None;
          stIv := Some iv;
          stPlaintextHash := {| hashed := delivered options padded |};
          stOut := [delivered options padded] |}.
Proof using aesEncryptBlock_length aesDecryptBlock_encrypt.
  intros Houter Hk Hi Hflat. unfold decryptStages.
  rewrite Houter. cbn [option_map]. rewrite peekAndUpdateHash_spec.
  rewrite (getMacAndUpdateHmac_frame (macKey ks) _ _ source
             (length_hmacSha256 _ _) Hflat).
  rewrite (getIvAndDecipher_frame ks iv _ Hk Hi).
  cbn [trimPadding]. fold (delivered options padded).
  rewrite peekAndUpdateHash_spec, flat_singleton. reflexivity.
Qed.

Lemma decryptAttachmentV2ToSink_delivers options sink ks iv padded w :
  let frame := attachmentFrame ks iv padded in
  let plain := delivered options padded in
  decryptKeys options = Ok ks ->
  length (aesKey ks) = 32 -> length iv = 16 ->
  openFault w !! DecryptOptions.ciphertextPath options = None ->
  streamFault w !! DecryptOptions.ciphertextPath options = None ->
  files w !! DecryptOptions.ciphertextPath options = Some frame ->
  DecryptOptions.outerEncryption options = None ->
  expectsDigest (Sha256.sha256 frame) options ->
  fst (openSink (Some sink) w) = None ->
  decryptAttachmentV2ToSink options sink w
  = {| outcome := Resolved {| DecryptedAttachmentV2.path := None;
                              DecryptedAttachmentV2.iv := iv;
                              DecryptedAttachmentV2.plaintextHash := sha256hex plain |};
       sinkView := {| chunks := [plain]; ending := Ends |};
       after := decryptedWorld options sink plain w |}.
Proof using aesEncryptBlock_length aesDecryptBlock_encrypt readChunks_flat.
  intros frame plain Hkeys Hak Hivlen Hof Hsf Hfile Houter Hdigest Hsink.
  unfold decryptAttachmentV2ToSink. rewrite Hkeys.
  unfold openRead. rewrite Hof, Hfile.
  unfold decryptPipeline.
  change (streamFault (setOpenFds (S (openFds w)) w)) with (streamFault w).
  rewrite Hsf. unfold pipeline.
  assert (Hsink' : fst (openSink (Some sink) (setOpenFds (S (openFds w)) w)) = None).
  { destruct sink as [p|fault]; [|exact Hsink].
    unfold openSink in *. cbn [openFault streamFault files setOpenFds] in *.
    destruct (openFault w !! p); [discriminate|exact Hsink]. }
  unfold decryptedWorld.
  destruct (openSink (Some sink) (setOpenFds (S (openFds w)) w)) as [fault w1].
  cbn [fst snd] in *. subst fault. cbn [ending chunks].
  unfold decryptChain.
  rewrite (decryptStages_delivered options ks iv padded (readChunks frame)
             Houter Hak Hivlen (readChunks_flat _)).
  cbn [stHmac stDigest stTheirMac stOuterHmac stTheirOuterMac stOut stIv
       stPlaintextHash].
  rewrite finalizer_passes_world;
    [ | apply length_hmacSha256 | reflexivity | | exact Houter].
  2:{ unfold digestPasses, Hash_digest. cbn [hashed]. rewrite readChunks_flat.
      unfold expectsDigest in Hdigest.
      destruct (DecryptOptions.integrity options);
        [symmetry; exact Hdigest | exact I | exact I]. }
  cbn [outcome sinkView after].
  unfold decryptEpilogue. cbn [seenPlaintextHash seenIv].
  rewrite length_Hash_digest_hex, Nat.eqb_refl. unfold strictAssert.
  unfold IV_LENGTH. rewrite Hivlen. reflexivity.
Qed.

Lemma decryptedWorld_fields options sink plain w :
  fst (openSink (Some sink) w) = None ->
  let w' := decryptedWorld options sink plain w in
  files w' = match sink with
             | FileSink path => <[path := plain]> (files w)
             | MemorySink _ => files w
             end
  /\ openFault w' = openFault w /\ streamFault w' = streamFault w
  /\ unlinkFault w' = unlinkFault w /\ openFds w' = openFds w
  /\ environment w' = environment w /\ entropy w' = entropy w
  /\ quietly w w'.
Proof.
  intros Hsink w'. subst w'. unfold decryptedWorld, finalizedWorld, close.
  destruct sink as [path|fault]; unfold openSink in *;
    cbn [openFault streamFault files setOpenFds] in *.
  - destruct (openFault w !! path); [discriminate|].
    destruct (DecryptOptions.integrity options);
      cbn; rewrite app_nil_r, insert_insert_eq;
      repeat split; try reflexivity;
      first [apply quietly_same; reflexivity
            | eexists; split; [reflexivity | repeat constructor]].
  - destruct (DecryptOptions.integrity options);
      cbn; repeat split; try reflexivity;
      first [apply quietly_same; reflexivity
            | eexists; split; [reflexivity | repeat constructor]].
Qed.

Lemma firstn_deciphered_le size padded :
  size <= length padded -> firstn size (deciphered padded) = firstn size padded.
Proof.
  intros Hle. unfold deciphered, pkcs7Pad. destruct autoPadding; [reflexivity|].
  rewrite firstn_app. replace (size - length padded) with 0 by lia.
  rewrite firstn_O. apply app_nil_r.
Qed.

Lemma firstn_repeat_le (A : Type) (x : A) n k :
  n <= k -> firstn n (repeat x k) = repeat x n.
Proof.
  revert k. induction n as [|n IH]; intros k Hle; [reflexivity|].
  destruct k as [|k]; [lia|]. cbn [repeat firstn]. rewrite IH by lia. reflexivity.
Qed.

Lemma firstn_paddedPlaintext skipPadding P size :
  size <= length (paddedPlaintext skipPadding P) ->
  (size <= length P -> firstn size (paddedPlaintext skipPadding P) = firstn size P)
  /\ (length P <= size ->
      firstn size (paddedPlaintext skipPadding P) = P ++ repeat 0%Z (size - length P)).
Proof.
  unfold paddedPlaintext. destruct skipPadding.
  - intros Hle. split; [reflexivity|]. intros Hge.
    replace (size - length P) with 0 by lia. cbn [repeat].
    rewrite app_nil_r. apply firstn_all2. exact Hge.
  - rewrite length_app, repeat_length. intros Hle. split; intros H.
    + rewrite firstn_app. replace (size - length P) with 0 by lia.
      rewrite firstn_O. apply app_nil_r.
    + rewrite firstn_app, firstn_all2 by exact H. f_equal.
      apply firstn_repeat_le. lia.
Qed.

(** ** The declared size *)

(** X8. The decryptor takes the declared size on trust.  On the frame of a
    plaintext [P], with a size that does not exceed the padded length, it
    returns; the sink receives the first [size] bytes of the padded
    plaintext, a prefix of [P] when the size is too small, [P] followed by
    zero bytes when it is too large; and the plaintext hash returned is the
    hash of those bytes. *)
Theorem decryptAttachmentV2ToSink_declared_size options sink ks iv skipPadding P w :
  let padded := paddedPlaintext skipPadding P in
  let frame := attachmentFrame ks iv padded in
  let size := DecryptOptions.size options in
  let run := decryptAttachmentV2ToSink options sink w in
  decryptKeys options = Ok ks ->
  length (aesKey ks) = 32 -> length iv = 16 ->
  openFault w !! DecryptOptions.ciphertextPath options = None ->
  streamFault w !! DecryptOptions.ciphertextPath options = None ->
  files w !! DecryptOptions.ciphertextPath options = Some frame ->
  DecryptOptions.outerEncryption options = None ->
  expectsDigest (Sha256.sha256 frame) options ->
  fst (openSink (Some sink) w) = None ->
  size <= length padded ->
  outcome run
  = Resolved {| DecryptedAttachmentV2.path := None;
                DecryptedAttachmentV2.iv := iv;
                DecryptedAttachmentV2.plaintextHash := sha256hex (firstn size padded) |}
  /\ flat (chunks (sinkView run)) = firstn size padded
  /\ ending (sinkView run) = Ends
  /\ (size <= length P -> firstn size padded = firstn size P)
  /\ (length P <= size -> firstn size padded = P ++ repeat 0%Z (size - length P)).
Proof using aesEncryptBlock_length aesDecryptBlock_encrypt readChunks_flat.
  intros padded frame size run Hkeys Hak Hivlen Hof Hsf Hfile Houter Hdigest Hsink Hsize.
  subst run.
  rewrite (decryptAttachmentV2ToSink_delivers options sink ks iv padded w
             Hkeys Hak Hivlen Hof Hsf Hfile Houter Hdigest Hsink).
  cbn [outcome sinkView chunks ending]. unfold delivered. fold size.
  rewrite (firstn_deciphered_le _ _ Hsize), flat_singleton.
  split; [reflexivity|]. split; [reflexivity|]. split; [reflexivity|].
  apply firstn_paddedPlaintext. exact Hsize.
Qed.

(** ** From disk to disk *)

Lemma ensureFile_ok path w w1 :
  ensureFile path w = (Ok tt, w1) ->
  openFault w !! path = None
  /\ is_Some (files w1 !! path)
  /\ (forall other, other <> path -> files w1 !! other = files w !! other)
  /\ openFault w1 = openFault w /\ streamFault w1 = streamFault w
  /\ unlinkFault w1 = unlinkFault w /\ openFds w1 = openFds w
  /\ environment w1 = environment w /\ entropy w1 = entropy w
  /\ logged w1 = logged w.
Proof.
  unfold ensureFile. destruct (openFault w !! path) eqn:Eo; [discriminate|].
  destruct (files w !! path) as [content|] eqn:Ef; intros [= <-].
  - repeat split. rewrite Ef. eexists; reflexivity.
  - cbn. repeat split.
    + rewrite lookup_insert_eq. eexists; reflexivity.
    + intros other Hother. apply lookup_insert_ne. congruence.
Qed.

Lemma checkedWorld_fields props w :
  files (checkedWorld props w) = files w
  /\ openFault (checkedWorld props w) = openFault w
  /\ streamFault (checkedWorld props w) = streamFault w
  /\ unlinkFault (checkedWorld props w) = unlinkFault w
  /\ openFds (checkedWorld props w) = openFds w
  /\ environment (checkedWorld props w) = environment w.
Proof.
  unfold checkedWorld.
  destruct (EncryptProps.dangerousIv props) as [[?|? ?]|]; repeat split.
Qed.

(** What a call of [encryptAttachmentV2ToDisk] that returns has done. *)
Lemma encryptAttachmentV2ToDisk_inv args w r relativeTargetPath :
  outcome (encryptAttachmentV2ToDisk args w) = Resolved (r, relativeTargetPath) ->
  let path := EncryptProps.getAbsoluteAttachmentPath args (freshRelativePath w) in
  let w0 := snd (ensureFile path w) in
  let w1 := after (encryptAttachmentV2ToDisk args w) in
  let ks := halves (EncryptProps.keys args) in
  let skipPadding := EncryptProps.dangerousTestOnlySkipPadding args in
  relativeTargetPath = freshRelativePath w
  /\ length (EncryptProps.keys args) = 64
  /\ exists iv,
       length iv = 16
       /\ r = encryptedOf ks iv skipPadding (plaintextBytes args w0)
       /\ files w1 !! path
          = Some (attachmentFrame ks iv
                    (paddedPlaintext skipPadding (plaintextBytes args w0)))
       /\ (forall other, other <> path -> files w1 !! other = files w !! other)
       /\ openFault w1 = openFault w /\ streamFault w1 = streamFault w
       /\ unlinkFault w1 = unlinkFault w /\ openFds w1 = openFds w
       /\ environment w1 = environment w
       /\ openFault w !! path = None /\ streamFault w !! path = None.
Proof.
  intros Hres path w0 w1 ks skipPadding. subst w0 w1.
  unfold encryptAttachmentV2ToDisk in *. fold path in Hres |- *.
  destruct (ensureFile path w) as [[[]|e] w0] eqn:Eensure; [|discriminate].
  destruct (ensureFile_ok _ _ _ Eensure)
    as (Hof & _ & Hothers & Hof0 & Hsf0 & Huf0 & Hfd0 & Henv0 & _).
  destruct (outcome (encryptAttachmentV2 args (Some (FileSink path)) w0))
    as [encryptResult|e|] eqn:Erun.
  2:{ destruct (safeUnlinkSync path _) as [[[]|?] ?]; discriminate. }
  2:{ discriminate. }
  cbn [outcome after snd] in *. injection Hres as <- <-.
  split; [reflexivity|].
  pose proof (encrypt_resolved_ready _ _ _ _ Erun) as Hready.
  pose proof (encrypt_resolved_inv _ _ _ _ Hready Erun) as Hr.
  destruct Hready as (Hacc & Hiv & Hends & Hsink).
  split; [apply Hacc|].
  exists (chosenIv args w0). split; [exact Hiv|]. split; [exact Hr|].
  rewrite (encryptAttachmentV2_run _ _ _ Hacc Hiv Hends Hsink). cbn [after].
  destruct (openSink_file _ _ Hsink) as (Hofc & Hsfc & Hsnd). rewrite Hsnd.
  destruct (checkedWorld_fields args w0) as (Hcf & Hco & Hcs & Hcu & Hcd & Hce).
  unfold writeSink, setFiles.
  cbn [files openFault streamFault unlinkFault openFds environment].
  rewrite flat_frameChunks, lookup_insert_eq.
  rewrite Hco, Hcs, Hcu, Hcd, Hce, Hof0, Hsf0, Huf0, Hfd0, Henv0.
  rewrite Hco, Hof0 in Hofc. rewrite Hcs, Hsf0 in Hsfc.
  repeat split; try assumption.
  intros other Hother. rewrite !lookup_insert_ne by congruence.
  rewrite Hcf. apply Hothers. exact Hother.
Qed.

Lemma createWritePath_ok path w :
  openFault w !! path = None ->
  createWritePath path w = (Ok tt, writePathWorld path w).
Proof.
  intros Hof. unfold createWritePath, tryCatch, bind, ensureFile, openWrite,
    writePathWorld.
  rewrite Hof. destruct (files w !! path); cbn; rewrite Hof; [reflexivity|].
  cbn. rewrite insert_insert_eq. reflexivity.
Qed.

(** X9. A plaintext encrypted to disk and decrypted to disk comes back.  Let
    [encryptAttachmentV2ToDisk] return for a plaintext [P] given in memory,
    and call [decryptAttachmentV2] on the file it wrote, with the same key,
    the size of [P] and, in the standard mode, the digest returned.  If the
    decryptor's output path is another path, at which a file can be written,
    the decryptor returns that path, the file there holds exactly [P], the
    hash and the IV returned are the encryptor's, the ciphertext file is
    untouched, and every handle is closed again. *)
Theorem decryptAttachmentV2_encryptAttachmentV2ToDisk args options P w r relativePath :
  let w1 := after (encryptAttachmentV2ToDisk args w) in
  let target :=
    DecryptOptions.getAbsoluteAttachmentPath options (freshRelativePath w1) in
  let decrypting := decryptAttachmentV2 options w1 in
  EncryptProps.plaintext args = PlainData P ->
  outcome (encryptAttachmentV2ToDisk args w) = Resolved (r, relativePath) ->
  DecryptOptions.ciphertextPath options
  = EncryptProps.getAbsoluteAttachmentPath args relativePath ->
  DecryptOptions.size options = length P ->
  DecryptOptions.outerEncryption options = None ->
  sameKeys (EncryptProps.keys args) options ->
  expectsDigest (EncryptedAttachmentV2.digest r) options ->
  target <> DecryptOptions.ciphertextPath options ->
  openFault w1 !! target = None -> streamFault w1 !! target = None ->
  outcome decrypting
  = Resolved {| DecryptedAttachmentV2.path := Some (freshRelativePath w1);
                DecryptedAttachmentV2.iv := EncryptedAttachmentV2.iv r;
                DecryptedAttachmentV2.plaintextHash :=
                  EncryptedAttachmentV2.plaintextHash r |}
  /\ EncryptedAttachmentV2.plaintextHash r = sha256hex P
  /\ files (after decrypting) !! target = Some P
  /\ files (after decrypting) !! DecryptOptions.ciphertextPath options
     = files w1 !! DecryptOptions.ciphertextPath options
  /\ openFds (after decrypting) = openFds w.
Proof using aesEncryptBlock_length aesDecryptBlock_encrypt readChunks_flat.
  intros w1 target decrypting Hdata Hres Hpath Hsize Houter Hkeys Hdigest
    Hdiff Hof Hsf.
  destruct (encryptAttachmentV2ToDisk_inv _ _ _ _ Hres)
    as (-> & Hklen & iv & Hivlen & Hr & Hfile & _ & Hof1 & Hsf1 & _ & Hfd1 & _ & Hofp & Hsfp).
  fold w1 in Hfile, Hof1, Hsf1, Hfd1.
  assert (HP : plaintextBytes args
                 (snd (ensureFile (EncryptProps.getAbsoluteAttachmentPath args
                                     (freshRelativePath w)) w)) = P).
  { unfold plaintextBytes. rewrite Hdata. cbn [plaintextSource chunks].
    apply flat_singleton. }
  rewrite HP in Hr, Hfile. rewrite <- Hpath in Hfile, Hofp, Hsfp.
  set (padded := paddedPlaintext (EncryptProps.dangerousTestOnlySkipPadding args) P) in *.
  set (ks := halves (EncryptProps.keys args)) in *.
  destruct (length_halves _ Hklen) as [Hak _]. fold ks in Hak.
  subst decrypting. unfold decryptAttachmentV2. fold target.
  rewrite (createWritePath_ok _ _ Hof).
  rewrite (decryptAttachmentV2ToSink_delivers options (FileSink target) ks iv padded
             (writePathWorld target w1)).
  - assert (Hplain : delivered options padded = P).
    { unfold delivered. rewrite Hsize. apply firstn_deciphered. }
    rewrite Hplain. cbn [outcome after DecryptedAttachmentV2.iv
                         DecryptedAttachmentV2.plaintextHash].
    assert (Hsink : fst (openSink (Some (FileSink target)) (writePathWorld target w1))
                    = None).
    { unfold openSink, writePathWorld. cbn [openFault streamFault setOpenFds setFiles].
      rewrite Hof. exact Hsf. }
    destruct (decryptedWorld_fields options (FileSink target) P
                (writePathWorld target w1) Hsink)
      as (Hfiles & _ & _ & _ & Hfds & _).
    unfold close. cbn [files openFds setOpenFds]. rewrite Hfiles, Hfds.
    rewrite Hr. unfold encryptedOf.
    cbn [EncryptedAttachmentV2.iv EncryptedAttachmentV2.plaintextHash].
    split; [reflexivity|]. split; [reflexivity|].
    split; [apply lookup_insert_eq|].
    unfold writePathWorld. cbn [files openFds setOpenFds setFiles].
    split; [|exact Hfd1].
    rewrite !lookup_insert_ne by exact Hdiff. reflexivity.
  - apply decryptKeys_sameKeys; assumption.
  - exact Hak.
  - exact Hivlen.
  - unfold writePathWorld. cbn [openFault setOpenFds setFiles]. rewrite Hof1. exact Hofp.
  - unfold writePathWorld. cbn [streamFault setOpenFds setFiles]. rewrite Hsf1.
    exact Hsfp.
  - unfold writePathWorld. cbn [files setOpenFds setFiles].
    rewrite lookup_insert_ne by exact Hdiff. exact Hfile.
  - exact Houter.
  - rewrite Hr in Hdigest. exact Hdigest.
  - unfold openSink, writePathWorld. cbn [openFault streamFault setOpenFds setFiles].
    rewrite Hof. exact Hsf.
Qed.

(** ** Re-encrypting locally *)

Lemma drawn_length w from n : length (drawn w from n) = n.
Proof. unfold drawn. rewrite length_map, length_seq. reflexivity. Qed.

Lemma decryptAndReencryptLocally_run options ks iv skipPadding P w :
  let frame := attachmentFrame ks iv (paddedPlaintext skipPadding P) in
  let source := DecryptOptions.ciphertextPath options in
  let target :=
    DecryptOptions.getAbsoluteAttachmentPath options (freshRelativePath w) in
  let keys_ := drawn w 0 64 in
  let run := decryptAndReencryptLocally options w in
  decryptKeys options = Ok ks ->
  length (aesKey ks) = 32 -> length iv = 16 ->
  files w !! source = Some frame ->
  openFault w !! source = None -> streamFault w !! source = None ->
  DecryptOptions.size options = length P ->
  DecryptOptions.outerEncryption options = None ->
  expectsDigest (Sha256.sha256 frame) options ->
  target <> source ->
  openFault w !! target = None -> streamFault w !! target = None ->
  outcome run
  = Resolved {| ReencryptedAttachmentV2.path := freshRelativePath w;
                ReencryptedAttachmentV2.iv := toBase64 iv;
                ReencryptedAttachmentV2.plaintextHash := sha256hex P;
                ReencryptedAttachmentV2.localKey := toBase64 keys_;
                ReencryptedAttachmentV2.version := 2 |}
  /\ files (after run) !! target
     = Some (attachmentFrame (halves keys_) (drawn w 64 16) (paddedPlaintext false P))
  /\ files (after run) !! source = Some frame
  /\ openFds (after run) = openFds w
  /\ openFault (after run) = openFault w
  /\ streamFault (after run) = streamFault w.
Proof using aesEncryptBlock_length aesDecryptBlock_encrypt readChunks_flat.
  intros frame source target keys_ run Hkeys Hak Hivlen Hfile Hofs Hsfs Hsize Houter
    Hdigest Hdiff Hoft Hsft.
  subst run. unfold decryptAndReencryptLocally. fold target.
  rewrite (createWritePath_ok _ _ Hoft).
  unfold generateKeys, randomBytes. change KEY_SET_LENGTH with 64.
  unfold reencryptPipelines.
  set (w2 := setEntropy _ (writePathWorld target w)).
  change (map (entropy (writePathWorld target w)) (seq 0 64)) with keys_.
  assert (Hplain : delivered options (paddedPlaintext skipPadding P) = P).
  { unfold delivered. rewrite Hsize. apply firstn_deciphered. }
  assert (Hfile2 : files w2 !! source = Some frame).
  { subst w2. unfold writePathWorld. cbn [files setEntropy setOpenFds setFiles].
    rewrite lookup_insert_ne by exact Hdiff. exact Hfile. }
  rewrite (decryptAttachmentV2ToSink_delivers options (MemorySink None) ks iv
             (paddedPlaintext skipPadding P) w2
             Hkeys Hak Hivlen Hofs Hsfs Hfile2 Houter Hdigest eq_refl).
  rewrite Hplain. cbn [sinkView after].
  destruct (decryptedWorld_fields options (MemorySink None) P w2 eq_refl)
    as (Hf3 & Ho3 & Hs3 & _ & Hd3 & _ & He3 & _).
  set (w3 := decryptedWorld options (MemorySink None) P w2) in *.
  set (props := {| EncryptProps.plaintext := PlainStream {| chunks := [P]; ending := Ends |};
                   EncryptProps.keys := keys_;
                   EncryptProps.dangerousIv := None;
                   EncryptProps.dangerousTestOnlySkipPadding := false;
                   EncryptProps.getAbsoluteAttachmentPath :=
                     DecryptOptions.getAbsoluteAttachmentPath options |}).
  assert (Hacc : optionsAccepted props w3).
  { unfold optionsAccepted, props.
    cbn [EncryptProps.keys EncryptProps.dangerousIv
         EncryptProps.dangerousTestOnlySkipPadding].
    split; [apply drawn_length|]. split; [exact I|]. intros [=]. }
  assert (Hiv : length (chosenIv props w3) = 16).
  { unfold chosenIv, props. cbn [EncryptProps.dangerousIv].
    rewrite length_map, length_seq. reflexivity. }
  assert (Hsink : fst (openSink (Some (FileSink target)) (checkedWorld props w3)) = None).
  { unfold openSink, checkedWorld. cbn [EncryptProps.dangerousIv props openFault
      streamFault setEntropy]. rewrite Ho3, Hs3. subst w2. unfold writePathWorld.
    cbn [openFault streamFault setEntropy setOpenFds setFiles].
    rewrite Hoft. exact Hsft. }
  pose proof (encryptAttachmentV2_run props (Some (FileSink target)) w3
                Hacc Hiv eq_refl Hsink) as Hrun.
  cbv zeta in Hrun. rewrite Hrun. clear Hrun.
  rewrite (digestMatches_noDigest props) by exact I.
  assert (Hchosen : chosenIv props w3 = drawn w 64 16).
  { unfold chosenIv, props, drawn. cbn [EncryptProps.dangerousIv].
    rewrite He3. reflexivity. }
  rewrite Hchosen.
  destruct (openSink_file _ _ Hsink) as (_ & _ & Hsnd). rewrite Hsnd.
  cbn [awaitBoth outcome after DecryptedAttachmentV2.iv
       DecryptedAttachmentV2.plaintextHash].
  split; [reflexivity|].
  unfold close, writeSink, checkedWorld.
  cbn [props EncryptProps.dangerousIv EncryptProps.keys EncryptProps.plaintext
       EncryptProps.dangerousTestOnlySkipPadding plaintextSource chunks
       files openFds openFault streamFault setOpenFds setFiles setEntropy].
  rewrite flat_frameChunks, flat_singleton, Hd3.
  split; [apply lookup_insert_eq|].
  split; [rewrite !lookup_insert_ne by exact Hdiff; rewrite Hf3; exact Hfile2|].
  split; [reflexivity|].
  rewrite Ho3, Hs3. split; reflexivity.
Qed.

(** X10. [decryptAndReencryptLocally] on a file that holds the frame of a
    plaintext [P]: with the key of the frame, the size of [P], an output path
    that is another path and can be written, it returns the fresh relative
    path, version 2, the hash of [P], as [localKey] the base64 of 64 bytes
    drawn from [randomBytes], and as [iv] the base64 of the IV of the frame
    it read, not of the one it wrote.  The file at the output path is the
    frame of [P] under the drawn key and the 16 bytes drawn next; the file
    read is untouched and every handle is closed again.  Where the base64
    codec gives the drawn key back, decrypting the output file as a local
    attachment with [localKey] and the size of [P] yields [P]. *)
Theorem decryptAndReencryptLocally_reencrypts options ks iv skipPadding P w :
  let frame := attachmentFrame ks iv (paddedPlaintext skipPadding P) in
  let source := DecryptOptions.ciphertextPath options in
  let target :=
    DecryptOptions.getAbsoluteAttachmentPath options (freshRelativePath w) in
  let keys_ := drawn w 0 64 in
  let run := decryptAndReencryptLocally options w in
  decryptKeys options = Ok ks ->
  length (aesKey ks) = 32 -> length iv = 16 ->
  files w !! source = Some frame ->
  openFault w !! source = None -> streamFault w !! source = None ->
  DecryptOptions.size options = length P ->
  DecryptOptions.outerEncryption options = None ->
  expectsDigest (Sha256.sha256 frame) options ->
  target <> source ->
  openFault w !! target = None -> streamFault w !! target = None ->
  outcome run
  = Resolved {| ReencryptedAttachmentV2.path := freshRelativePath w;
                ReencryptedAttachmentV2.iv := toBase64 iv;
                ReencryptedAttachmentV2.plaintextHash := sha256hex P;
                ReencryptedAttachmentV2.localKey := toBase64 keys_;
                ReencryptedAttachmentV2.version := 2 |}
  /\ files (after run) !! target
     = Some (attachmentFrame (halves keys_) (drawn w 64 16) (paddedPlaintext false P))
  /\ files (after run) !! source = Some frame
  /\ openFds (after run) = openFds w
  /\ (fromBase64 (toBase64 keys_) = keys_ ->
      forall local,
        DecryptOptions.ciphertextPath local = target ->
        DecryptOptions.keyMaterial local = KeysBase64 (toBase64 keys_) ->
        DecryptOptions.integrity local = TypeLocal ->
        DecryptOptions.size local = length P ->
        DecryptOptions.outerEncryption local = None ->
        let again := decryptAttachmentV2ToSink local (MemorySink None) (after run) in
        outcome again
        = Resolved {| DecryptedAttachmentV2.path := None;
                      DecryptedAttachmentV2.iv := drawn w 64 16;
                      DecryptedAttachmentV2.plaintextHash := sha256hex P |}
        /\ flat (chunks (sinkView again)) = P).
Proof using aesEncryptBlock_length aesDecryptBlock_encrypt readChunks_flat.
  intros frame source target keys_ run Hkeys Hak Hivlen Hfile Hofs Hsfs Hsize Houter
    Hdigest Hdiff Hoft Hsft.
  destruct (decryptAndReencryptLocally_run options ks iv skipPadding P w
              Hkeys Hak Hivlen Hfile Hofs Hsfs Hsize Houter Hdigest Hdiff Hoft Hsft)
    as (Hout & Htarget & Hsource & Hfds & Hof & Hsf).
  fold target keys_ run in Hout, Htarget, Hsource, Hfds, Hof, Hsf.
  repeat (split; [assumption|]).
  intros Hcodec local Hpath Hmaterial Hlocal Hsize' Houter' again. subst again.
  destruct (length_halves keys_ (drawn_length w 0 64)) as [Hak' _].
  rewrite (decryptAttachmentV2ToSink_delivers local (MemorySink None) (halves keys_)
             (drawn w 64 16) (paddedPlaintext false P) (after run)).
  - cbn [outcome sinkView chunks]. unfold delivered. rewrite Hsize', firstn_deciphered.
    split; [reflexivity | apply flat_singleton].
  - unfold decryptKeys. rewrite Hmaterial, Hcodec. apply splitKeys_ok, drawn_length.
  - exact Hak'.
  - apply drawn_length.
  - rewrite Hpath, Hof. exact Hoft.
  - rewrite Hpath, Hsf. exact Hsft.
  - rewrite Hpath. exact Htarget.
  - exact Houter'.
  - unfold expectsDigest. rewrite Hlocal. exact I.
  - reflexivity.
Qed.

Lemma encryptAttachmentV2_stalls props sink w :
  optionsAccepted props w ->
  length (chosenIv props w) = 16 ->
  ending (plaintextSource (EncryptProps.plaintext props) (checkedWorld props w))
  = Stalls ->
  encryptAttachmentV2 props sink w
  = {| outcome := Pending; sinkView := untouched;
       after := snd (openSink sink (checkedWorld props w)) |}.
Proof.
  intros Hacc Hiv Hstalls. unfold encryptAttachmentV2.
  rewrite (encryptPrologue_accepted _ _ Hacc).
  destruct (length_halves _ (proj1 Hacc)) as [Hak _].
  rewrite (createCipheriv_ok _ _ Hak Hiv), (prependIv_ok _ Hiv).
  unfold pipeline. destruct (openSink sink (checkedWorld props w)) as [fault w1].
  rewrite Hstalls. reflexivity.
Qed.

(** X11. [decryptAndReencryptLocally] does not settle when its decryptor fails
    before its pipeline starts: when the key material does not split, or the
    ciphertext cannot be opened.  The encryptor is awaited first, and it
    reads from a stream that nothing ends.  The error of the decryptor
    reaches no caller, the output file stays, empty, and its handle open. *)
Theorem decryptAndReencryptLocally_never_settles options w :
  let source := DecryptOptions.ciphertextPath options in
  let target :=
    DecryptOptions.getAbsoluteAttachmentPath options (freshRelativePath w) in
  let run := decryptAndReencryptLocally options w in
  openFault w !! target = None ->
  target <> source ->
  (exists e, decryptKeys options = Err e)
  \/ files w !! source = None
  \/ is_Some (openFault w !! source) ->
  outcome run = Pending
  /\ files (after run) !! target = Some []
  /\ openFds (after run) = S (openFds w).
Proof.
  intros source target run Hoft Hdiff Hfails. subst run.
  unfold decryptAndReencryptLocally. fold target.
  rewrite (createWritePath_ok _ _ Hoft).
  unfold generateKeys, randomBytes. change KEY_SET_LENGTH with 64.
  unfold reencryptPipelines.
  set (w2 := setEntropy _ (writePathWorld target w)).
  assert (Hdecrypt :
    exists e w3,
      decryptAttachmentV2ToSink options (MemorySink None) w2 = rejected e w3
      /\ files w3 = files w2 /\ openFault w3 = openFault w2
      /\ openFds w3 = openFds w2).
  { unfold decryptAttachmentV2ToSink. fold source.
    destruct (decryptKeys options) as [ks|e].
    - assert (Hopen : exists cause, openRead source w2 = (Err cause, w2)).
      { unfold openRead, w2, writePathWorld.
        cbn [openFault files setEntropy setOpenFds setFiles].
        destruct Hfails as [[e He]|[Hnone|[code Hcode]]]; [discriminate| |].
        - destruct (openFault w !! source); [eexists; reflexivity|].
          rewrite lookup_insert_ne by exact Hdiff. rewrite Hnone.
          eexists; reflexivity.
        - rewrite Hcode. eexists; reflexivity. }
      destruct Hopen as [cause ->].
      eexists _, _. split; [reflexivity|].
      destruct (isAbortError _); repeat split.
    - exists e, w2. repeat split. }
  destruct Hdecrypt as (e & w3 & -> & Hf3 & Ho3 & Hd3).
  cbn [sinkView after rejected].
  set (props := {| EncryptProps.plaintext := PlainStream untouched;
                   EncryptProps.keys := map (entropy (writePathWorld target w)) (seq 0 64);
                   EncryptProps.dangerousIv := None;
                   EncryptProps.dangerousTestOnlySkipPadding := false;
                   EncryptProps.getAbsoluteAttachmentPath :=
                     DecryptOptions.getAbsoluteAttachmentPath options |}).
  rewrite (encryptAttachmentV2_stalls props (Some (FileSink target)) w3).
  - cbn [awaitBoth outcome after]. split; [reflexivity|].
    unfold openSink, checkedWorld.
    cbn [props EncryptProps.dangerousIv openFault streamFault setEntropy].
    rewrite Ho3. unfold w2, writePathWorld.
    cbn [openFault setEntropy setOpenFds setFiles]. rewrite Hoft.
    cbn [snd files openFds setFiles setEntropy]. rewrite Hd3.
    split; [apply lookup_insert_eq | reflexivity].
  - unfold optionsAccepted, props.
    cbn [EncryptProps.keys EncryptProps.dangerousIv
         EncryptProps.dangerousTestOnlySkipPadding].
    split; [rewrite length_map, length_seq; reflexivity|].
    split; [exact I|]. intros [=].
  - unfold chosenIv, props. cbn [EncryptProps.dangerousIv].
    rewrite length_map, length_seq. reflexivity.
  - reflexivity.
Qed.

(** ** File handles *)

Section Steps.

Variable R : World -> World -> Prop.
Hypothesis R_refl : forall w, R w w.
Hypothesis R_trans : forall w1 w2 w3, R w1 w2 -> R w2 w3 -> R w1 w3.

Lemma stepsM_ret (A : Type) (a : A) : stepsM R (ret a).
Proof using R_refl. intros w. apply R_refl. Qed.

Lemma stepsM_throw (A : Type) (e : Error) : stepsM R (@throw A e).
Proof using R_refl. intros w. apply R_refl. Qed.

Lemma stepsM_liftResult (A : Type) (r : Result A) : stepsM R (liftResult r).
Proof using R_refl. intros w. apply R_refl. Qed.

Lemma stepsM_bind (A B : Type) (m : M A) (k : A -> M B) :
  stepsM R m -> (forall a, stepsM R (k a)) -> stepsM R (bind m k).
Proof using R_trans.
  intros Hm Hk w. unfold bind. specialize (Hm w).
  destruct (m w) as [[a|e] w']; cbn [snd] in *.
  - apply (R_trans _ _ _ Hm). apply Hk.
  - exact Hm.
Qed.

Lemma stepsM_if (A : Type) (c : bool) (m1 m2 : M A) :
  stepsM R m1 -> stepsM R m2 -> stepsM R (if c then m1 else m2).
Proof using Type. destruct c; auto. Qed.

Lemma stepsM_tryCatch (A : Type) (body : M A) (handler : Error -> M A) :
  stepsM R body -> (forall e, stepsM R (handler e)) -> stepsM R (tryCatch body handler).
Proof using R_trans.
  intros Hb Hh w. unfold tryCatch. specialize (Hb w).
  destruct (body w) as [[a|e] w']; cbn [snd] in *.
  - exact Hb.
  - apply (R_trans _ _ _ Hb). apply Hh.
Qed.

Hypothesis R_log : forall entry w, R w (log entry w).

Lemma stepsM_finalizer logId options hmac digest theirMac outerHmac theirOuterMac :
  stepsM R (finalizer logId options hmac digest theirMac outerHmac theirOuterMac).
Proof using R_refl R_trans R_log.
  unfold finalizer.
  apply stepsM_bind; [apply stepsM_liftResult | intros _].
  apply stepsM_bind.
  { destruct theirMac; [apply stepsM_if; [apply stepsM_ret|] |]; apply stepsM_throw. }
  intros theirMac'.
  apply stepsM_bind; [apply stepsM_liftResult | intros _].
  apply stepsM_bind;
    [apply stepsM_if; [apply stepsM_throw | apply stepsM_ret] | intros _].
  apply stepsM_bind.
  { destruct (DecryptOptions.integrity options);
      [apply stepsM_if; [apply stepsM_throw | apply stepsM_ret]
      | intros w; apply R_log | intros w; apply R_log]. }
  intros _.
  destruct (DecryptOptions.outerEncryption options); [|apply stepsM_ret].
  apply stepsM_bind.
  { destruct outerHmac; [apply stepsM_ret | apply stepsM_throw]. }
  intros outerHmac'.
  apply stepsM_bind; [apply stepsM_liftResult | intros _].
  apply stepsM_bind.
  { destruct theirOuterMac; [apply stepsM_if; [apply stepsM_ret|] |]; apply stepsM_throw. }
  intros theirOuterMac'.
  apply stepsM_if; [apply stepsM_throw | apply stepsM_ret].
Qed.

Lemma stepsM_safeUnlinkSync filePath :
  (forall w, R w (setFiles (delete filePath (files w)) w)) ->
  stepsM R (safeUnlinkSync filePath).
Proof using R_refl R_trans R_log.
  intros Hdelete. unfold safeUnlinkSync. apply stepsM_tryCatch.
  - intros w. unfold unlinkSync.
    destruct (unlinkFault w !! filePath); [apply R_refl|].
    destruct (files w !! filePath); [apply Hdelete | apply R_refl].
  - intros e. apply stepsM_if; [|apply stepsM_ret].
    apply stepsM_bind; [intros w; apply R_log | intros _; apply stepsM_throw].
Qed.

End Steps.

Lemma sameFds_refl w : sameFds w w.
Proof. reflexivity. Qed.

Lemma sameFds_trans w1 w2 w3 : sameFds w1 w2 -> sameFds w2 w3 -> sameFds w1 w3.
Proof. unfold sameFds. congruence. Qed.

Lemma sameFds_log entry w : sameFds w (log entry w).
Proof. reflexivity. Qed.

Lemma pipeline_sameFds (S : Type) source
    (chain : Stream -> World -> Stream * Result S * World) sink w :
  (forall s w0, sameFds w0 (snd (chain s w0))) ->
  sameFds w (after (pipeline source chain sink w)).
Proof.
  intros Hchain. unfold pipeline.
  assert (Hopen : sameFds w (snd (openSink sink w))).
  { unfold openSink. destruct sink as [[path|fault]|]; try reflexivity.
    destruct (openFault w !! path); reflexivity. }
  destruct (openSink sink w) as [fault w0]. cbn [snd] in Hopen.
  destruct (ending source); try exact Hopen.
  destruct fault; [exact Hopen|].
  specialize (Hchain (chunks source) w0).
  destruct (chain (chunks source) w0) as [[passed verdict] w1]. cbn [snd] in Hchain.
  assert (Hwrite : sameFds w (writeSink sink passed w1)).
  { apply (sameFds_trans _ w0); [exact Hopen|].
    apply (sameFds_trans _ w1); [exact Hchain|].
    destruct sink as [[path|fault]|]; reflexivity. }
  destruct verdict; exact Hwrite.
Qed.

Lemma decryptChain_sameFds logId options ks source w :
  sameFds w (snd (decryptChain logId options ks source w)).
Proof.
  unfold decryptChain.
  destruct (decryptStages options ks source) as [st|e]; [|reflexivity].
  pose proof (stepsM_finalizer sameFds sameFds_refl sameFds_trans sameFds_log
                logId options (stHmac st) (stDigest st) (stTheirMac st)
                (stOuterHmac st) (stTheirOuterMac st) w) as Hfin.
  destruct (finalizer _ _ _ _ _ _ _ w) as [[[]|e] w']; exact Hfin.
Qed.

Lemma decryptPipeline_settles options ks sink content w :
  outcome (decryptPipeline options ks sink content w) <> Pending.
Proof.
  unfold decryptPipeline, pipeline.
  destruct (openSink (Some sink) w) as [fault w0]. cbn [ending chunks].
  destruct (streamFault w !! DecryptOptions.ciphertextPath options); [discriminate|].
  destruct fault; [discriminate|].
  destruct (decryptChain _ _ _ _ w0) as [[passed [taps|e]] w1]; discriminate.
Qed.

Lemma decryptAttachmentV2ToSink_settles options sink w :
  outcome (decryptAttachmentV2ToSink options sink w) <> Pending
  /\ sameFds w (after (decryptAttachmentV2ToSink options sink w)).
Proof.
  unfold decryptAttachmentV2ToSink.
  destruct (decryptKeys options) as [ks|e]; [|split; [discriminate | reflexivity]].
  unfold openRead.
  destruct (openFault w !! DecryptOptions.ciphertextPath options).
  { cbn [outcome after rejected]. split; [discriminate|].
    destruct (isAbortError _); reflexivity. }
  destruct (files w !! DecryptOptions.ciphertextPath options) as [content|].
  2:{ cbn [outcome after rejected]. split; [discriminate|].
      destruct (isAbortError _); reflexivity. }
  pose proof (decryptPipeline_settles options ks sink content
                (setOpenFds (S (openFds w)) w)) as Hsettles.
  assert (Hfds : openFds (after (decryptPipeline options ks sink content
                                   (setOpenFds (S (openFds w)) w)))
                 = S (openFds w)).
  { unfold decryptPipeline.
    apply (pipeline_sameFds _ _ _ _ (setOpenFds (S (openFds w)) w)).
    intros s w0. apply decryptChain_sameFds. }
  destruct (outcome (decryptPipeline _ _ _ _ _)) as [taps|e|];
    [| |contradiction]; cbn [outcome after]; unfold sameFds, close.
  - split; [destruct (decryptEpilogue taps); discriminate|].
    cbn [openFds setOpenFds]. rewrite Hfds. reflexivity.
  - split; [discriminate|]. destruct (isAbortError e);
      cbn [openFds setOpenFds log_error log]; rewrite Hfds; reflexivity.
Qed.

Lemma safeUnlinkSync_sameFds path w : sameFds w (snd (safeUnlinkSync path w)).
Proof.
  apply (stepsM_safeUnlinkSync sameFds sameFds_refl sameFds_trans sameFds_log).
  intros w0. reflexivity.
Qed.

Lemma cleanUp_openFds (A : Type) message path opened error w :
  openFds (after (@cleanUp A message path opened error w))
  = if opened then pred (openFds w) else openFds w.
Proof.
  unfold cleanUp.
  pose proof (safeUnlinkSync_sameFds path (log_error message error w)) as Hfds.
  unfold sameFds in Hfds.
  destruct (safeUnlinkSync path (log_error message error w)) as [[[]|e] w2];
    cbn [snd after rejected] in *; destruct opened; unfold close;
    cbn [openFds setOpenFds]; rewrite ?Hfds; reflexivity.
Qed.

Lemma cleanUp_settles (A : Type) message path opened error w :
  outcome (@cleanUp A message path opened error w) <> Pending.
Proof.
  unfold cleanUp. destruct (safeUnlinkSync _ _) as [[[]|e] w2]; discriminate.
Qed.

Lemma createWritePath_openFds path w :
  match createWritePath path w with
  | (Ok _, w1) => openFds w1 = S (openFds w)
  | (Err _, w1) => openFds w1 = openFds w
  end.
Proof.
  unfold createWritePath, tryCatch, bind, ensureFile, openWrite, throw.
  destruct (openFault w !! path) eqn:Eo; [reflexivity|].
  destruct (files w !! path); cbn; rewrite Eo; reflexivity.
Qed.

Lemma encryptPrologue_sameFds props w :
  sameFds w (snd (encryptPrologue "encryptAttachmentV2" props w)).
Proof.
  assert (Hs : stepsM sameFds (encryptPrologue "encryptAttachmentV2" props));
    [|apply Hs].
  pose proof sameFds_refl as Hr. pose proof sameFds_trans as Ht.
  unfold encryptPrologue.
  apply stepsM_bind; [assumption | apply stepsM_liftResult; assumption | intros ks].
  apply stepsM_bind; [assumption| |].
  { destruct (EncryptProps.dangerousIv props) as [[?|? ?]|];
      [| |apply stepsM_ret; assumption].
    - apply stepsM_bind; [assumption | intros w0; reflexivity | intros env].
      apply stepsM_if; [apply stepsM_throw | apply stepsM_ret]; assumption.
    - apply stepsM_bind; [assumption | apply stepsM_liftResult; assumption|].
      intros _ w0. reflexivity. }
  intros _.
  apply stepsM_bind; [assumption | intros w0; reflexivity | intros env].
  apply stepsM_bind; [assumption| |].
  { apply stepsM_if; [apply stepsM_throw | apply stepsM_ret]; assumption. }
  intros _. apply stepsM_bind; [assumption| |intros iv; apply stepsM_ret; assumption].
  destruct (EncryptProps.dangerousIv props); [apply stepsM_ret; assumption|].
  intros w0. reflexivity.
Qed.

Lemma encryptAttachmentV2_sameFds props sink w :
  sameFds w (after (encryptAttachmentV2 props sink w)).
Proof.
  unfold encryptAttachmentV2.
  pose proof (encryptPrologue_sameFds props w) as Hpro.
  destruct (encryptPrologue "encryptAttachmentV2" props w) as [[[ks iv]|e] w0];
    cbn [snd] in Hpro; [|exact Hpro].
  destruct (createCipheriv (aesKey ks) iv) as [cipher|e]; [|exact Hpro].
  destruct (prependIv iv) as [prepend|e]; [|exact Hpro].
  assert (Hpipe : sameFds w0
            (after (pipeline (plaintextSource (EncryptProps.plaintext props) w0)
                      (encryptChain cipher prepend (macKey ks)
                         (EncryptProps.dangerousTestOnlySkipPadding props))
                      sink w0))).
  { apply pipeline_sameFds. intros s w1. rewrite encryptChain_world. reflexivity. }
  pose proof (sameFds_trans _ _ _ Hpro Hpipe) as Hall.
  destruct (outcome (pipeline _ _ _ _)); exact Hall.
Qed.

Lemma decryptAttachmentV2_sameFds options w :
  outcome (decryptAttachmentV2 options w) <> Pending
  /\ sameFds w (after (decryptAttachmentV2 options w)).
Proof.
  unfold decryptAttachmentV2, sameFds.
  set (target := DecryptOptions.getAbsoluteAttachmentPath options _).
  pose proof (createWritePath_openFds target w) as Hcreate.
  destruct (createWritePath target w) as [[[]|error] w1].
  - destruct (decryptAttachmentV2ToSink_settles options (FileSink target) w1)
      as [Hsettles Hfds].
    unfold sameFds in Hfds.
    destruct (outcome (decryptAttachmentV2ToSink options (FileSink target) w1))
      as [result|error|]; [| |contradiction].
    + cbn [outcome after]. split; [discriminate|].
      unfold close. cbn [openFds setOpenFds]. rewrite Hfds, Hcreate. reflexivity.
    + split; [apply cleanUp_settles|].
      rewrite cleanUp_openFds, Hfds, Hcreate. reflexivity.
  - split; [apply cleanUp_settles|]. rewrite cleanUp_openFds. exact Hcreate.
Qed.

Lemma decryptAndReencryptLocally_sameFds options w :
  outcome (decryptAndReencryptLocally options w) <> Pending ->
  sameFds w (after (decryptAndReencryptLocally options w)).
Proof.
  unfold decryptAndReencryptLocally, sameFds.
  set (target := DecryptOptions.getAbsoluteAttachmentPath options _).
  pose proof (createWritePath_openFds target w) as Hcreate.
  destruct (createWritePath target w) as [[[]|error] w1].
  2:{ intros _. rewrite cleanUp_openFds. exact Hcreate. }
  unfold generateKeys, randomBytes, reencryptPipelines.
  set (w2 := setEntropy _ w1).
  set (decrypting := decryptAttachmentV2ToSink options (MemorySink None) w2).
  destruct (decryptAttachmentV2ToSink_settles options (MemorySink None) w2)
    as [_ Hfds]. fold decrypting in Hfds.
  set (encrypting := encryptAttachmentV2 _ _ (after decrypting)).
  assert (Hall : openFds (after encrypting) = S (openFds w)).
  { subst encrypting. rewrite encryptAttachmentV2_sameFds, Hfds. exact Hcreate. }
  destruct (awaitBoth decrypting encrypting) as [result|error|];
    [| |intros H; contradiction H; reflexivity]; intros _.
  - cbn [after]. unfold close. cbn [openFds setOpenFds]. rewrite Hall. reflexivity.
  - rewrite cleanUp_openFds, Hall. reflexivity.
Qed.

(** X12. Every call of a decrypting entry point that settles has closed the
    handles it opened: as many are open after it as before, whether it
    returned or threw. *)
Theorem decrypt_handles_closed options sink w :
  (outcome (decryptAttachmentV2ToSink options sink w) <> Pending ->
   openFds (after (decryptAttachmentV2ToSink options sink w)) = openFds w)
  /\ (outcome (decryptAttachmentV2 options w) <> Pending ->
      openFds (after (decryptAttachmentV2 options w)) = openFds w)
  /\ (outcome (decryptAndReencryptLocally options w) <> Pending ->
      openFds (after (decryptAndReencryptLocally options w)) = openFds w).
Proof.
  split; [|split].
  - intros _. apply decryptAttachmentV2ToSink_settles.
  - intros _. apply decryptAttachmentV2_sameFds.
  - apply decryptAndReencryptLocally_sameFds.
Qed.

(** ** The outer layer of a backup download *)

Lemma deciphered_autoPadding padded : autoPadding = true -> deciphered padded = padded.
Proof. intros H. unfold deciphered. rewrite H. reflexivity. Qed.

Lemma decryptStages_outer options ks iv outer outerIv padded source :
  let inner := attachmentFrame ks iv padded in
  autoPadding = true ->
  DecryptOptions.outerEncryption options = Some outer ->
  length (aesKey ks) = 32 -> length iv = 16 ->
  length (aesKey outer) = 32 -> length outerIv = 16 ->
  flat source = attachmentFrame outer outerIv inner ->
  decryptStages options ks source
  = Ok {| stDigest := {| hashed := inner |};
          stHmac := {| hmacKey := macKey ks; hmacked := frameBody ks iv padded |};
          stTheirMac := Some (hmacSha256 (macKey ks) (frameBody ks iv padded));
          stOuterHmac :=
            Some {| hmacKey := macKey outer; hmacked := frameBody outer outerIv inner |};
          stTheirOuterMac :=
            Some (hmacSha256 (macKey outer) (frameBody outer outerIv inner));
          stIv := Some iv;
          stPlaintextHash := {| hashed := delivered options padded |};
          stOut := [delivered options padded] |}.
Proof using aesEncryptBlock_length aesDecryptBlock_encrypt.
  intros inner Hauto Houter Hk Hi Hok Hoi Hflat. unfold decryptStages.
  rewrite Houter. cbn [option_map].
  rewrite (getMacAndUpdateHmac_frame (macKey outer) _ _ source
             (length_hmacSha256 _ _) Hflat).
  rewrite (getIvAndDecipher_frame outer outerIv _ Hok Hoi).
  rewrite (deciphered_autoPadding _ Hauto).
  rewrite peekAndUpdateHash_spec, flat_singleton.
  rewrite (getMacAndUpdateHmac_frame (macKey ks) (frameBody ks iv padded)
             (hmacSha256 (macKey ks) (frameBody ks iv padded)) [inner]
             (length_hmacSha256 _ _) (flat_singleton _)).
  rewrite (getIvAndDecipher_frame ks iv _ Hk Hi).
  cbn [trimPadding]. fold (delivered options padded).
  rewrite peekAndUpdateHash_spec, flat_singleton. reflexivity.
Qed.

(** X13. A file downloaded from backup carries an outer layer: the frame of the
    attachment encrypted once more, without zero padding, under the outer
    keys.  Where the decipher strips the PKCS#7 block, the decryptor given
    the outer keys checks both layers and returns: the sink receives [P],
    the hash is that of [P], the IV the inner one; in the standard mode the
    digest expected is that of the inner frame, not of the file. *)
Theorem decryptAttachmentV2ToSink_outerEncryption
    options sink ks iv outer outerIv skipPadding P w :
  let inner := attachmentFrame ks iv (paddedPlaintext skipPadding P) in
  let frame := attachmentFrame outer outerIv inner in
  let run := decryptAttachmentV2ToSink options sink w in
  autoPadding = true ->
  decryptKeys options = Ok ks ->
  length (aesKey ks) = 32 -> length iv = 16 ->
  DecryptOptions.outerEncryption options = Some outer ->
  length (aesKey outer) = 32 -> length outerIv = 16 ->
  openFault w !! DecryptOptions.ciphertextPath options = None ->
  streamFault w !! DecryptOptions.ciphertextPath options = None ->
  files w !! DecryptOptions.ciphertextPath options = Some frame ->
  DecryptOptions.size options = length P ->
  expectsDigest (Sha256.sha256 inner) options ->
  fst (openSink (Some sink) w) = None ->
  outcome run
  = Resolved {| DecryptedAttachmentV2.path := None;
                DecryptedAttachmentV2.iv := iv;
                DecryptedAttachmentV2.plaintextHash := sha256hex P |}
  /\ flat (chunks (sinkView run)) = P
  /\ ending (sinkView run) = Ends.
Proof using aesEncryptBlock_length aesDecryptBlock_encrypt readChunks_flat.
  intros inner frame run Hauto Hkeys Hak Hivlen Houter Hoak Hoivlen Hof Hsf Hfile Hsize
    Hdigest Hsink.
  subst run. unfold decryptAttachmentV2ToSink. rewrite Hkeys.
  unfold openRead. rewrite Hof, Hfile.
  unfold decryptPipeline.
  change (streamFault (setOpenFds (S (openFds w)) w)) with (streamFault w).
  rewrite Hsf. unfold pipeline.
  assert (Hsink' : fst (openSink (Some sink) (setOpenFds (S (openFds w)) w)) = None).
  { destruct sink as [p|fault]; [|exact Hsink].
    unfold openSink in *. cbn [openFault streamFault files setOpenFds] in *.
    destruct (openFault w !! p); [discriminate|exact Hsink]. }
  destruct (openSink (Some sink) (setOpenFds (S (openFds w)) w)) as [fault w1].
  cbn [fst] in Hsink'. subst fault. cbn [ending chunks].
  unfold decryptChain.
  rewrite (decryptStages_outer options ks iv outer outerIv
             (paddedPlaintext skipPadding P) (readChunks frame)
             Hauto Houter Hak Hivlen Hoak Hoivlen (readChunks_flat _)).
  cbn [stHmac stDigest stTheirMac stOuterHmac stTheirOuterMac stOut stIv
       stPlaintextHash].
  fold inner.
  pose proof (finalizer_eval (decryptLogId options) options
                {| hmacKey := macKey ks;
                   hmacked := frameBody ks iv (paddedPlaintext skipPadding P) |}
                {| hashed := inner |}
                (hmacSha256 (macKey ks) (frameBody ks iv (paddedPlaintext skipPadding P)))
                (Some {| hmacKey := macKey outer;
                         hmacked := frameBody outer outerIv inner |})
                (Some (hmacSha256 (macKey outer) (frameBody outer outerIv inner)))
                w1 (length_hmacSha256 _ _)) as Heval.
  destruct (finalizer _ _ _ _ _ _ _ w1) as [verdict w2]. cbn [fst] in Heval.
  assert (Hverdict : verdict = Ok tt).
  { rewrite Heval. unfold Hmac_digest at 1. cbn [hmacKey hmacked].
    rewrite constantTimeEqual_refl. cbn [negb].
    assert (Hrest : outerMacCheck options
              (Some {| hmacKey := macKey outer;
                       hmacked := frameBody outer outerIv inner |})
              (Some (hmacSha256 (macKey outer) (frameBody outer outerIv inner)))
            = Ok tt).
    { unfold outerMacCheck. rewrite Houter, length_hmacSha256. cbn [Nat.eqb].
      unfold Hmac_digest. cbn [hmacKey hmacked].
      rewrite constantTimeEqual_refl. reflexivity. }
    rewrite Hrest. unfold expectsDigest in Hdigest.
    destruct (DecryptOptions.integrity options) as [d| |]; try reflexivity.
    unfold Hash_digest. cbn [hashed]. rewrite Hdigest, constantTimeEqual_refl.
    reflexivity. }
  clear Heval. subst verdict. cbn [outcome sinkView after chunks ending].
  unfold decryptEpilogue. cbn [seenPlaintextHash seenIv].
  rewrite length_Hash_digest_hex, Nat.eqb_refl. unfold strictAssert.
  unfold IV_LENGTH. rewrite Hivlen. cbn [Nat.eqb].
  assert (Hplain : delivered options (paddedPlaintext skipPadding P) = P).
  { unfold delivered. rewrite Hsize. apply firstn_deciphered. }
  rewrite Hplain, flat_singleton. repeat split.
Qed.

(** ** The files an entry point touches *)

Lemma othersKept_refl target w : othersKept target w w.
Proof. intros other _. reflexivity. Qed.

Lemma othersKept_trans target w1 w2 w3 :
  othersKept target w1 w2 -> othersKept target w2 w3 -> othersKept target w1 w3.
Proof. intros H12 H23 other Hother. rewrite (H23 _ Hother). apply H12, Hother. Qed.

Lemma othersKept_same target w w' : files w' = files w -> othersKept target w w'.
Proof. intros H other _. rewrite H. reflexivity. Qed.

Lemma othersKept_log target entry w : othersKept target w (log entry w).
Proof. apply othersKept_same. reflexivity. Qed.

Lemma othersKept_insert target content w :
  othersKept target w (setFiles (<[target := content]> (files w)) w).
Proof. intros other Hother. cbn. apply lookup_insert_ne. congruence. Qed.

Lemma othersKept_delete target w :
  othersKept target w (setFiles (delete target (files w)) w).
Proof. intros other Hother. cbn. apply lookup_delete_ne. congruence. Qed.

Lemma pipeline_othersKept (S : Type) target source
    (chain : Stream -> World -> Stream * Result S * World) sink w :
  writesTo sink target ->
  (forall s w0, othersKept target w0 (snd (chain s w0))) ->
  othersKept target w (after (pipeline source chain sink w)).
Proof.
  intros Hsink Hchain. unfold pipeline.
  assert (Hopen : othersKept target w (snd (openSink sink w))).
  { unfold openSink. destruct sink as [[path|fault]|]; try apply othersKept_refl.
    cbn in Hsink. subst path.
    destruct (openFault w !! target); [apply othersKept_refl|].
    apply othersKept_insert. }
  destruct (openSink sink w) as [fault w0]. cbn [snd] in Hopen.
  destruct (ending source); try exact Hopen.
  destruct fault; [exact Hopen|].
  specialize (Hchain (chunks source) w0).
  destruct (chain (chunks source) w0) as [[passed verdict] w1]. cbn [snd] in Hchain.
  assert (Hwrite : othersKept target w (writeSink sink passed w1)).
  { apply (othersKept_trans _ _ w0); [exact Hopen|].
    apply (othersKept_trans _ _ w1); [exact Hchain|].
    destruct sink as [[path|fault]|]; try apply othersKept_refl.
    cbn in Hsink. subst path. apply othersKept_insert. }
  destruct verdict; exact Hwrite.
Qed.

Lemma decryptAttachmentV2ToSink_othersKept target options sink w :
  writesTo (Some sink) target ->
  othersKept target w (after (decryptAttachmentV2ToSink options sink w)).
Proof.
  intros Hsink. unfold decryptAttachmentV2ToSink.
  destruct (decryptKeys options) as [ks|e]; [|apply othersKept_refl].
  unfold openRead.
  destruct (openFault w !! DecryptOptions.ciphertextPath options).
  { cbn [after rejected]. destruct (isAbortError _);
      apply othersKept_same; reflexivity. }
  destruct (files w !! DecryptOptions.ciphertextPath options) as [content|].
  2:{ cbn [after rejected]. destruct (isAbortError _);
      apply othersKept_same; reflexivity. }
  assert (Hpipe : othersKept target w
            (after (decryptPipeline options ks sink content
                      (setOpenFds (S (openFds w)) w)))).
  { apply (othersKept_trans _ _ (setOpenFds (S (openFds w)) w));
      [apply othersKept_same; reflexivity|].
    unfold decryptPipeline. apply pipeline_othersKept; [exact Hsink|].
    intros s w0. unfold decryptChain.
    destruct (decryptStages options ks s) as [st|e]; [|apply othersKept_refl].
    pose proof (stepsM_finalizer (othersKept target) (othersKept_refl target)
                  (othersKept_trans target) (othersKept_log target)
                  (decryptLogId options) options (stHmac st) (stDigest st)
                  (stTheirMac st) (stOuterHmac st) (stTheirOuterMac st) w0) as Hfin.
    destruct (finalizer _ _ _ _ _ _ _ w0) as [[[]|e] w']; exact Hfin. }
  destruct (outcome (decryptPipeline _ _ _ _ _)) as [taps|e|]; cbn [after];
    try exact Hpipe.
  destruct (isAbortError e); exact Hpipe.
Qed.

Lemma encryptPrologue_files props w :
  files (snd (encryptPrologue "encryptAttachmentV2" props w)) = files w.
Proof.
  pose (R := fun w0 w' : World => files w' = files w0).
  assert (Hr : forall w0, R w0 w0) by reflexivity.
  assert (Ht : forall w1 w2 w3, R w1 w2 -> R w2 w3 -> R w1 w3)
    by (unfold R; congruence).
  assert (Hs : stepsM R (encryptPrologue "encryptAttachmentV2" props));
    [|apply Hs].
  unfold encryptPrologue.
  apply stepsM_bind; [assumption | apply stepsM_liftResult; assumption | intros ks].
  apply stepsM_bind; [assumption| |].
  { destruct (EncryptProps.dangerousIv props) as [[?|? ?]|];
      [| |apply stepsM_ret; assumption].
    - apply stepsM_bind; [assumption | intros w0; reflexivity | intros env].
      apply stepsM_if; [apply stepsM_throw | apply stepsM_ret]; assumption.
    - apply stepsM_bind; [assumption | apply stepsM_liftResult; assumption|].
      intros _ w0. reflexivity. }
  intros _.
  apply stepsM_bind; [assumption | intros w0; reflexivity | intros env].
  apply stepsM_bind; [assumption| |].
  { apply stepsM_if; [apply stepsM_throw | apply stepsM_ret]; assumption. }
  intros _. apply stepsM_bind; [assumption| |intros iv; apply stepsM_ret; assumption].
  destruct (EncryptProps.dangerousIv props); [apply stepsM_ret; assumption|].
  intros w0. reflexivity.
Qed.

Lemma encryptAttachmentV2_othersKept target props sink w :
  writesTo sink target ->
  othersKept target w (after (encryptAttachmentV2 props sink w)).
Proof.
  intros Hsink. unfold encryptAttachmentV2.
  pose proof (encryptPrologue_files props w) as Hpro.
  destruct (encryptPrologue "encryptAttachmentV2" props w) as [[[ks iv]|e] w0];
    cbn [snd] in Hpro; [|apply othersKept_same; exact Hpro].
  destruct (createCipheriv (aesKey ks) iv) as [cipher|e];
    [|apply othersKept_same; exact Hpro].
  destruct (prependIv iv) as [prepend|e]; [|apply othersKept_same; exact Hpro].
  assert (Hpipe : othersKept target w
            (after (pipeline (plaintextSource (EncryptProps.plaintext props) w0)
                      (encryptChain cipher prepend (macKey ks)
                         (EncryptProps.dangerousTestOnlySkipPadding props))
                      sink w0))).
  { apply (othersKept_trans _ _ w0); [apply othersKept_same; exact Hpro|].
    apply pipeline_othersKept; [exact Hsink|].
    intros s w1. rewrite encryptChain_world. apply othersKept_refl. }
  destruct (outcome (pipeline _ _ _ _)); exact Hpipe.
Qed.

Lemma safeUnlinkSync_othersKept target w :
  othersKept target w (snd (safeUnlinkSync target w)).
Proof.
  apply (stepsM_safeUnlinkSync (othersKept target) (othersKept_refl target)
           (othersKept_trans target) (othersKept_log target)).
  apply othersKept_delete.
Qed.

Lemma cleanUp_othersKept (A : Type) message target opened error w :
  othersKept target w (after (@cleanUp A message target opened error w)).
Proof.
  unfold cleanUp.
  pose proof (safeUnlinkSync_othersKept target (log_error message error w)) as Hu.
  destruct (safeUnlinkSync target (log_error message error w)) as [[[]|e] w2];
    cbn [snd after rejected] in *; destruct opened; exact Hu.
Qed.

Lemma createWritePath_othersKept target w :
  othersKept target w (snd (createWritePath target w)).
Proof.
  unfold createWritePath, tryCatch, bind, ensureFile, openWrite, throw.
  destruct (openFault w !! target) eqn:Eo; [apply othersKept_refl|].
  destruct (files w !! target); cbn; rewrite Eo; cbn; intros other Hother; cbn;
    rewrite ?lookup_insert_ne by congruence; reflexivity.
Qed.

(** X14. No file-producing entry point touches a file other than its output
    file, whatever happens: every other path holds after the call what it
    held before.  Nor does the decryptor into a sink, which writes at most
    the file its sink is. *)
Theorem entry_points_touch_only_output args options sink w other :
  (other <> EncryptProps.getAbsoluteAttachmentPath args (freshRelativePath w) ->
   files (after (encryptAttachmentV2ToDisk args w)) !! other = files w !! other)
  /\ (other <> DecryptOptions.getAbsoluteAttachmentPath options (freshRelativePath w) ->
      files (after (decryptAttachmentV2 options w)) !! other = files w !! other
      /\ files (after (decryptAndReencryptLocally options w)) !! other
         = files w !! other)
  /\ (sink <> FileSink other ->
      files (after (decryptAttachmentV2ToSink options sink w)) !! other
      = files w !! other).
Proof.
  split; [|split].
  - intros Hother. unfold encryptAttachmentV2ToDisk.
    set (target := EncryptProps.getAbsoluteAttachmentPath args _) in *.
    assert (Hensure : othersKept target w (snd (ensureFile target w))).
    { unfold ensureFile. destruct (openFault w !! target); [apply othersKept_refl|].
      destruct (files w !! target); [apply othersKept_refl | apply othersKept_insert]. }
    destruct (ensureFile target w) as [[[]|e] w1]; cbn [snd] in Hensure;
      [|exact (Hensure other Hother)].
    pose proof (encryptAttachmentV2_othersKept target args (Some (FileSink target)) w1
                  eq_refl) as Hrun.
    pose proof (othersKept_trans _ _ _ _ Hensure Hrun) as Hall.
    destruct (outcome (encryptAttachmentV2 args (Some (FileSink target)) w1));
      try exact (Hall other Hother).
    pose proof (safeUnlinkSync_othersKept target
                  (after (encryptAttachmentV2 args (Some (FileSink target)) w1))) as Hu.
    pose proof (othersKept_trans _ _ _ _ Hall Hu) as Hend.
    destruct (safeUnlinkSync target _) as [[[]|e'] w2]; exact (Hend other Hother).
  - intros Hother.
    set (target := DecryptOptions.getAbsoluteAttachmentPath options _) in *.
    pose proof (createWritePath_othersKept target w) as Hcreate.
    split.
    + unfold decryptAttachmentV2. fold target.
      destruct (createWritePath target w) as [[[]|error] w1]; cbn [snd] in Hcreate.
      2:{ exact (othersKept_trans _ _ _ _ Hcreate (cleanUp_othersKept _ _ _ _ _ _)
                   other Hother). }
      pose proof (decryptAttachmentV2ToSink_othersKept target options
                    (FileSink target) w1 eq_refl) as Hrun.
      pose proof (othersKept_trans _ _ _ _ Hcreate Hrun) as Hall.
      destruct (outcome (decryptAttachmentV2ToSink options (FileSink target) w1));
        try exact (Hall other Hother).
      exact (othersKept_trans _ _ _ _ Hall (cleanUp_othersKept _ _ _ _ _ _)
               other Hother).
    + unfold decryptAndReencryptLocally. fold target.
      destruct (createWritePath target w) as [[[]|error] w1]; cbn [snd] in Hcreate.
      2:{ exact (othersKept_trans _ _ _ _ Hcreate (cleanUp_othersKept _ _ _ _ _ _)
                   other Hother). }
      unfold generateKeys, randomBytes, reencryptPipelines.
      set (w2 := setEntropy _ w1).
      set (decrypting := decryptAttachmentV2ToSink options (MemorySink None) w2).
      set (encrypting := encryptAttachmentV2 _ _ (after decrypting)).
      assert (Hall : othersKept target w (after encrypting)).
      { apply (othersKept_trans _ _ w1); [exact Hcreate|].
        apply (othersKept_trans _ _ w2); [apply othersKept_same; reflexivity|].
        apply (othersKept_trans _ _ (after decrypting)).
        - apply decryptAttachmentV2ToSink_othersKept. exact I.
        - apply encryptAttachmentV2_othersKept. reflexivity. }
      destruct (awaitBoth decrypting encrypting); try exact (Hall other Hother).
      exact (othersKept_trans _ _ _ _ Hall (cleanUp_othersKept _ _ _ _ _ _)
               other Hother).
  - intros Hsink.
    destruct sink as [path|fault].
    + apply (decryptAttachmentV2ToSink_othersKept path options (FileSink path) w eq_refl).
      congruence.
    + apply (decryptAttachmentV2ToSink_othersKept (String "/" other) options
               (MemorySink fault) w I).
      intros H. apply (f_equal String.length) in H. cbn in H. lia.
Qed.

(** ** Plaintext that did not verify *)

Lemma decryptStages_body options ks iv padded (mac : Bytes) source :
  DecryptOptions.outerEncryption options = None ->
  length (aesKey ks) = 32 -> length iv = 16 -> length mac = 32 ->
  flat source = frameBody ks iv padded ++ mac ->
  decryptStages options ks source
  = Ok {| stDigest := {| hashed := flat source |};
          stHmac := {| hmacKey := macKey ks; hmacked := frameBody ks iv padded |};
          stTheirMac := Some mac;
          stOuterHmac := None; stTheirOuterMac := None;
          stIv := Some iv;
          stPlaintextHash := {| hashed := delivered options padded |};
          stOut := [delivered options padded] |}.
Proof using aesEncryptBlock_length aesDecryptBlock_encrypt.
  intros Houter Hk Hi Hmac Hflat. unfold decryptStages.
  rewrite Houter. cbn [option_map]. rewrite peekAndUpdateHash_spec.
  rewrite (getMacAndUpdateHmac_frame (macKey ks) _ _ source Hmac Hflat).
  rewrite (getIvAndDecipher_frame ks iv _ Hk Hi).
  cbn [trimPadding]. fold (delivered options padded).
  rewrite peekAndUpdateHash_spec, flat_singleton. reflexivity.
Qed.

(** X24. The decryptor hands the plaintext to its sink before it has verified
    anything.  On a file that is the body of a frame of [P] followed by 32
    bytes that are not its MAC, it throws the MAC error, logs it, and the
    sink has by then received [P]; a sink that is a file holds [P]. *)
Theorem decryptAttachmentV2ToSink_bad_mac options sink ks iv skipPadding P (mac : Bytes) w :
  let body := frameBody ks iv (paddedPlaintext skipPadding P) in
  let run := decryptAttachmentV2ToSink options sink w in
  decryptKeys options = Ok ks ->
  length (aesKey ks) = 32 -> length iv = 16 ->
  length mac = 32 -> mac <> hmacSha256 (macKey ks) body ->
  openFault w !! DecryptOptions.ciphertextPath options = None ->
  streamFault w !! DecryptOptions.ciphertextPath options = None ->
  files w !! DecryptOptions.ciphertextPath options = Some (body ++ mac) ->
  DecryptOptions.size options = length P ->
  DecryptOptions.outerEncryption options = None ->
  fst (openSink (Some sink) w) = None ->
  outcome run = Rejected BadMac
  /\ flat (chunks (sinkView run)) = P
  /\ ending (sinkView run) = Fails BadMac
  /\ (forall path, sink = FileSink path -> files (after run) !! path = Some P)
  /\ errorsLogged w (after run) = [LogError (decryptFailedMessage options) BadMac].
Proof using aesEncryptBlock_length aesDecryptBlock_encrypt readChunks_flat.
  intros body run Hkeys Hak Hivlen Hmaclen Hbad Hof Hsf Hfile Hsize Houter Hsink.
  assert (Hplain : delivered options (paddedPlaintext skipPadding P) = P).
  { unfold delivered. rewrite Hsize. apply firstn_deciphered. }
  assert (Hopen : openRead (DecryptOptions.ciphertextPath options) w
                  = (Ok (body ++ mac), setOpenFds (S (openFds w)) w)).
  { unfold openRead. rewrite Hof.
    destruct (files w !! DecryptOptions.ciphertextPath options) as [content|] eqn:E.
    - injection Hfile as ->. reflexivity.
    - discriminate Hfile. }
  assert (Hpipe :
    decryptPipeline options ks sink (body ++ mac) (setOpenFds (S (openFds w)) w)
    = {| outcome := Rejected BadMac;
         sinkView := {| chunks := [P]; ending := Fails BadMac |};
         after := writeSink (Some sink) [P]
                    (snd (openSink (Some sink) (setOpenFds (S (openFds w)) w))) |}).
  { unfold decryptPipeline.
    change (streamFault (setOpenFds (S (openFds w)) w)) with (streamFault w).
    rewrite Hsf. unfold pipeline.
    assert (Hsink' : fst (openSink (Some sink) (setOpenFds (S (openFds w)) w)) = None).
    { destruct sink as [p|fault]; [|exact Hsink].
      unfold openSink in *. cbn [openFault streamFault files setOpenFds] in *.
      destruct (openFault w !! p); [discriminate|exact Hsink]. }
    destruct (openSink (Some sink) (setOpenFds (S (openFds w)) w)) as [fault w1].
    cbn [fst snd] in *. subst fault. cbn [ending chunks].
    unfold decryptChain.
    rewrite (decryptStages_body options ks iv (paddedPlaintext skipPadding P) mac
               (readChunks (body ++ mac)) Houter Hak Hivlen Hmaclen
               (readChunks_flat _)).
    cbn [stHmac stDigest stTheirMac stOuterHmac stTheirOuterMac stOut stIv
         stPlaintextHash].
    rewrite Hplain.
    unfold finalizer, bind, liftResult, strictAssert, ret, throw, modify.
    rewrite length_Hmac_digest, length_Hash_digest, !Nat.eqb_refl.
    unfold ATTACHMENT_MAC_LENGTH, MAC_LENGTH. rewrite Hmaclen. cbn [Nat.eqb].
    unfold Hmac_digest. cbn [hmacKey hmacked].
    rewrite constantTimeEqual_neq by (intros Heq; apply Hbad; symmetry; exact Heq).
    reflexivity. }
  subst run. unfold decryptAttachmentV2ToSink. rewrite Hkeys, Hopen, Hpipe.
  cbn [outcome sinkView after chunks ending isAbortError Error_name String.eqb
       Ascii.eqb Bool.eqb].
  split; [reflexivity|]. split; [apply flat_singleton|]. split; [reflexivity|].
  split.
  - intros path ->. unfold close, writeSink, log_error, log.
    cbn [files setOpenFds setFiles]. rewrite flat_singleton. apply lookup_insert_eq.
  - unfold close. apply (errorsLogged_log_error w _ (decryptFailedMessage options) BadMac).
    apply quietly_same. rewrite writeSink_logged, openSink_logged. reflexivity.
Qed.

(** ** A frame cut short *)

Lemma cbcDecrypt_cbcEncrypt_firstn n : forall m fuel fuel' key prev data,
  length key = 32 -> length prev = 16 -> length data = 16 * n -> m <= n ->
  length data <= fuel -> 16 * m <= fuel' ->
  cbcDecrypt fuel' key prev (firstn (16 * m) (cbcEncrypt fuel key prev data))
  = firstn (16 * m) data.
Proof using aesEncryptBlock_length aesDecryptBlock_encrypt.
  induction n as [|n IH]; intros m fuel fuel' key prev data Hk Hp Hd Hm Hf Hf'.
  - assert (m = 0) by lia. subst m. cbn [Nat.mul firstn]. destruct fuel'; reflexivity.
  - destruct m as [|m]; [cbn [Nat.mul firstn]; destruct fuel'; reflexivity|].
    destruct fuel as [|fuel]; [lia|]. destruct fuel' as [|fuel']; [lia|].
    rewrite cbcEncrypt_step
      by (apply (nonempty_of_length _ _ (16 * n + 15)); lia).
    assert (Hfirst : length (firstn 16 data) = 16) by (rewrite length_firstn; lia).
    assert (Hskip : length (skipn 16 data) = 16 * n) by (rewrite length_skipn; lia).
    set (c := aesEncryptBlock key (xorBytes (firstn 16 data) prev)).
    assert (Hc : length c = 16).
    { apply aesEncryptBlock_length; [exact Hk|].
      rewrite length_xorBytes; lia. }
    set (rest := cbcEncrypt fuel key c (skipn 16 data)).
    replace (16 * S m) with (16 + 16 * m) by lia.
    rewrite firstn_app, firstn_all2 by lia.
    replace (16 + 16 * m - length c) with (16 * m) by lia.
    rewrite cbcDecrypt_step
      by (apply (nonempty_of_length _ _ (15 + length (firstn (16 * m) rest)));
          rewrite length_app; lia).
    assert (Hfc : firstn 16 (c ++ firstn (16 * m) rest) = c).
    { rewrite firstn_app, firstn_all2 by lia.
      replace (16 - length c) with 0 by lia. rewrite firstn_O. apply app_nil_r. }
    assert (Hsc : skipn 16 (c ++ firstn (16 * m) rest) = firstn (16 * m) rest).
    { rewrite skipn_app, skipn_all2 by lia.
      replace (16 - length c) with 0 by lia. reflexivity. }
    rewrite Hfc, Hsc. subst rest.
    rewrite (IH m) by (try assumption; lia).
    subst c.
    rewrite aesDecryptBlock_encrypt; [|exact Hk|rewrite length_xorBytes; lia].
    rewrite xorBytes_involutive by lia.
    apply take_take_drop.
Qed.

Lemma cut_blocks q k :
  0 < q -> 0 < k < 16 ->
  (16 * q - k) mod 16 = 16 - k /\ (16 * q - k) / 16 = q - 1.
Proof.
  intros Hq Hk.
  assert (H : 16 * q - k = 16 * (q - 1) + (16 - k)) by lia.
  rewrite H. split.
  - rewrite Nat.add_comm, Nat.mul_comm, Nat.Div0.mod_add. apply Nat.mod_small. lia.
  - rewrite Nat.add_comm, Nat.mul_comm, Nat.div_add by lia.
    rewrite Nat.div_small by lia. reflexivity.
Qed.

Lemma decryptStages_cut options ks iv padded k source :
  let frame := attachmentFrame ks iv padded in
  DecryptOptions.outerEncryption options = None ->
  length (aesKey ks) = 32 -> length iv = 16 -> 0 < k < 16 ->
  flat source = firstn (length frame - k) frame ->
  decryptStages options ks source = Err (CryptoError "wrong final block length")
  /\ decryptPassed options ks source
     = [firstn (DecryptOptions.size options)
          (firstn (16 * (length padded / 16)) padded)].
Proof using aesEncryptBlock_length aesDecryptBlock_encrypt.
  intros frame Houter Hk Hi Hcut Hflat.
  pose proof (pkcs7Pad_blocks padded) as Hblocks.
  set (q := 1 + length padded / 16) in *.
  set (pp := pkcs7Pad padded) in *.
  set (c := cbcEncrypt (length pp) (aesKey ks) iv pp).
  assert (Hc : length c = 16 * q).
  { subst c. rewrite (length_cbcEncrypt q) by (try assumption; lia). exact Hblocks. }
  assert (Hframe : frame = iv ++ c ++ hmacSha256 (macKey ks) (iv ++ c)).
  { subst frame c pp. unfold attachmentFrame, frameBody. rewrite <- app_assoc.
    reflexivity. }
  destruct (cut_blocks q k ltac:(lia) Hcut) as [Hmod Hdiv].
  assert (Hlen : length (flat source) = 16 + (16 * q - k) + 32).
  { rewrite Hflat, length_firstn, Hframe, !length_app, Hi, Hc, length_hmacSha256.
    unfold ATTACHMENT_MAC_LENGTH, MAC_LENGTH. lia. }
  assert (Hbody : firstn (length (flat source) - 32) (flat source)
                  = iv ++ firstn (16 * q - k) c).
  { rewrite Hlen. replace (16 + (16 * q - k) + 32 - 32) with (16 + (16 * q - k)) by lia.
    rewrite Hflat, firstn_firstn, Hframe.
    replace (Init.Nat.min (16 + (16 * q - k))
               (length (iv ++ c ++ hmacSha256 (macKey ks) (iv ++ c)) - k))
      with (16 + (16 * q - k))
      by (rewrite !length_app, Hi, Hc; lia).
    rewrite firstn_app, firstn_all2 by lia.
    rewrite Hi. replace (16 + (16 * q - k) - 16) with (16 * q - k) by lia.
    rewrite firstn_app, Hc.
    replace (16 * q - k - 16 * q) with 0 by lia.
    rewrite firstn_O, app_nil_r. reflexivity. }
  assert (Hcreate : createDecipheriv (aesKey ks) iv = Ok (decipherOf (aesKey ks) iv))
    by (apply createDecipheriv_ok; assumption).
  assert (Hivs : firstn 16 (iv ++ firstn (16 * q - k) c) = iv).
  { rewrite firstn_app, firstn_all2 by lia.
    replace (16 - length iv) with 0 by lia. rewrite firstn_O. apply app_nil_r. }
  assert (Hrest : skipn 16 (iv ++ firstn (16 * q - k) c) = firstn (16 * q - k) c).
  { rewrite skipn_app, skipn_all2 by lia.
    replace (16 - length iv) with 0 by lia. reflexivity. }
  assert (Hrestlen : length (firstn (16 * q - k) c) = 16 * q - k)
    by (rewrite length_firstn; lia).
  assert (Hlong : (length (iv ++ firstn (16 * q - k) c) <? 16) = false)
    by (apply Nat.ltb_ge; rewrite length_app; lia).
  split.
  - unfold decryptStages. rewrite Houter. cbn [option_map].
    rewrite peekAndUpdateHash_spec.
    unfold getMacAndUpdateHmac, MAC_LENGTH.
    replace (length (flat source) <? 32) with false
      by (symmetry; apply Nat.ltb_ge; lia).
    rewrite Hbody.
    unfold getIvAndDecipher, IV_LENGTH.
    rewrite flat_singleton, Hlong, Hivs, Hcreate, Hrest.
    unfold decipherOf, AES_BLOCK. rewrite Hrestlen, Hmod.
    replace (16 - k =? 0) with false by (symmetry; apply Nat.eqb_neq; lia).
    reflexivity.
  - unfold decryptPassed. rewrite Houter.
    unfold getMacAndUpdateHmacPassed, MAC_LENGTH. rewrite Hbody.
    unfold getIvAndDecipherPassed, IV_LENGTH.
    rewrite flat_singleton, Hlong, Hivs, Hcreate, Hrest.
    cbn [trimPadding]. f_equal. f_equal.
    unfold decipherUpdated, AES_BLOCK. rewrite Hrestlen, Hmod, Hdiv.
    replace (16 - k =? 0) with false by (symmetry; apply Nat.eqb_neq; lia).
    rewrite andb_false_r.
    rewrite firstn_firstn.
    replace (Init.Nat.min ((q - 1) * 16) (16 * q - k)) with (16 * (q - 1)) by lia.
    assert (Hwhole : length (firstn (16 * (q - 1)) c) = 16 * (q - 1))
      by (rewrite length_firstn; lia).
    rewrite Hwhole. subst c.
    rewrite (cbcDecrypt_cbcEncrypt_firstn q) by (try assumption; lia).
    subst pp q. unfold pkcs7Pad.
    replace (1 + length padded / 16 - 1) with (length padded / 16) by lia.
    pose proof (Nat.Div0.mul_div_le (length padded) 16) as Hle.
    rewrite firstn_app.
    replace (16 * (length padded / 16) - length padded) with 0 by lia.
    rewrite firstn_O. apply app_nil_r.
Qed.

(** X25. A frame cut short by 1 to 15 bytes is rejected with the error of the
    decipher, whose ciphertext is no longer made of whole blocks: not with
    the error of a truncated frame, and before any MAC is compared.  The
    error is logged, and the sink has by then received the plaintext up to
    the last whole block before the cut, of which the first [size] bytes:
    all of [P] where [size] is its length and it ends before that block. *)
Theorem decryptAttachmentV2ToSink_cut_short options sink ks iv skipPadding P k w :
  let padded := paddedPlaintext skipPadding P in
  let frame := attachmentFrame ks iv padded in
  let run := decryptAttachmentV2ToSink options sink w in
  let error := CryptoError "wrong final block length" in
  let passed := firstn (DecryptOptions.size options)
                  (firstn (16 * (length padded / 16)) padded) in
  decryptKeys options = Ok ks ->
  length (aesKey ks) = 32 -> length iv = 16 ->
  0 < k < 16 ->
  openFault w !! DecryptOptions.ciphertextPath options = None ->
  streamFault w !! DecryptOptions.ciphertextPath options = None ->
  files w !! DecryptOptions.ciphertextPath options
  = Some (firstn (length frame - k) frame) ->
  DecryptOptions.outerEncryption options = None ->
  fst (openSink (Some sink) w) = None ->
  outcome run = Rejected error
  /\ flat (chunks (sinkView run)) = passed
  /\ ending (sinkView run) = Fails error
  /\ (DecryptOptions.size options = length P ->
      length P <= 16 * (length padded / 16) -> passed = P)
  /\ (forall path, sink = FileSink path -> files (after run) !! path = Some passed)
  /\ errorsLogged w (after run) = [LogError (decryptFailedMessage options) error].
Proof using aesEncryptBlock_length aesDecryptBlock_encrypt readChunks_flat.
  intros padded frame run error passed Hkeys Hak Hivlen Hcut Hof Hsf Hfile Houter Hsink.
  set (cut := firstn (length frame - k) frame) in *.
  destruct (decryptStages_cut options ks iv padded k (readChunks cut)
              Houter Hak Hivlen Hcut (readChunks_flat _)) as [Hstages Hpassed].
  fold passed in Hpassed.
  assert (Hopen : openRead (DecryptOptions.ciphertextPath options) w
                  = (Ok cut, setOpenFds (S (openFds w)) w)).
  { unfold openRead. rewrite Hof.
    destruct (files w !! DecryptOptions.ciphertextPath options) as [content|] eqn:E.
    - injection Hfile as ->. reflexivity.
    - discriminate Hfile. }
  assert (Hpipe :
    decryptPipeline options ks sink cut (setOpenFds (S (openFds w)) w)
    = {| outcome := Rejected error;
         sinkView := {| chunks := [passed]; ending := Fails error |};
         after := writeSink (Some sink) [passed]
                    (snd (openSink (Some sink) (setOpenFds (S (openFds w)) w))) |}).
  { unfold decryptPipeline.
    change (streamFault (setOpenFds (S (openFds w)) w)) with (streamFault w).
    rewrite Hsf. unfold pipeline.
    assert (Hsink' : fst (openSink (Some sink) (setOpenFds (S (openFds w)) w)) = None).
    { destruct sink as [p|fault]; [|exact Hsink].
      unfold openSink in *. cbn [openFault streamFault files setOpenFds] in *.
      destruct (openFault w !! p); [discriminate|exact Hsink]. }
    destruct (openSink (Some sink) (setOpenFds (S (openFds w)) w)) as [fault w1].
    cbn [fst snd] in *. subst fault. cbn [ending chunks].
    unfold decryptChain. rewrite Hstages, Hpassed. reflexivity. }
  subst run. unfold decryptAttachmentV2ToSink. rewrite Hkeys, Hopen, Hpipe.
  cbn [outcome sinkView after chunks ending isAbortError Error_name String.eqb
       Ascii.eqb Bool.eqb].
  split; [reflexivity|]. split; [apply flat_singleton|]. split; [reflexivity|].
  split; [|split].
  - intros Hsize Hfits. subst passed. rewrite Hsize, firstn_firstn.
    replace (Init.Nat.min (length P) (16 * (length padded / 16))) with (length P)
      by lia.
    subst padded. unfold paddedPlaintext.
    destruct skipPadding; [apply firstn_all | apply firstn_prefix].
  - intros path ->. unfold close, writeSink, log_error, log.
    cbn [files setOpenFds setFiles]. rewrite flat_singleton. apply lookup_insert_eq.
  - unfold close. apply (errorsLogged_log_error w _ (decryptFailedMessage options) error).
    apply quietly_same. rewrite writeSink_logged, openSink_logged. reflexivity.
Qed.

(** ** Fresh keys *)

Lemma plaintextSource_same plaintext w w' :
  files w' = files w -> openFault w' = openFault w -> streamFault w' = streamFault w ->
  plaintextSource plaintext w' = plaintextSource plaintext w.
Proof.
  intros Hf Ho Hs. destruct plaintext as [data|stream|path]; try reflexivity.
  unfold plaintextSource, createReadStream. rewrite Hf, Ho, Hs. reflexivity.
Qed.

Lemma openSink_fault_same sink w w' :
  openFault w' = openFault w -> streamFault w' = streamFault w ->
  fst (openSink sink w') = fst (openSink sink w).
Proof.
  intros Ho Hs. destruct sink as [[path|fault]|]; try reflexivity.
  unfold openSink. rewrite Ho, Hs. destruct (openFault w !! path); reflexivity.
Qed.

(** X23. The keys [generateAttachmentKeys] draws always split, into two keys
    of 32 bytes.  Encrypting with them and no test-only option, in any
    environment, returns whenever the source ends and the sink takes what it
    is given; the IV returned is the 16 bytes [randomBytes] gives next. *)
Theorem generateAttachmentKeys_encrypt plaintext getAbsoluteAttachmentPath sink w :
  let keys_ := drawn w 0 64 in
  let props :=
    {| EncryptProps.plaintext := plaintext;
       EncryptProps.keys := keys_;
       EncryptProps.dangerousIv := None;
       EncryptProps.dangerousTestOnlySkipPadding := false;
       EncryptProps.getAbsoluteAttachmentPath := getAbsoluteAttachmentPath |} in
  let run := encryptAttachmentV2 props sink (snd (generateAttachmentKeys w)) in
  fst (generateAttachmentKeys w) = Ok keys_
  /\ splitKeys keys_ = Ok (halves keys_)
  /\ length (aesKey (halves keys_)) = 32
  /\ length (macKey (halves keys_)) = 32
  /\ (ending (plaintextSource plaintext w) = Ends ->
      fst (openSink sink w) = None ->
      exists r, outcome run = Resolved r
                /\ EncryptedAttachmentV2.iv r = drawn w 64 16
                /\ length (EncryptedAttachmentV2.iv r) = 16).
Proof.
  intros keys_ props run.
  split; [reflexivity|].
  split; [apply splitKeys_ok, drawn_length|].
  destruct (length_halves keys_ (drawn_length w 0 64)) as [Hak Hmk].
  split; [exact Hak|]. split; [exact Hmk|].
  intros Hends Hsink. subst run.
  set (w1 := snd (generateAttachmentKeys w)).
  assert (Hready : encryptReady props sink w1).
  { unfold encryptReady, optionsAccepted.
    split; [split; [apply drawn_length | split; [exact I | intros [=]]]|].
    split.
    { unfold chosenIv, props. cbn [EncryptProps.dangerousIv].
      rewrite length_map, length_seq. reflexivity. }
    split.
    - rewrite (plaintextSource_same _ w) by reflexivity. exact Hends.
    - rewrite (openSink_fault_same _ w) by reflexivity. exact Hsink. }
  eexists. split; [apply (encrypt_resolves _ _ _ Hready I)|].
  unfold encryptedOf. cbn [EncryptedAttachmentV2.iv].
  split; [reflexivity | apply drawn_length].
Qed.

End Correctness.

(** * Properties of writeProfile *)

Module WriteProfileFacts.
Import WriteProfile.

Section Facts.

Context {externals : WriteProfile.Externals}.

Ltac run_writeProfile :=
  unfold outcomeOf, callsOf, writeProfile, updateAvatar, keptAvatar, promiseAll,
    WriteProfile.strictAssert, WriteProfile.tryCatch, WriteProfile.bind, emit, call,
    WriteProfile.ret, WriteProfile.throw.

(** The scrutinee of the innermost match of a term. *)
Ltac innermost t :=
  lazymatch t with
  | context [match ?x with _ => _ end] => innermost x
  | _ => t
  end.

(** One step of a run: a case analysis on what the next call returns. *)
Ltac step :=
  lazymatch goal with
  | |- ?G =>
      lazymatch G with
      | context [match ?x with _ => _ end] =>
          let s := innermost x in destruct s eqn:?
      end
  end.

(** X15. [writeProfile] refuses before it writes anything.  Without a server it
    throws and calls nothing; for a conversation the controller does not
    know it returns and calls nothing; and a profile name that is
    whitespace, where an undefined name counts as the string "undefined", is
    refused once the profile was fetched and before anything is encrypted
    or sent. *)
Theorem writeProfile_refusals conversation options :
  (server = false ->
   outcomeOf conversation options = Throws ServerNotAvailable
   /\ callsOf conversation options = [])
  /\ (server = true -> get (id conversation) = None ->
      outcomeOf conversation options = Returns tt
      /\ callsOf conversation options = [])
  /\ (forall model,
         server = true -> get (id conversation) = Some model ->
         getProfile (serviceId model) (e164 model) = Returns tt ->
         isWhitespace (String_ (firstName conversation)) = true ->
         outcomeOf conversation options = Throws EmptyProfileName
         /\ callsOf conversation options
            = [GetProfile (serviceId model) (e164 model)]).
Proof.
  split; [|split].
  - intros Hs. run_writeProfile. rewrite Hs. split; reflexivity.
  - intros Hs Hget. run_writeProfile. rewrite Hs, Hget. split; reflexivity.
  - intros model Hs Hget Hprofile Hname. run_writeProfile.
    rewrite Hs, Hget. cbn. rewrite Hprofile, Hname. split; reflexivity.
Qed.

(** X16. A call of [writeProfile] that throws has changed neither the model nor
    the database nor the job queue. *)
Theorem writeProfile_throws_before_commit conversation options e :
  outcomeOf conversation options = Throws e ->
  forallb (fun c => negb (isCommit c)) (callsOf conversation options) = true.
Proof.
  run_writeProfile.
  repeat (step; cbn [fst snd app negb forallb isCommit andb]);
    try discriminate; try reflexivity.
Qed.

(** X17. A call of [writeProfile] that returns for a conversation the controller
    knows has put the profile to the server first, and then set the model to
    the names and about fields of the conversation, updated the database,
    captured the change and queued the sync message, once each and in this
    order. *)
Theorem writeProfile_returns_committed conversation options model :
  server = true -> get (id conversation) = Some model ->
  outcomeOf conversation options = Returns tt ->
  existsb isPutProfile (beforeCommit (callsOf conversation options)) = true
  /\ exists update,
       List.filter isCommit (callsOf conversation options)
       = [ModelSet {| about := aboutText conversation;
                      aboutEmoji_ := aboutEmoji conversation;
                      profileName := firstName conversation;
                      profileFamilyName := familyName conversation;
                      profileAvatar := update |};
          UpdateConversation; CaptureChange "writeProfile";
          QueueFetchLocalProfileSync].
Proof.
  intros Hs Hget. run_writeProfile. rewrite Hs, Hget. cbn [negb].
  repeat (step; cbn [fst snd app]); try discriminate;
    intros _; (split; [reflexivity | eexists; reflexivity]).
Qed.

(** X18. Once the sync message is handed to the job queue the call returns: an
    error of the queue is logged and thrown no further. *)
Theorem writeProfile_sync_failure_swallowed conversation options :
  existsb isQueue (callsOf conversation options) = true ->
  outcomeOf conversation options = Returns tt
  /\ forall error,
       queueFetchLocalProfileSync = Throws error ->
       last (callsOf conversation options)
       = Some (LogError "writeProfile: Failed to queue sync message" error).
Proof.
  run_writeProfile.
  repeat (step; cbn [fst snd app existsb isQueue orb]);
    try discriminate; intros _;
    repeat match goal with u : unit |- _ => destruct u end;
    (split; [reflexivity|]); intros error He;
    try discriminate; injection He as <-; reflexivity.
Qed.

(** X19. Where the request built by [encryptProfileData] says the avatar is the
    same, [writeProfile] uploads nothing, writes and deletes no avatar file,
    puts nothing into the storage, and leaves [profileAvatar] out of what it
    sets on the model. *)
Theorem writeProfile_sameAvatar conversation options :
  (forall avatarUpdate profileData encryptedAvatarData,
      encryptProfileData conversation avatarUpdate
      = Returns (profileData, encryptedAvatarData) ->
      sameAvatar profileData = true) ->
  forallb (fun c => negb (isAvatarChange c)) (callsOf conversation options) = true
  /\ Forall leavesProfileAvatar (callsOf conversation options).
Proof.
  intros Hsame. run_writeProfile.
  repeat (step; cbn [fst snd app forallb isAvatarChange negb andb]);
    try match goal with
        | He : encryptProfileData _ _ = Returns (?pd, _), Hs : sameAvatar ?pd = false
          |- _ => rewrite (Hsame _ _ _ He) in Hs; discriminate Hs
        end;
    (split; [reflexivity | repeat constructor]).
Qed.

(** X20. With [keepAvatar], the avatar update that is encrypted has the same old
    and new avatar: the bytes of the local avatar file, or none where the
    model has no avatar path or the file cannot be read; in that last case a
    warning is logged and the call goes on. *)
Theorem writeProfile_keepAvatar conversation :
  Forall keepsAvatar (callsOf conversation KeepAvatar)
  /\ (forall model path error,
         server = true -> get (id conversation) = Some model ->
         getProfile (serviceId model) (e164 model) = Returns tt ->
         isWhitespace (String_ (firstName conversation)) = false ->
         profileAvatarPath model = Some path -> path <> ""%string ->
         imagePathToBytes path = Throws error ->
         firstn 4 (callsOf conversation KeepAvatar)
         = [GetProfile (serviceId model) (e164 model);
            ImagePathToBytes path;
            LogWarn "writeProfile: local avatar not found, dropping remote";
            EncryptProfileData conversation {| oldAvatar := None; newAvatar := None |}]).
Proof.
  split.
  - run_writeProfile.
    repeat (step; cbn [fst snd app]); repeat constructor.
  - intros model path error Hs Hget Hprofile Hname Hpath Hnonempty Himage.
    assert (Htruthy : truthy (Some path) = true).
    { unfold truthy. apply negb_true_iff, String.eqb_neq. exact Hnonempty. }
    run_writeProfile. rewrite Hs, Hget. cbn [negb]. rewrite Hprofile, Hname.
    cbn [negb]. rewrite Hpath. fold (truthy (Some path)). rewrite Htruthy, Himage.
    cbn [fst snd app].
    repeat (step; cbn [fst snd app]); reflexivity.
Qed.

(** X21. Whatever the calls return, [writeProfile] deletes no file but the one at
    the avatar path of the conversation, puts nothing into the storage but
    the avatar url, and saves a new avatar to disk only after it was
    uploaded. *)
Theorem writeProfile_avatar_files conversation options :
  Forall (withinConversation conversation) (callsOf conversation options)
  /\ savedAfterUpload false (callsOf conversation options) = true.
Proof.
  run_writeProfile.
  repeat (step; cbn [fst snd app savedAfterUpload andb]);
    (split; [repeat constructor; assumption | reflexivity]).
Qed.

(** X22. An avatar whose hash is the one the conversation has is not saved
    again: where [computeHash] gives the conversation's [avatarHash], no new
    avatar file is written and no new [profileAvatar] is set on the model. *)
Theorem writeProfile_same_hash conversation options :
  (forall data hash, computeHash data = Returns hash ->
                     avatarHash conversation = Some hash) ->
  Forall savesNoAvatar (callsOf conversation options).
Proof.
  intros Hhash. run_writeProfile.
  repeat (step; cbn [fst snd app]);
    try match goal with
        | He : computeHash _ = Returns ?h,
          Hb : negb (bool_decide (Some ?h = avatarHash conversation)) = true |- _ =>
            exfalso; apply negb_true_iff, bool_decide_eq_false in Hb;
            apply Hb; symmetry; exact (Hhash _ _ He)
        end;
    repeat constructor; intros; discriminate.
Qed.

End Facts.

End WriteProfileFacts.

(** * Concrete runs *)

(** The stand-ins meet what is assumed of the externals. *)
Lemma standIns_block_length key block :
  length key = 32 -> length block = 16 ->
  length (aesEncryptBlock key block) = 16.
Proof.
  intros Hk Hb. change (length (xorBytes block (firstn 16 key)) = 16).
  rewrite length_xorBytes; [exact Hb|]. rewrite length_firstn. lia.
Qed.

Lemma standIns_block_inverse key block :
  length key = 32 -> length block = 16 ->
  aesDecryptBlock key (aesEncryptBlock key block) = block.
Proof.
  intros Hk Hb.
  change (xorBytes (xorBytes block (firstn 16 key)) (firstn 16 key) = block).
  apply xorBytes_involutive. rewrite length_firstn. lia.
Qed.

Lemma standIns_pad_ge n : n <= logPadSize n.
Proof. change (n <= Nat.max 541 n). lia. Qed.

Lemma standIns_chunks_flat content : flat (readChunks content) = content.
Proof. apply flat_singleton. Qed.

Lemma helloProps_ready sink env :
  fst (openSink sink (checkedWorld (helloProps None false) (quietWorld env))) = None ->
  encryptReady (helloProps None false) sink (quietWorld env).
Proof.
  intros Hsink. unfold encryptReady, optionsAccepted.
  repeat split; try reflexivity; try exact Hsink. intros [=].
Qed.

(** ** C5 on concrete keys *)

Example splitKeys_countingKey :
  splitKeys countingKey
  = Ok {| aesKey := map Z.of_nat (seq 0 32); macKey := map Z.of_nat (seq 32 32) |}.
Proof. reflexivity. Qed.

Example splitKeys_short :
  splitKeys (map Z.of_nat (seq 0 63)) = Err (InvalidKeyLength 63).
Proof. reflexivity. Qed.

(** ** C4 on a concrete run *)

Lemma ciphertextSize_hello :
  exists r,
    outcome (encryptAttachmentV2 (helloProps None false) None (quietWorld Production))
    = Resolved r
    /\ EncryptedAttachmentV2.ciphertextSize r = getAttachmentCiphertextLength 5
    /\ getAttachmentCiphertextLength 5 = 592.
Proof.
  destruct (ciphertextSize_getAttachmentCiphertextLength
              standIns_block_length standIns_pad_ge
              (helloProps None false) None (quietWorld Production)
              (helloProps_ready None Production eq_refl) eq_refl)
    as (Hsize & Hreturns & _ & _).
  destruct (Hreturns I) as [r Hr].
  exists r. split; [exact Hr|]. split; [exact (Hsize r Hr) | reflexivity].
Defined.

(** ** C10 on a concrete run *)

Lemma plaintextHash_hello :
  exists r,
    outcome (encryptAttachmentV2 (helloProps None false) None (quietWorld Production))
    = Resolved r
    /\ EncryptedAttachmentV2.plaintextHash r
       = getPlaintextHashForInMemoryAttachment helloBytes.
Proof.
  destruct (plaintextHash_getPlaintextHashForInMemoryAttachment
              (helloProps None false) None (quietWorld Production) helloBytes
              (helloProps_ready None Production eq_refl) eq_refl)
    as (Hhash & _ & Hreturns).
  destruct (Hreturns I) as [r Hr].
  exists r. split; [exact Hr | exact (Hhash r Hr)].
Defined.

(** ** C1 on a concrete run *)

Lemma decrypt_encrypt_hello :
  exists d,
    outcome
      (decryptAttachmentV2ToSink
         (helloOptions (TypeStandard (EncryptedAttachmentV2.digest helloEncrypted))
            (KeysDirect (firstn 32 countingKey) (skipn 32 countingKey)))
         (MemorySink None)
         (after (encryptAttachmentV2 (helloProps None false)
                   (Some (FileSink "frame.bin")) (quietWorld Production))))
    = Resolved d
    /\ DecryptedAttachmentV2.plaintextHash d = sha256hex helloBytes.
Proof.
  destruct (decrypt_encrypt_roundtrip
              standIns_block_length standIns_block_inverse standIns_chunks_flat
              (helloProps None false) "frame.bin"
              (helloOptions (TypeStandard (EncryptedAttachmentV2.digest helloEncrypted))
                 (KeysDirect (firstn 32 countingKey) (skipn 32 countingKey)))
              (quietWorld Production) helloEncrypted)
    as (d & Hd & _ & _ & Hhash & _).
  - apply helloProps_ready. reflexivity.
  - vm_compute. reflexivity.
  - reflexivity.
  - reflexivity.
  - reflexivity.
  - split; reflexivity.
  - reflexivity.
  - exists d. split; [exact Hd | exact Hhash].
Defined.

(** ** C2 on concrete frames *)



(** The sink has by then received "hello". *)
Example tampered_frame_delivers :
  flat (chunks (sinkView (decryptAttachmentV2ToSink tamperedOptions (MemorySink None)
                            tamperedWorld)))
  = helloBytes.
Proof. vm_compute. reflexivity. Qed.

(** ** C3 on concrete runs *)

Lemma reencryptingForBackup_hello :
  (exists r,
      outcome (encryptAttachmentV2
                 (backupProps (EncryptedAttachmentV2.digest helloEncrypted))
                 None (quietWorld Production)) = Resolved r
      /\ EncryptedAttachmentV2.digest r = EncryptedAttachmentV2.digest helloEncrypted
      /\ EncryptedAttachmentV2.iv r = map Z.of_nat (seq 0 16))
  /\ outcome (encryptAttachmentV2 (backupProps (repeat 0%Z 32)) None
                (quietWorld Production))
     = Rejected ReencryptedDigestMismatch
  /\ outcome (encryptAttachmentV2 (backupProps (repeat 0%Z 31)) None
                (quietWorld Production))
     = Rejected InvalidDigestLength.
Proof.
  assert (Hready : forall d, length d = 32 ->
            encryptReady (backupProps d) None (quietWorld Production)).
  { intros d Hd. unfold encryptReady, optionsAccepted.
    repeat split; try reflexivity; try exact Hd. intros [=]. }
  pose (at_digest d :=
    reencryptingForBackup_digestToMatch (backupProps d) None (quietWorld Production)
      (map Z.of_nat (seq 0 16)) d eq_refl eq_refl).
  split; [|split].
  - destruct (at_digest (EncryptedAttachmentV2.digest helloEncrypted)) as [_ Hgood].
    destruct (Hgood (length_sha256 _) (Hready _ (length_sha256 _))) as (_ & Hsame & _).
    apply Hsame. reflexivity.
  - destruct (at_digest (repeat 0%Z 32)) as [_ Hgood].
    destruct (Hgood eq_refl (Hready (repeat 0%Z 32) eq_refl)) as (_ & _ & Hdiffers).
    apply Hdiffers. intros H. vm_compute in H. discriminate H.
  - destruct (at_digest (repeat 0%Z 31)) as [Hbad _].
    apply Hbad. intros [=].
Defined.

(** ** C7 on concrete runs *)

(** Outside a test environment an IV forced for a test is refused. *)
Lemma testOnly_iv_refused :
  exists option_,
    outcome (encryptAttachmentV2 (helloProps (Some (IvTest (repeat 0%Z 16))) false)
               None (quietWorld Production))
    = Rejected (TestOnlyFeatureUsed option_).
Proof.
  destruct (testOnly_options_gate
              (helloProps (Some (IvTest (repeat 0%Z 16))) false) None
              (quietWorld Production) eq_refl I
              (or_introl (ex_intro _ (repeat 0%Z 16) eq_refl)))
    as [Hrefused _].
  destruct Hrefused as (option_ & Hout & _); [discriminate|].
  exists option_. exact Hout.
Defined.

(** Skipping the padding outside a test environment, with a digest to match
    of 31 bytes: the digest-length error comes first. *)
Lemma testOnly_skipPadding_after_digest_length :
  EncryptProps.dangerousTestOnlySkipPadding skipPaddingShortDigestProps = true
  /\ length (EncryptProps.keys skipPaddingShortDigestProps) = 64
  /\ environment (quietWorld Production) <> Test
  /\ outcome (encryptAttachmentV2 skipPaddingShortDigestProps None
                (quietWorld Production))
     = Rejected InvalidDigestLength.
Proof. repeat split. discriminate. Qed.

(** ** C9 on concrete runs *)

(** With the padding skipped the frame of the empty plaintext is 64 bytes. *)
Lemma emptyPlaintext_unpadded_size :
  exists r,
    outcome (encryptAttachmentV2 (emptyPlaintextProps true underOut) None
               (quietWorld Test))
    = Resolved r
    /\ EncryptedAttachmentV2.plaintextHash r
       = "e3b0c44298fc1c149afbf4c8996fb92427ae41e4649b934ca495991b7852b855"%string
    /\ EncryptedAttachmentV2.ciphertextSize r = 64.
Proof.
  destruct (emptyPlaintext_zeroKey_zeroIv standIns_block_length
              true underOut None (quietWorld Test) eq_refl eq_refl)
    as (r & Hr & Hhash & _ & Hsize).
  exists r. split; [exact Hr|]. split; [exact Hhash|].
  apply Hsize. left. reflexivity.
Defined.

(** With the padding in place and a smallest bucket of 541 bytes, the frame
    of the empty plaintext is 592 bytes, not 64. *)
Lemma emptyPlaintext_padded_size :
  (forall n, n <= logPadSize n)
  /\ exists r,
       outcome (encryptAttachmentV2 (emptyPlaintextProps false underOut) None
                  (quietWorld Test))
       = Resolved r
       /\ EncryptedAttachmentV2.plaintextHash r
          = "e3b0c44298fc1c149afbf4c8996fb92427ae41e4649b934ca495991b7852b855"%string
       /\ EncryptedAttachmentV2.ciphertextSize r = 592
       /\ EncryptedAttachmentV2.ciphertextSize r <> 64.
Proof.
  split; [exact standIns_pad_ge|].
  eexists. split; [vm_compute; reflexivity|].
  split; [reflexivity|]. split; [reflexivity | discriminate].
Qed.

(** ** C6 on concrete runs *)

(** The plaintext stream fails with EIO and the unlink with EPERM: the caller
    gets EPERM, and the output file is still there. *)
Lemma failed_pipeline_output_remains :
  outcome (encryptAttachmentV2 failingProps (Some (FileSink "out/a1"))
             (snd (ensureFile "out/a1" stickyWorld)))
  = Rejected (SystemError "EIO")
  /\ outcome (encryptAttachmentV2ToDisk failingProps stickyWorld)
     = Rejected (SystemError "EPERM")
  /\ files (after (encryptAttachmentV2ToDisk failingProps stickyWorld)) !! "out/a1"%string
     = Some [].
Proof. repeat split; vm_compute; reflexivity. Qed.

(** The same failure where the file can be unlinked: the caller gets EIO and
    no file is left. *)
Lemma failed_pipeline_output_unlinked :
  outcome (encryptAttachmentV2ToDisk failingProps (quietWorld Production))
  = Rejected (SystemError "EIO")
  /\ files (after (encryptAttachmentV2ToDisk failingProps (quietWorld Production)))
     !! "out/a1"%string = None.
Proof.
  destruct (proj1 failed_pipeline_unlinks_output
              failingProps (quietWorld Production)
              (snd (ensureFile "out/a1" (quietWorld Production)))
              (SystemError "EIO"))
    as (_ & e & Hout & Hclean).
  - reflexivity.
  - repeat split. intros [=].
  - reflexivity.
  - vm_compute. reflexivity.
  - vm_compute in Hclean. destruct Hclean as [-> _].
    split; [exact Hout | vm_compute; reflexivity].
Defined.

(** ** C8 on concrete runs *)

(** The abort error is not logged by the sink variant, and is logged at error
    level by the file-producing one. *)
Lemma abort_error_logged_to_disk :
  outcome (decryptAttachmentV2ToSink localOptions (MemorySink None) abortedWorld)
  = Rejected AbortError
  /\ logged (after (decryptAttachmentV2ToSink localOptions (MemorySink None)
                      abortedWorld)) = []
  /\ outcome (decryptAttachmentV2 localOptions abortedWorld) = Rejected AbortError
  /\ logged (after (decryptAttachmentV2 localOptions abortedWorld))
     = [LogError "decryptAttachmentV2(a1): Failed to decrypt attachment to disk"
                 AbortError].
Proof. repeat split; vm_compute; reflexivity. Qed.

(** A truncated frame: the error is logged once by the sink variant. *)
Lemma truncated_frame_logged :
  errorsLogged truncatedWorld
    (after (decryptAttachmentV2ToSink localOptions (MemorySink None) truncatedWorld))
  = [LogError "decryptAttachmentV2(a1): Failed to decrypt attachment" TruncatedFrame].
Proof.
  apply (proj1 (proj2 (decrypt_abort_errors_not_logged localOptions (MemorySink None)
                         truncatedWorld))
           {| aesKey := firstn 32 countingKey; macKey := skipn 32 countingKey |}
           (repeat 0%Z 31) (setOpenFds 1 truncatedWorld) TruncatedFrame).
  - reflexivity.
  - vm_compute. reflexivity.
  - vm_compute. reflexivity.
  - reflexivity.
Defined.

(** ** Further concrete runs *)

Ltac concrete :=
  first [ exact I
        | (let H := fresh in intros H; vm_compute in H; discriminate H)
        | vm_compute; reflexivity
        | apply Nat.leb_le; vm_compute; reflexivity
        | split; vm_compute; reflexivity ].

Lemma standIns_pad_mono a b : a <= b -> logPadSize a <= logPadSize b.
Proof. intros H. change (Nat.max 541 a <= Nat.max 541 b). lia. Qed.

Lemma getAesCbcCiphertextLength_hello :
  exists cipher,
    createCipheriv (firstn 32 countingKey) (repeat 0%Z 16) = Ok cipher
    /\ length (flat (cipher [helloBytes])) = 16.
Proof.
  destruct (getAesCbcCiphertextLength_createCipheriv standIns_block_length
              (firstn 32 countingKey) (repeat 0%Z 16) [helloBytes] eq_refl eq_refl)
    as (cipher & Hcipher & Hlen & _).
  exists cipher. split; [exact Hcipher | exact Hlen].
Defined.

Lemma getAttachmentCiphertextLength_grows :
  getAttachmentCiphertextLength 5 <= getAttachmentCiphertextLength 600
  /\ 600 + 49 <= getAttachmentCiphertextLength 600.
Proof.
  destruct (getAttachmentCiphertextLength_overhead standIns_pad_ge 5 600
              standIns_pad_mono ltac:(lia)) as (Hmono & Hover & _).
  split; [exact Hmono | exact Hover].
Defined.

Lemma encryptAttachmentV2ToDisk_hello :
  exists frame,
    files (after (encryptAttachmentV2ToDisk (helloProps None false)
                    (quietWorld Production))) !! "out/a1"%string = Some frame
    /\ length frame = 592.
Proof.
  destruct (encryptAttachmentV2ToDisk_file (helloProps None false)
              (quietWorld Production) helloEncrypted "a1")
    as (_ & frame & Hfile & Hlen & _).
  - vm_compute. reflexivity.
  - exists frame. split; [exact Hfile|]. rewrite Hlen. reflexivity.
Defined.

Lemma decrypt_hello_verified :
  exists content,
    files frameWorld !! "frame.bin"%string = Some content
    /\ Sha256.sha256 content = EncryptedAttachmentV2.digest helloEncrypted.
Proof.
  destruct (decryptAttachmentV2ToSink_verified standIns_chunks_flat
              (helloOptions (TypeStandard (EncryptedAttachmentV2.digest helloEncrypted))
                 (KeysDirect (firstn 32 countingKey) (skipn 32 countingKey)))
              (MemorySink None) frameWorld
              {| DecryptedAttachmentV2.path := None;
                 DecryptedAttachmentV2.iv := map Z.of_nat (seq 0 16);
                 DecryptedAttachmentV2.plaintextHash := sha256hex helloBytes |})
    as (ks & content & _ & Hfile & _ & _ & Hdigest & _).
  - reflexivity.
  - vm_compute. reflexivity.
  - exists content. split; [exact Hfile|]. apply Hdigest. reflexivity.
Defined.

Lemma decrypt_hello_short_size :
  flat (chunks (sinkView (decryptAttachmentV2ToSink shortOptions (MemorySink None)
                            frameWorld)))
  = firstn 3 helloBytes.
Proof.
  destruct (decryptAttachmentV2ToSink_declared_size
              standIns_block_length standIns_block_inverse standIns_chunks_flat
              shortOptions (MemorySink None) (halves countingKey)
              (map Z.of_nat (seq 0 16)) false helloBytes frameWorld)
    as (_ & Hsink & _ & Hshort & _); [concrete .. |].
  rewrite Hsink. apply Hshort. apply Nat.leb_le. reflexivity.
Defined.

Lemma disk_to_disk_hello :
  files (after (decryptAttachmentV2 diskOptions
                  (after (encryptAttachmentV2ToDisk (helloProps None false)
                            (quietWorld Production)))))
    !! "plain/a1"%string
  = Some helloBytes.
Proof.
  destruct (decryptAttachmentV2_encryptAttachmentV2ToDisk
              standIns_block_length standIns_block_inverse standIns_chunks_flat
              (helloProps None false) diskOptions helloBytes (quietWorld Production)
              helloEncrypted "a1")
    as (_ & _ & Hfile & _); [concrete .. |].
  exact Hfile.
Defined.

Lemma reencrypt_hello :
  outcome (decryptAndReencryptLocally
             (helloOptions TypeLocal
                (KeysDirect (firstn 32 countingKey) (skipn 32 countingKey)))
             frameWorld)
  = Resolved {| ReencryptedAttachmentV2.path := "a1";
                ReencryptedAttachmentV2.iv := toBase64 (map Z.of_nat (seq 0 16));
                ReencryptedAttachmentV2.plaintextHash := sha256hex helloBytes;
                ReencryptedAttachmentV2.localKey := toBase64 (drawn frameWorld 0 64);
                ReencryptedAttachmentV2.version := 2 |}.
Proof.
  destruct (decryptAndReencryptLocally_reencrypts
              standIns_block_length standIns_block_inverse standIns_chunks_flat
              (helloOptions TypeLocal
                 (KeysDirect (firstn 32 countingKey) (skipn 32 countingKey)))
              (halves countingKey) (map Z.of_nat (seq 0 16)) false helloBytes frameWorld)
    as (Hout & _); [concrete .. |].
  exact Hout.
Defined.

Lemma reencrypt_missing_file_pending :
  outcome (decryptAndReencryptLocally localOptions (quietWorld Production)) = Pending.
Proof.
  destruct (decryptAndReencryptLocally_never_settles localOptions (quietWorld Production))
    as (Hout & _).
  - reflexivity.
  - discriminate.
  - right. left. reflexivity.
  - exact Hout.
Defined.

Lemma decrypt_outer_hello :
  flat (chunks (sinkView (decryptAttachmentV2ToSink outerOptions (MemorySink None)
                            outerWorld)))
  = helloBytes.
Proof.
  destruct (decryptAttachmentV2ToSink_outerEncryption
              standIns_block_length standIns_block_inverse standIns_chunks_flat
              outerOptions (MemorySink None) (halves countingKey)
              (map Z.of_nat (seq 0 16)) outerKeys (repeat 1%Z 16) false helloBytes
              outerWorld)
    as (_ & Hsink & _); [concrete .. |].
  exact Hsink.
Defined.

Lemma decrypt_bad_mac_delivers :
  outcome (decryptAttachmentV2ToSink localOptions (MemorySink None) badMacWorld)
  = Rejected BadMac
  /\ flat (chunks (sinkView (decryptAttachmentV2ToSink localOptions (MemorySink None)
                               badMacWorld)))
     = helloBytes.
Proof.
  destruct (decryptAttachmentV2ToSink_bad_mac
              standIns_block_length standIns_block_inverse standIns_chunks_flat
              localOptions (MemorySink None) (halves countingKey)
              (map Z.of_nat (seq 0 16)) false helloBytes (repeat 0%Z 32) badMacWorld)
    as (Hout & Hsink & _); [concrete .. |].
  split; [exact Hout | exact Hsink].
Defined.

Lemma decrypt_cut_short_hello :
  outcome (decryptAttachmentV2ToSink localOptions (MemorySink None) cutWorld)
  = Rejected (CryptoError "wrong final block length")
  /\ flat (chunks (sinkView (decryptAttachmentV2ToSink localOptions (MemorySink None)
                               cutWorld)))
     = helloBytes.
Proof.
  destruct (decryptAttachmentV2ToSink_cut_short
              standIns_block_length standIns_block_inverse standIns_chunks_flat
              localOptions (MemorySink None) (halves countingKey)
              (map Z.of_nat (seq 0 16)) false helloBytes 1 cutWorld)
    as (Hout & Hsink & _ & Hall & _);
    [concrete | concrete | concrete | lia | concrete | concrete | concrete
     | concrete | concrete |].
  split; [exact Hout|]. rewrite Hsink.
  apply Hall; [reflexivity | apply Nat.leb_le; vm_compute; reflexivity].
Defined.

(** ** writeProfile on concrete conversations *)

Lemma writeProfile_empty_name_refused :
  WriteProfile.outcomeOf (alice (Some ""%string)) WriteProfile.KeepAvatar
  = WriteProfile.Throws WriteProfile.EmptyProfileName
  /\ forallb (fun c => negb (WriteProfile.isCommit c))
             (WriteProfile.callsOf (alice (Some ""%string)) WriteProfile.KeepAvatar)
     = true.
Proof.
  split; [reflexivity|].
  apply (WriteProfileFacts.writeProfile_throws_before_commit
           (externals := profileStandIns) (alice (Some ""%string)) WriteProfile.KeepAvatar
           WriteProfile.EmptyProfileName).
  reflexivity.
Defined.

Lemma writeProfile_alice_committed :
  exists update,
    List.filter WriteProfile.isCommit
      (WriteProfile.callsOf (alice (Some "Alice"%string)) WriteProfile.KeepAvatar)
    = [WriteProfile.ModelSet
         {| WriteProfile.about := None; WriteProfile.aboutEmoji_ := None;
            WriteProfile.profileName := Some "Alice"%string;
            WriteProfile.profileFamilyName := None;
            WriteProfile.profileAvatar := update |};
       WriteProfile.UpdateConversation; WriteProfile.CaptureChange "writeProfile";
       WriteProfile.QueueFetchLocalProfileSync].
Proof.
  destruct (WriteProfileFacts.writeProfile_returns_committed
              (externals := profileStandIns) (alice (Some "Alice"%string)) WriteProfile.KeepAvatar aliceModel
              eq_refl eq_refl eq_refl) as (_ & update & Hcommitted).
  exists update. exact Hcommitted.
Defined.

Lemma writeProfile_alice_queue_fails :
  WriteProfile.outcomeOf (alice (Some "Alice"%string)) WriteProfile.KeepAvatar
  = WriteProfile.Returns tt
  /\ last (WriteProfile.callsOf (alice (Some "Alice"%string)) WriteProfile.KeepAvatar)
     = Some (WriteProfile.LogError "writeProfile: Failed to queue sync message"
               (WriteProfile.Failure "queue")).
Proof.
  destruct (WriteProfileFacts.writeProfile_sync_failure_swallowed
              (externals := profileStandIns) (alice (Some "Alice"%string)) WriteProfile.KeepAvatar eq_refl)
    as (Hreturns & Hlogged).
  split; [exact Hreturns | exact (Hlogged _ eq_refl)].
Defined.

Lemma writeProfile_alice_same_avatar :
  forallb (fun c => negb (WriteProfile.isAvatarChange c))
          (WriteProfile.callsOf (alice (Some "Alice"%string)) WriteProfile.KeepAvatar)
  = true.
Proof.
  destruct (WriteProfileFacts.writeProfile_sameAvatar
              (externals := profileStandIns)
              (alice (Some "Alice"%string)) WriteProfile.KeepAvatar) as [Hnone _].
  - intros avatarUpdate profileData encryptedAvatarData [= <- _]. reflexivity.
  - exact Hnone.
Defined.

(** The avatar is uploaded and its hash computed; the hash is the one the
    conversation has, and the avatar is not saved again. *)
Lemma writeProfile_alice_same_hash :
  In (WriteProfile.ComputeHash helloBytes)
     (WriteProfile.callsOf (externals := uploadStandIns) (alice (Some "Alice"%string))
        (WriteProfile.WithAvatarUpdate
           {| WriteProfile.oldAvatar := None;
              WriteProfile.newAvatar := Some helloBytes |}))
  /\ Forall WriteProfile.savesNoAvatar
       (WriteProfile.callsOf (externals := uploadStandIns) (alice (Some "Alice"%string))
          (WriteProfile.WithAvatarUpdate
             {| WriteProfile.oldAvatar := None;
                WriteProfile.newAvatar := Some helloBytes |})).
Proof.
  split.
  - vm_compute. repeat (first [left; reflexivity | right]).
  - apply (WriteProfileFacts.writeProfile_same_hash (externals := uploadStandIns)
             (alice (Some "Alice"%string))).
    intros data hash [= <-]. reflexivity.
Defined.
